(** * ILP/STREAM (ilp-protocol-stream): packet codec, receipts, offset sorter

    A shallow embedding of the parts of the TypeScript sources that the
    specification talks about:

    - [src/protocol.ts]: STREAM packets and their typed frames, written with
      the OER writer and parsed with the OER reader of [oer-utils];
    - [crypto.ts], in its two versions (the one whose functions return
      promises, [src/unnamed/part_002], and the synchronous one that
      protocol.ts calls, which follows ildcp.ts in [src/src/ildcp.ts]):
      AES-256-GCM encryption of serialized packets;
    - [src/util/receipt.ts]: the 58-byte STREAM receipt;
    - the [OffsetSorter] class (it follows the tests in
      [src/test/index.test.ts]): the linked list that orders incoming data;
    - [Server.generateAddressAndSecret] ([src/unnamed/part_003]);

    and of what these call or are called by: [byteLength] with the size
    predictor of [oer-utils], the key caches of the synchronous crypto.ts,
    the connection id that [Server.handleData] takes from a destination, and
    [deserializeIldcpResponse] of [src/src/ildcp.ts].

    Conventions.  A [Buffer] is a list of bytes.  A JavaScript number or
    [BigNumber] that holds an integer is a [Z]; the range checks of the
    writer are written out.  A JavaScript string is a Rocq [string] holding
    the UTF-8 bytes of a well-formed text, so that [Buffer.from(s)] and
    [buf.toString('utf8')] are the two directions of the same bijection.  A
    function that can throw returns [option] (or [result] where the message
    of the exception matters).  A promise is its value. *)

From Stdlib Require Import ZArith List Bool Lia.
From Stdlib Require Import Strings.String Strings.Ascii Strings.Byte.
From Stdlib Require Import Permutation Sorting.Sorted.
Import ListNotations.
Open Scope Z_scope.

Set Implicit Arguments.

(** ** Buffers and bytes *)

Definition Buffer := list byte.

Definition Z_of_byte (b : byte) : Z := Z.of_N (Byte.to_N b).

Definition byte_of_Z (z : Z) : byte :=
  match Byte.of_N (Z.to_N (z mod 256)) with
  | Some b => b
  | None => x00
  end.

Definition bytes_eqb (a b : Buffer) : bool :=
  if list_eq_dec Byte.byte_eq_dec a b then true else false.

(** [buf.length] as a JavaScript number. *)
Definition len (b : Buffer) : Z := Z.of_nat (List.length b).

(** [buf.slice(start, end)] with the index normalisation of Node's Buffer:
    a negative index counts from the end, and both are clamped. *)
Definition clamp_index (n : Z) (i : Z) : nat :=
  Z.to_nat (if i <? 0 then Z.max (n + i) 0 else Z.min i n).

Definition slice (b : Buffer) (s e : Z) : Buffer :=
  let s' := clamp_index (len b) s in
  let e' := clamp_index (len b) e in
  firstn (e' - s') (skipn s' b).

Definition slice_from (b : Buffer) (s : Z) : Buffer :=
  skipn (clamp_index (len b) s) b.

(** Big-endian unsigned integers of a fixed width. *)
Fixpoint be_encode (width : nat) (v : Z) : Buffer :=
  match width with
  | O => []
  | S w => be_encode w (v / 256) ++ [byte_of_Z v]
  end.

Definition be_decode (bs : Buffer) : Z :=
  fold_left (fun acc b => acc * 256 + Z_of_byte b) bs 0.

(** Number of bytes of the shortest big-endian form; zero takes one byte
    ([Math.ceil(value.toString(16).length / 2)] in the writer). *)
Definition byte_size (v : Z) : Z := Z.log2 v / 8 + 1.

(** The option monad used for everything that can throw. *)
Definition obind {A B} (m : option A) (f : A -> option B) : option B :=
  match m with
  | Some a => f a
  | None => None
  end.

Declare Scope throw_scope.
Delimit Scope throw_scope with throw.
Notation "'let?' x ':=' m 'in' k" := (obind m (fun x => k))
  (at level 10, x pattern, m at level 200, k at level 200,
   format "'[v' 'let?'  x  ':='  m  'in' '/' k ']'") : throw_scope.
Open Scope throw_scope.

(** ** The OER reader and writer of oer-utils

    [oer-utils] is a dependency of the repository.  The model below follows
    its [Reader] and [Writer]: a reader is the not yet consumed rest of its
    buffer, a writer is the bytes written so far.  Every method that throws
    (reading past the end, a value that does not fit its width, a length
    prefix that is not canonical) returns [None]. *)
Module Oer.

Definition Reader := Buffer.
Definition Writer := Buffer.

Definition HIGH_BIT : Z := 128.
Definition LOWER_SEVEN_BITS : Z := 127.

(** *** Reader *)

Definition readUInt8BigNum (r : Reader) : option (Z * Reader) :=
  match r with
  | b :: r' => Some (Z_of_byte b, r')
  | [] => None
  end.

Definition readUInt8Number := readUInt8BigNum.
Definition readUInt8 := readUInt8BigNum.

Definition peekUInt8BigNum (r : Reader) : option Z :=
  let? (v, _) := readUInt8BigNum r in Some v.

Definition skipUInt8 (r : Reader) : option Reader :=
  let? (_, r') := readUInt8BigNum r in Some r'.

Definition read (n : nat) (r : Reader) : option (Buffer * Reader) :=
  if (n <=? List.length r)%nat then Some (firstn n r, skipn n r) else None.

Definition readUInt (width : nat) (r : Reader) : option (Z * Reader) :=
  match width with
  | O => None
  | _ => let? (bs, r') := read width r in Some (be_decode bs, r')
  end.

Definition readUInt64Long := readUInt 8.

Definition readOctetString (n : nat) (r : Reader) := read n r.

Definition readLengthPrefix (r : Reader) : option (Z * Reader) :=
  let? (length, r1) := readUInt8Number r in
  if Z.land length HIGH_BIT =? 0 then Some (length, r1)
  else
    let lengthPrefixLength := Z.land length LOWER_SEVEN_BITS in
    if lengthPrefixLength =? 0 then None
    else
      let? (actualLength, r2) := readUInt (Z.to_nat lengthPrefixLength) r1 in
      let minLength := Z.max 128 (Z.shiftl 1 ((lengthPrefixLength - 1) * 8)) in
      if actualLength <? minLength then None else Some (actualLength, r2).

Definition readVarOctetString (r : Reader) : option (Buffer * Reader) :=
  let? (n, r1) := readLengthPrefix r in
  read (Z.to_nat n) r1.

Definition skipVarOctetString (r : Reader) : option Reader :=
  let? (_, r') := readVarOctetString r in Some r'.

Definition readVarUIntBigNum (r : Reader) : option (Z * Reader) :=
  let? (bs, r') := readVarOctetString r in
  match bs with
  | [] => None
  | _ => Some (be_decode bs, r')
  end.

(** *** Writer *)

Definition writeUInt (v : Z) (width : nat) (w : Writer) : option Writer :=
  match width with
  | O => None
  | _ =>
    if (0 <=? v) && (v <? 256 ^ Z.of_nat width)
    then Some (w ++ be_encode width v)
    else None
  end.

Definition writeUInt8 (v : Z) (w : Writer) : option Writer := writeUInt v 1 w.
Definition writeUInt64 (v : Z) (w : Writer) : option Writer := writeUInt v 8 w.

Definition write (b : Buffer) (w : Writer) : Writer := w ++ b.

Definition writeOctetString (b : Buffer) (n : Z) (w : Writer) : option Writer :=
  if len b =? n then Some (write b w) else None.

Definition writeLengthPrefix (length : Z) (w : Writer) : option Writer :=
  if length <=? 127 then writeUInt8 length w
  else
    let lengthOfLength := byte_size length in
    let? w1 := writeUInt8 (Z.lor HIGH_BIT lengthOfLength) w in
    writeUInt length (Z.to_nat lengthOfLength) w1.

Definition writeVarOctetString (b : Buffer) (w : Writer) : option Writer :=
  let? w1 := writeLengthPrefix (len b) w in
  Some (write b w1).

Definition writeVarUInt (v : Z) (w : Writer) : option Writer :=
  if v <? 0 then None
  else
    let lengthOfValue := byte_size v in
    let? w1 := writeLengthPrefix lengthOfValue w in
    writeUInt v (Z.to_nat lengthOfValue) w1.

Definition getBuffer (w : Writer) : Buffer := w.

End Oer.

(** ** Exceptions with a message *)

Inductive exn : Type :=
| Error (message : string)   (* [throw new Error(message)] in the repository's code *)
| OerError.                  (* an exception raised inside oer-utils *)

Inductive result (A : Type) : Type :=
| Ok (a : A)
| Throw (e : exn).
Arguments Ok {A} a.
Arguments Throw {A} e.

Definition rbind {A B} (m : result A) (f : A -> result B) : result B :=
  match m with
  | Ok a => f a
  | Throw e => Throw e
  end.

Definition oer {A} (m : option A) : result A :=
  match m with
  | Some a => Ok a
  | None => Throw OerError
  end.

Notation "'let!' x ':=' m 'in' k" := (rbind m (fun x => k))
  (at level 10, x pattern, m at level 200, k at level 200,
   format "'[v' 'let!'  x  ':='  m  'in' '/' k ']'") : throw_scope.

(** ** Node's crypto module

    The block cipher and the hash are not modelled down to their rounds:
    AES-256-GCM is counter mode, so a ciphertext byte is the plaintext byte
    xor-ed with a key stream that depends on the key, the IV and the
    position, and the tag is a function of key, IV and ciphertext.  What the
    sources rely on is the length of the outputs. *)
Class NodeCrypto : Type := {
  (** [crypto.createHmac('sha256', key).update(message).digest()] *)
  hmac_sha256 : Buffer -> Buffer -> Buffer;
  (** key stream byte of AES-256 in counter mode for [key], [iv], position *)
  aes256_keystream : Buffer -> Buffer -> nat -> byte;
  (** GCM authentication tag for [key], [iv] and the whole ciphertext *)
  gcm_tag : Buffer -> Buffer -> Buffer -> Buffer;
  (** [crypto.randomBytes(n)], the bytes drawn by the call *)
  randomBytes : Z -> Buffer;
  hmac_sha256_length : forall key message, len (hmac_sha256 key message) = 32;
  gcm_tag_length : forall key iv c, len (gcm_tag key iv c) = 16;
  randomBytes_length : forall n, 0 <= n -> len (randomBytes n) = n
}.

Definition byte_xor (a b : byte) : byte :=
  byte_of_Z (Z.lxor (Z_of_byte a) (Z_of_byte b)).

Module NodeCipher.
Section WithCrypto.
Context {NC : NodeCrypto}.

Fixpoint xor_stream (key iv : Buffer) (pos : nat) (b : Buffer) : Buffer :=
  match b with
  | [] => []
  | x :: t => byte_xor x (aes256_keystream key iv pos) :: xor_stream key iv (S pos) t
  end.

(** State of a [crypto.Cipher] for 'aes-256-gcm': position in the key
    stream and the ciphertext produced so far. *)
Record Cipher : Type := mkCipher {
  c_key : Buffer; c_iv : Buffer; c_pos : nat; c_out : Buffer
}.

Definition createCipheriv (key iv : Buffer) : option Cipher :=
  if len key =? 32 then Some (mkCipher key iv 0 []) else None.

Definition update (c : Cipher) (b : Buffer) : Cipher * Buffer :=
  let out := xor_stream (c_key c) (c_iv c) (c_pos c) b in
  (mkCipher (c_key c) (c_iv c) (c_pos c + List.length b) (c_out c ++ out), out).

Definition final (c : Cipher) : Cipher * Buffer := (c, []).

Definition getAuthTag (c : Cipher) : Buffer :=
  gcm_tag (c_key c) (c_iv c) (c_out c).

(** State of a [crypto.Decipher]: the ciphertext consumed so far and the
    tag set with [setAuthTag]. *)
Record Decipher : Type := mkDecipher {
  d_key : Buffer; d_iv : Buffer; d_pos : nat; d_in : Buffer;
  d_tag : option Buffer
}.

Definition createDecipheriv (key iv : Buffer) : option Decipher :=
  if len key =? 32 then Some (mkDecipher key iv 0 [] None) else None.

Definition setAuthTag (d : Decipher) (tag : Buffer) : Decipher :=
  mkDecipher (d_key d) (d_iv d) (d_pos d) (d_in d) (Some tag).

Definition dupdate (d : Decipher) (b : Buffer) : Decipher * Buffer :=
  (mkDecipher (d_key d) (d_iv d) (d_pos d + List.length b) (d_in d ++ b) (d_tag d),
   xor_stream (d_key d) (d_iv d) (d_pos d) b).

(** [decipher.final()] throws unless the tag authenticates the ciphertext. *)
Definition dfinal (d : Decipher) : option Buffer :=
  match d_tag d with
  | Some tag =>
    if bytes_eqb tag (gcm_tag (d_key d) (d_iv d) (d_in d)) then Some [] else None
  | None => None
  end.

End WithCrypto.
End NodeCipher.

(** ** crypto.ts *)

Definition buffer_of_string (s : string) : Buffer := list_byte_of_string s.
Definition string_of_buffer (b : Buffer) : string := string_of_list_byte b.

Definition IV_LENGTH : Z := 12.
Definition AUTH_TAG_LENGTH : Z := 16.
Definition ENCRYPTION_OVERHEAD : Z := 28.
Definition TOKEN_LENGTH : Z := 18.
Definition ENCRYPTION_KEY_STRING : Buffer := buffer_of_string "ilp_stream_encryption".
Definition FULFILLMENT_GENERATION_STRING : Buffer := buffer_of_string "ilp_stream_fulfillment".
Definition SHARED_SECRET_GENERATION_STRING : Buffer := buffer_of_string "ilp_stream_shared_secret".

(** The version of crypto.ts whose functions take the PSK encryption key and
    return promises; a resolved promise is its value, a rejected one [None]. *)
Module CryptoAsync.
Section WithCrypto.
Context {NC : NodeCrypto}.
Import NodeCipher.

Definition hmac (key message : Buffer) : Buffer := hmac_sha256 key message.

Definition generateToken : Buffer := randomBytes TOKEN_LENGTH.

Definition generateSharedSecretFromToken (seed token : Buffer) : Buffer :=
  let keygen := hmac seed SHARED_SECRET_GENERATION_STRING in
  hmac keygen token.

Definition generatePskEncryptionKey (sharedSecret : Buffer) : Buffer :=
  hmac sharedSecret ENCRYPTION_KEY_STRING.

Definition generateFulfillmentKey (sharedSecret : Buffer) : Buffer :=
  hmac sharedSecret FULFILLMENT_GENERATION_STRING.

(** The loop [for (let buffer of buffers) ciphertext.push(cipher.update(buffer))]. *)
Fixpoint update_all (c : Cipher) (buffers : list Buffer) : Cipher * list Buffer :=
  match buffers with
  | [] => (c, [])
  | b :: bs =>
    let '(c1, out) := update c b in
    let '(c2, outs) := update_all c1 bs in
    (c2, out :: outs)
  end.

Definition encrypt (pskEncryptionKey : Buffer) (buffers : list Buffer) : option Buffer :=
  let iv := randomBytes IV_LENGTH in
  let? cipher := createCipheriv pskEncryptionKey iv in
  let '(cipher1, ciphertext) := update_all cipher buffers in
  let '(cipher2, last) := final cipher1 in
  let ciphertext := ciphertext ++ [last] in
  let tag := getAuthTag cipher2 in
  let ciphertext := iv :: tag :: ciphertext in
  Some (List.concat ciphertext).

Definition decrypt (pskEncryptionKey data : Buffer) : option Buffer :=
  if negb (len data >? 0) then None
  else
    let nonce := slice data 0 IV_LENGTH in
    let tag := slice data IV_LENGTH (IV_LENGTH + AUTH_TAG_LENGTH) in
    let encrypted := slice_from data (IV_LENGTH + AUTH_TAG_LENGTH) in
    let? decipher := createDecipheriv pskEncryptionKey nonce in
    let decipher := setAuthTag decipher tag in
    let '(decipher1, plain) := dupdate decipher encrypted in
    let? last := dfinal decipher1 in
    Some (List.concat [plain; last]).

End WithCrypto.
End CryptoAsync.

(** The synchronous version of crypto.ts that protocol.ts imports: the same
    cipher, keyed by the shared secret.  The three [Map] caches only memoise
    [hmac] and are left out. *)
Module Crypto.
Section WithCrypto.
Context {NC : NodeCrypto}.
Import NodeCipher.

Definition hmac (key message : Buffer) : Buffer := hmac_sha256 key message.

Definition generateToken : Buffer := randomBytes TOKEN_LENGTH.

Definition generateSharedSecretFromToken (seed token : Buffer) : Buffer :=
  let keygen := hmac seed SHARED_SECRET_GENERATION_STRING in
  hmac keygen token.

Definition getPskEncryptionKey (sharedSecret : Buffer) : Buffer :=
  hmac sharedSecret ENCRYPTION_KEY_STRING.

Definition encrypt (sharedSecret : Buffer) (buffers : list Buffer) : option Buffer :=
  let iv := randomBytes IV_LENGTH in
  let pskEncryptionKey := getPskEncryptionKey sharedSecret in
  let? cipher := createCipheriv pskEncryptionKey iv in
  let '(cipher1, ciphertext) := CryptoAsync.update_all cipher buffers in
  let '(cipher2, last) := final cipher1 in
  let ciphertext := ciphertext ++ [last] in
  let tag := getAuthTag cipher2 in
  let ciphertext := iv :: tag :: ciphertext in
  Some (List.concat ciphertext).

Definition decrypt (sharedSecret data : Buffer) : option Buffer :=
  if negb (len data >? 0) then None
  else
    let pskEncryptionKey := getPskEncryptionKey sharedSecret in
    let nonce := slice data 0 IV_LENGTH in
    let tag := slice data IV_LENGTH (IV_LENGTH + AUTH_TAG_LENGTH) in
    let encrypted := slice_from data (IV_LENGTH + AUTH_TAG_LENGTH) in
    let? decipher := createDecipheriv pskEncryptionKey nonce in
    let decipher := setAuthTag decipher tag in
    let '(decipher1, plain) := dupdate decipher encrypted in
    let? last := dfinal decipher1 in
    Some (List.concat [plain; last]).

(** Modelled from the spec: [generateReceiptHMAC] is imported by
    util/receipt.ts from crypto.ts but is in neither version of that file;
    the spec gives the last field of a receipt as
    HMAC-SHA256(receipt_secret, bytes[0..26]). *)
Definition generateReceiptHMAC (secret message : Buffer) : Buffer :=
  hmac secret message.

End WithCrypto.
End Crypto.

(** ** src/protocol.ts *)

Definition VERSION : Z := 1.
Definition ZERO_BYTES : Buffer := repeat x00 32.
Definition MAX_UINT64 : Z := 18446744073709551615.

(** [enum IlpPacketType]; at run time a packet type is a number, and the
    parser stores whatever byte it reads. *)
Module IlpPacketType.
Definition Prepare : Z := 12.
Definition Fulfill : Z := 13.
Definition Reject : Z := 14.
End IlpPacketType.

Inductive FrameType : Type :=
| Padding
| ConnectionClose
| ConnectionNewAddress
| ConnectionMaxData
| ConnectionDataBlocked
| ConnectionMaxStreamId
| ConnectionStreamIdBlocked
| StreamClose
| StreamMoney
| StreamMaxMoney
| StreamMoneyBlocked
| StreamData
| StreamMaxData
| StreamDataBlocked.

Definition FrameType_value (t : FrameType) : Z :=
  match t with
  | Padding => 0x00
  | ConnectionClose => 0x01
  | ConnectionNewAddress => 0x02
  | ConnectionMaxData => 0x03
  | ConnectionDataBlocked => 0x04
  | ConnectionMaxStreamId => 0x05
  | ConnectionStreamIdBlocked => 0x06
  | StreamClose => 0x10
  | StreamMoney => 0x11
  | StreamMaxMoney => 0x12
  | StreamMoneyBlocked => 0x13
  | StreamData => 0x14
  | StreamMaxData => 0x15
  | StreamDataBlocked => 0x16
  end.

(** The reverse mapping [FrameType[n]] of the numeric enum. *)
Definition FrameType_of_value (n : Z) : option FrameType :=
  match n with
  | 0x00 => Some Padding
  | 0x01 => Some ConnectionClose
  | 0x02 => Some ConnectionNewAddress
  | 0x03 => Some ConnectionMaxData
  | 0x04 => Some ConnectionDataBlocked
  | 0x05 => Some ConnectionMaxStreamId
  | 0x06 => Some ConnectionStreamIdBlocked
  | 0x10 => Some StreamClose
  | 0x11 => Some StreamMoney
  | 0x12 => Some StreamMaxMoney
  | 0x13 => Some StreamMoneyBlocked
  | 0x14 => Some StreamData
  | 0x15 => Some StreamMaxData
  | 0x16 => Some StreamDataBlocked
  | _ => None
  end.

Inductive ErrorCode : Type :=
| NoError
| InternalError
| ServerBusy
| FlowControlError
| StreamIdError
| StreamStateError
| FinalOffsetError
| FrameFormatError
| ProtocolViolation
| ApplicationError.

Definition ErrorCode_value (c : ErrorCode) : Z :=
  match c with
  | NoError => 0x01
  | InternalError => 0x02
  | ServerBusy => 0x03
  | FlowControlError => 0x04
  | StreamIdError => 0x05
  | StreamStateError => 0x06
  | FinalOffsetError => 0x07
  | FrameFormatError => 0x08
  | ProtocolViolation => 0x09
  | ApplicationError => 0x0a
  end.

(** [ErrorCode[n]]: the name of the code, [undefined] when there is none. *)
Definition ErrorCode_of_value (n : Z) : option ErrorCode :=
  match n with
  | 0x01 => Some NoError
  | 0x02 => Some InternalError
  | 0x03 => Some ServerBusy
  | 0x04 => Some FlowControlError
  | 0x05 => Some StreamIdError
  | 0x06 => Some StreamStateError
  | 0x07 => Some FinalOffsetError
  | 0x08 => Some FrameFormatError
  | 0x09 => Some ProtocolViolation
  | 0x0a => Some ApplicationError
  | _ => None
  end.

(** The union type [Frame]: one constructor per frame class, carrying the
    fields of the class.  An [errorCode] is the name of an [ErrorCode], or
    [None] for the [undefined] that parsing an unlisted code leaves there. *)
Inductive Frame : Type :=
| ConnectionCloseFrame (errorCode : option ErrorCode) (errorMessage : string)
| ConnectionNewAddressFrame (sourceAccount : string)
| ConnectionMaxDataFrame (maxOffset : Z)
| ConnectionDataBlockedFrame (maxOffset : Z)
| ConnectionMaxStreamIdFrame (maxStreamId : Z)
| ConnectionStreamIdBlockedFrame (maxStreamId : Z)
| StreamMoneyFrame (streamId shares : Z)
| StreamMaxMoneyFrame (streamId receiveMax totalReceived : Z)
| StreamMoneyBlockedFrame (streamId sendMax totalSent : Z)
| StreamCloseFrame (streamId : Z) (errorCode : option ErrorCode) (errorMessage : string)
| StreamDataFrame (streamId offset : Z) (data : Buffer)
| StreamMaxDataFrame (streamId maxOffset : Z)
| StreamDataBlockedFrame (streamId maxOffset : Z).

(** [frame.type], set by the constructor of [BaseFrame]. *)
Definition Frame_type (f : Frame) : FrameType :=
  match f with
  | ConnectionCloseFrame _ _ => ConnectionClose
  | ConnectionNewAddressFrame _ => ConnectionNewAddress
  | ConnectionMaxDataFrame _ => ConnectionMaxData
  | ConnectionDataBlockedFrame _ => ConnectionDataBlocked
  | ConnectionMaxStreamIdFrame _ => ConnectionMaxStreamId
  | ConnectionStreamIdBlockedFrame _ => ConnectionStreamIdBlocked
  | StreamMoneyFrame _ _ => StreamMoney
  | StreamMaxMoneyFrame _ _ _ => StreamMaxMoney
  | StreamMoneyBlockedFrame _ _ _ => StreamMoneyBlocked
  | StreamCloseFrame _ _ _ => StreamClose
  | StreamDataFrame _ _ _ => StreamData
  | StreamMaxDataFrame _ _ => StreamMaxData
  | StreamDataBlockedFrame _ _ => StreamDataBlocked
  end.

Module Frames.
Import Oer.

(** [assert(x.isInteger() && x.isPositive(), ...)] on a [BigNumber] that
    holds an integer: the sign must not be negative. *)
Definition assert_positive_integer (x : Z) : option unit :=
  if 0 <=? x then Some tt else None.

(** The constructors that check their arguments. *)
Definition new_StreamMoneyFrame (streamId shares : Z) : option Frame :=
  let? _ := assert_positive_integer shares in
  Some (StreamMoneyFrame streamId shares).

Definition new_StreamMaxMoneyFrame (streamId receiveMax totalReceived : Z) : option Frame :=
  let? _ := assert_positive_integer receiveMax in
  let? _ := assert_positive_integer totalReceived in
  Some (StreamMaxMoneyFrame streamId receiveMax totalReceived).

Definition new_StreamMoneyBlockedFrame (streamId sendMax totalSent : Z) : option Frame :=
  let? _ := assert_positive_integer sendMax in
  let? _ := assert_positive_integer totalSent in
  Some (StreamMoneyBlockedFrame streamId sendMax totalSent).

Definition assertType (reader : Reader) (frameType : FrameType) : option Reader :=
  let? (type, reader) := readUInt8BigNum reader in
  if type =? FrameType_value frameType then Some reader else None.

(** [contents.writeUInt8(ErrorCode[this.errorCode])] *)
Definition writeErrorCode (errorCode : option ErrorCode) (w : Writer) : option Writer :=
  match errorCode with
  | Some c => writeUInt8 (ErrorCode_value c) w
  | None => None
  end.

(** *** fromBuffer, class by class.  The reader over the contents is a
    fresh one; what it leaves unread is dropped. *)

Definition ConnectionNewAddressFrame_fromBuffer (reader : Reader) : option (Frame * Reader) :=
  let? reader := assertType reader ConnectionNewAddress in
  let? (contents, reader) := readVarOctetString reader in
  let? (sourceAccount, _) := readVarOctetString contents in
  Some (ConnectionNewAddressFrame (string_of_buffer sourceAccount), reader).

Definition ConnectionCloseFrame_fromBuffer (reader : Reader) : option (Frame * Reader) :=
  let? reader := assertType reader ConnectionClose in
  let? (contents, reader) := readVarOctetString reader in
  let? (code, contents) := readUInt8BigNum contents in
  let errorCode := ErrorCode_of_value code in
  let? (errorMessage, _) := readVarOctetString contents in
  Some (ConnectionCloseFrame errorCode (string_of_buffer errorMessage), reader).

Definition ConnectionMaxDataFrame_fromBuffer (reader : Reader) : option (Frame * Reader) :=
  let? reader := assertType reader ConnectionMaxData in
  let? (contents, reader) := readVarOctetString reader in
  let? (maxOffset, _) := readVarUIntBigNum contents in
  Some (ConnectionMaxDataFrame maxOffset, reader).

Definition ConnectionDataBlockedFrame_fromBuffer (reader : Reader) : option (Frame * Reader) :=
  let? reader := assertType reader ConnectionDataBlocked in
  let? (contents, reader) := readVarOctetString reader in
  let? (maxOffset, _) := readVarUIntBigNum contents in
  Some (ConnectionDataBlockedFrame maxOffset, reader).

Definition ConnectionMaxStreamIdFrame_fromBuffer (reader : Reader) : option (Frame * Reader) :=
  let? reader := assertType reader ConnectionMaxStreamId in
  let? (contents, reader) := readVarOctetString reader in
  let? (maxStreamId, _) := readVarUIntBigNum contents in
  Some (ConnectionMaxStreamIdFrame maxStreamId, reader).

Definition ConnectionStreamIdBlockedFrame_fromBuffer (reader : Reader) : option (Frame * Reader) :=
  let? reader := assertType reader ConnectionStreamIdBlocked in
  let? (contents, reader) := readVarOctetString reader in
  let? (maxStreamId, _) := readVarUIntBigNum contents in
  Some (ConnectionStreamIdBlockedFrame maxStreamId, reader).

Definition StreamMoneyFrame_fromBuffer (reader : Reader) : option (Frame * Reader) :=
  let? reader := assertType reader StreamMoney in
  let? (contents, reader) := readVarOctetString reader in
  let? (streamId, contents) := readVarUIntBigNum contents in
  let? (amount, _) := readVarUIntBigNum contents in
  let? frame := new_StreamMoneyFrame streamId amount in
  Some (frame, reader).

Definition StreamMaxMoneyFrame_fromBuffer (reader : Reader) : option (Frame * Reader) :=
  let? reader := assertType reader StreamMaxMoney in
  let? (contents, reader) := readVarOctetString reader in
  let? (streamId, contents) := readVarUIntBigNum contents in
  let? (receiveMax, contents) := readVarUIntBigNum contents in
  let? (totalReceived, _) := readVarUIntBigNum contents in
  let? frame := new_StreamMaxMoneyFrame streamId receiveMax totalReceived in
  Some (frame, reader).

Definition StreamMoneyBlockedFrame_fromBuffer (reader : Reader) : option (Frame * Reader) :=
  let? reader := assertType reader StreamMoneyBlocked in
  let? (contents, reader) := readVarOctetString reader in
  let? (streamId, contents) := readVarUIntBigNum contents in
  let? (sendMax, contents) := readVarUIntBigNum contents in
  let? (totalSent, _) := readVarUIntBigNum contents in
  let? frame := new_StreamMoneyBlockedFrame streamId sendMax totalSent in
  Some (frame, reader).

Definition StreamCloseFrame_fromBuffer (reader : Reader) : option (Frame * Reader) :=
  let? reader := assertType reader StreamClose in
  let? (contents, reader) := readVarOctetString reader in
  let? (streamId, contents) := readVarUIntBigNum contents in
  let? (code, contents) := readUInt8BigNum contents in
  let errorCode := ErrorCode_of_value code in
  let? (errorMessage, _) := readVarOctetString contents in
  Some (StreamCloseFrame streamId errorCode (string_of_buffer errorMessage), reader).

Definition StreamDataFrame_fromBuffer (reader : Reader) : option (Frame * Reader) :=
  let? reader := assertType reader StreamData in
  let? (contents, reader) := readVarOctetString reader in
  let? (streamId, contents) := readVarUIntBigNum contents in
  let? (offset, contents) := readVarUIntBigNum contents in
  let? (data, _) := readVarOctetString contents in
  Some (StreamDataFrame streamId offset data, reader).

Definition StreamMaxDataFrame_fromBuffer (reader : Reader) : option (Frame * Reader) :=
  let? reader := assertType reader StreamMaxData in
  let? (contents, reader) := readVarOctetString reader in
  let? (streamId, contents) := readVarUIntBigNum contents in
  let? (maxOffset, _) := readVarUIntBigNum contents in
  Some (StreamMaxDataFrame streamId maxOffset, reader).

Definition StreamDataBlockedFrame_fromBuffer (reader : Reader) : option (Frame * Reader) :=
  let? reader := assertType reader StreamDataBlocked in
  let? (contents, reader) := readVarOctetString reader in
  let? (streamId, contents) := readVarUIntBigNum contents in
  let? (maxOffset, _) := readVarUIntBigNum contents in
  Some (StreamDataBlockedFrame streamId maxOffset, reader).

(** *** writeTo: the type byte, then the contents written with a writer of
    their own and appended as a variable-length octet string. *)
Definition writeContents (f : Frame) : option Writer :=
  let contents : Writer := [] in
  match f with
  | ConnectionNewAddressFrame sourceAccount =>
    writeVarOctetString (buffer_of_string sourceAccount) contents
  | ConnectionCloseFrame errorCode errorMessage =>
    let? contents := writeErrorCode errorCode contents in
    writeVarOctetString (buffer_of_string errorMessage) contents
  | ConnectionMaxDataFrame maxOffset => writeVarUInt maxOffset contents
  | ConnectionDataBlockedFrame maxOffset => writeVarUInt maxOffset contents
  | ConnectionMaxStreamIdFrame maxStreamId => writeVarUInt maxStreamId contents
  | ConnectionStreamIdBlockedFrame maxStreamId => writeVarUInt maxStreamId contents
  | StreamMoneyFrame streamId shares =>
    let? contents := writeVarUInt streamId contents in
    writeVarUInt shares contents
  | StreamMaxMoneyFrame streamId receiveMax totalReceived =>
    let? contents := writeVarUInt streamId contents in
    let? contents := writeVarUInt receiveMax contents in
    writeVarUInt totalReceived contents
  | StreamMoneyBlockedFrame streamId sendMax totalSent =>
    let? contents := writeVarUInt streamId contents in
    let? contents := writeVarUInt sendMax contents in
    writeVarUInt totalSent contents
  | StreamCloseFrame streamId errorCode errorMessage =>
    let? contents := writeVarUInt streamId contents in
    let? contents := writeErrorCode errorCode contents in
    writeVarOctetString (buffer_of_string errorMessage) contents
  | StreamDataFrame streamId offset data =>
    let? contents := writeVarUInt streamId contents in
    let? contents := writeVarUInt offset contents in
    writeVarOctetString data contents
  | StreamMaxDataFrame streamId maxOffset =>
    let? contents := writeVarUInt streamId contents in
    writeVarUInt maxOffset contents
  | StreamDataBlockedFrame streamId maxOffset =>
    let? contents := writeVarUInt streamId contents in
    writeVarUInt maxOffset contents
  end.

Definition writeTo (f : Frame) (writer : Writer) : option Writer :=
  let? writer := writeUInt8 (FrameType_value (Frame_type f)) writer in
  let? contents := writeContents f in
  writeVarOctetString (getBuffer contents) writer.

Definition parseFrame (reader : Reader) : option (option Frame * Reader) :=
  let? type := peekUInt8BigNum reader in
  let typed (r : option (Frame * Reader)) : option (option Frame * Reader) :=
    let? (frame, reader) := r in Some (Some frame, reader) in
  match FrameType_of_value type with
  | Some ConnectionClose => typed (ConnectionCloseFrame_fromBuffer reader)
  | Some ConnectionNewAddress => typed (ConnectionNewAddressFrame_fromBuffer reader)
  | Some ConnectionMaxData => typed (ConnectionMaxDataFrame_fromBuffer reader)
  | Some ConnectionDataBlocked => typed (ConnectionDataBlockedFrame_fromBuffer reader)
  | Some ConnectionMaxStreamId => typed (ConnectionMaxStreamIdFrame_fromBuffer reader)
  | Some ConnectionStreamIdBlocked => typed (ConnectionStreamIdBlockedFrame_fromBuffer reader)
  | Some StreamClose => typed (StreamCloseFrame_fromBuffer reader)
  | Some StreamMoney => typed (StreamMoneyFrame_fromBuffer reader)
  | Some StreamMaxMoney => typed (StreamMaxMoneyFrame_fromBuffer reader)
  | Some StreamMoneyBlocked => typed (StreamMoneyBlockedFrame_fromBuffer reader)
  | Some StreamData => typed (StreamDataFrame_fromBuffer reader)
  | Some StreamMaxData => typed (StreamMaxDataFrame_fromBuffer reader)
  | Some StreamDataBlocked => typed (StreamDataBlockedFrame_fromBuffer reader)
  | Some Padding | None =>
    let? reader := skipUInt8 reader in
    let? reader := skipVarOctetString reader in
    Some (None, reader)
  end.

End Frames.

Module Packet.
Import Oer.

Record t : Type := mk {
  sequence : Z;
  ilpPacketType : Z;
  prepareAmount : Z;
  frames : list Frame
}.

(** The loop [for (let i = 0; i < numFrames; i++)] of the parser. *)
Fixpoint parseFrames (numFrames : nat) (reader : Reader) (frames : list Frame)
  : option (list Frame * Reader) :=
  match numFrames with
  | O => Some (frames, reader)
  | S n =>
    let? (frame, reader) := Frames.parseFrame reader in
    let frames := match frame with
                  | Some f => frames ++ [f]
                  | None => frames
                  end in
    parseFrames n reader frames
  end.

Definition _deserializeUnencrypted (buffer : Buffer) : option t :=
  let reader : Reader := buffer in
  let? (version, reader) := readUInt8BigNum reader in
  if negb (version =? VERSION) then None
  else
    let? (ilpPacketType, reader) := readUInt8BigNum reader in
    let? (sequence, reader) := readVarUIntBigNum reader in
    let? (packetAmount, reader) := readVarUIntBigNum reader in
    let? (numFrames, reader) := readVarUIntBigNum reader in
    let? (frames, _) := parseFrames (Z.to_nat numFrames) reader [] in
    Some (mk sequence ilpPacketType packetAmount frames).

(** The loop [for (let frame of this.frames) frame.writeTo(writer)]. *)
Fixpoint writeFrames (frames : list Frame) (writer : Writer) : option Writer :=
  match frames with
  | [] => Some writer
  | frame :: rest =>
    let? writer := Frames.writeTo frame writer in
    writeFrames rest writer
  end.

Definition writeTo (p : t) (writer : Writer) : option Writer :=
  let? writer := writeUInt8 VERSION writer in
  let? writer := writeUInt8 (ilpPacketType p) writer in
  let? writer := writeVarUInt (sequence p) writer in
  let? writer := writeVarUInt (prepareAmount p) writer in
  let? writer := writeVarUInt (Z.of_nat (List.length (frames p))) writer in
  writeFrames (frames p) writer.

Definition _serialize (p : t) : option Buffer :=
  let writer : Writer := [] in
  let? writer := writeTo p writer in
  Some (getBuffer writer).

Section WithCrypto.
Context {NC : NodeCrypto}.

Definition decryptAndDeserialize (sharedSecret buffer : Buffer) : option t :=
  let? decrypted := Crypto.decrypt sharedSecret buffer in
  _deserializeUnencrypted decrypted.

(** [padPacketToSize] is optional; the padding is whole [ZERO_BYTES]
    blocks followed by [ZERO_BYTES.slice(0, paddingSize % 32)], where [%]
    is the remainder of JavaScript, of the sign of the dividend. *)
Definition serializeAndEncrypt (p : t) (sharedSecret : Buffer)
           (padPacketToSize : option Z) : option Buffer :=
  let? serialized := _serialize p in
  match padPacketToSize with
  | Some padPacketToSize =>
    let paddingSize := padPacketToSize - ENCRYPTION_OVERHEAD - len serialized in
    let args := [serialized] in
    let args := args ++ repeat ZERO_BYTES (Z.to_nat (paddingSize / 32)) in
    let args := args ++ [slice ZERO_BYTES 0 (Z.rem paddingSize 32)] in
    Crypto.encrypt sharedSecret args
  | None => Crypto.encrypt sharedSecret [serialized]
  end.

End WithCrypto.

End Packet.

(** ** src/util/receipt.ts *)

Module Receipt.
Import Oer.

Definition RECEIPT_VERSION : Z := 1.

(** [streamId] and [totalReceived] are [LongValue]s; the integer that the
    value denotes is what the writer sees. *)
Record ReceiptOpts : Type := mkOpts {
  opts_nonce : Buffer;
  opts_streamId : Z;
  opts_totalReceived : Z;
  opts_secret : Buffer
}.

(** [streamId] is the decimal string that [readUInt8] returns and
    [totalReceived] an unsigned [Long]; both are kept as the integer. *)
Record Receipt : Type := mkReceipt {
  version : Z;
  nonce : Buffer;
  streamId : Z;
  totalReceived : Z
}.

(** Modelled from the spec: [longFromValue] comes from util/long.ts, which
    is not among the sources; the spec makes [totalReceived] an unsigned
    64-bit integer, so the conversion to an unsigned [Long] throws outside
    of that range. *)
Definition longFromValue (value : Z) (unsigned : bool) : result Z :=
  if unsigned
  then if (0 <=? value) && (value <? 2 ^ 64) then Ok value
       else Throw (Error "Expected unsigned 64-bit integer")
  else if (- 2 ^ 63 <=? value) && (value <? 2 ^ 63) then Ok value
       else Throw (Error "Expected signed 64-bit integer").

Section WithCrypto.
Context {NC : NodeCrypto}.

Definition createReceipt (opts : ReceiptOpts) : result Buffer :=
  if negb (len (opts_nonce opts) =? 16)
  then Throw (Error "receipt nonce must be 16 bytes")
  else if negb (len (opts_secret opts) =? 32)
  then Throw (Error "receipt secret must be 32 bytes")
  else
    let receipt : Writer := [] in
    let! receipt := oer (writeUInt8 RECEIPT_VERSION receipt) in
    let! receipt := oer (writeOctetString (opts_nonce opts) 16 receipt) in
    let! receipt := oer (writeUInt8 (opts_streamId opts) receipt) in
    let! total := longFromValue (opts_totalReceived opts) true in
    let! receipt := oer (writeUInt64 total receipt) in
    let! receipt :=
      oer (writeOctetString
             (Crypto.generateReceiptHMAC (opts_secret opts) (getBuffer receipt))
             32 receipt) in
    Ok (getBuffer receipt).

Definition decodeReceipt (receipt : Buffer) : result Receipt :=
  if negb (len receipt =? 58)
  then Throw (Error "receipt must be 58 bytes")
  else
    let reader : Reader := receipt in
    let! (version, reader) := oer (readUInt8Number reader) in
    let! (nonce, reader) := oer (readOctetString 16 reader) in
    let! (streamId, reader) := oer (readUInt8 reader) in
    let! (totalReceived, reader) := oer (readUInt64Long reader) in
    Ok (mkReceipt version nonce streamId totalReceived).

Definition verifyReceipt (receipt secret : Buffer) : bool :=
  if negb (len receipt =? 58) then false
  else
    match readUInt8Number receipt with
    | None => false
    | Some (version, _) =>
      if negb (version =? RECEIPT_VERSION) then false
      else
        let message := slice receipt 0 26 in
        let receiptHmac := slice_from receipt 26 in
        bytes_eqb receiptHmac (Crypto.generateReceiptHMAC secret message)
    end.

End WithCrypto.
End Receipt.

(** ** The offset sorter ([OffsetDataEntry] and [OffsetSorter])

    An offset is a JavaScript number that holds an integer, here a [Z].  The
    sums [offset + data.length] of [push] and [read] are sums of integers
    here; the code computes them on doubles, which is the same as long as
    the offset and the sum are safe integers (at most 2^53 - 1 in absolute
    value) and rounds beyond that.  [safely_reachable] below names the runs
    on which the two agree. *)

Module OffsetSorter.

(** An entry of the linked list; [next] is the tail of the Rocq list. *)
Record OffsetDataEntry : Type := mkEntry {
  data : Buffer;
  offset : Z
}.

Record t : Type := mk {
  head : list OffsetDataEntry;
  readOffset : Z;
  endOffset : Z;
  maxOffset : Z
}.

(** The constructor. *)
Definition new : t := mk [] 0 (-1) 0.

Definition setEndOffset (offset : Z) (s : t) : t :=
  mk (head s) (readOffset s) offset (maxOffset s).

Definition isEnd (s : t) : bool := readOffset s =? endOffset s.

(** The [while (true)] loop of [push]: [next] is [prev.next], the result
    is what [prev.next] is when the loop breaks. *)
Fixpoint push_loop (entry : OffsetDataEntry) (next : list OffsetDataEntry)
  : list OffsetDataEntry :=
  match next with
  | [] => [entry]
  | n :: rest =>
    if offset n >? offset entry then entry :: n :: rest
    else n :: push_loop entry rest
  end.

Definition push (data : Buffer) (offset_ : Z) (s : t) : t :=
  let entry := mkEntry data offset_ in
  let maxOffset := Z.max (offset_ + len data) (maxOffset s) in
  let head :=
    match head s with
    | [] => [entry]
    | h :: next =>
      if offset h >? offset_ then entry :: h :: next
      else h :: push_loop entry next
    end in
  mk head (readOffset s) (endOffset s) maxOffset.

Definition read (s : t) : option Buffer * t :=
  match head s with
  | h :: next =>
    if readOffset s =? offset h
    then (Some (data h),
          mk next (offset h + len (data h)) (endOffset s) (maxOffset s))
    else (None, s)
  | [] => (None, s)
  end.

Fixpoint byteLength_loop (entry : list OffsetDataEntry) (length : Z) : Z :=
  match entry with
  | [] => length
  | e :: next => byteLength_loop next (length + len (data e))
  end.

Definition byteLength (s : t) : Z := byteLength_loop (head s) 0.

(** A run of calls: all the pushes of a list, and the values returned by
    [n] successive calls of [read]. *)
Definition push_all (chunks : list (Z * Buffer)) (s : t) : t :=
  fold_left (fun s c => push (snd c) (fst c) s) chunks s.

Fixpoint read_n (n : nat) (s : t) : list (option Buffer) * t :=
  match n with
  | O => ([], s)
  | S n' =>
    let '(v, s1) := read s in
    let '(vs, s2) := read_n n' s1 in
    (v :: vs, s2)
  end.

End OffsetSorter.

(** ** The server's address generator ([Server.generateAddressAndSecret]) *)

Module Server.
Section WithCrypto.
Context {NC : NodeCrypto}.

(** [/^[a-zA-Z0-9~_-]+$/] *)
Definition connection_id_char (c : ascii) : bool :=
  let n := nat_of_ascii c in
  ((97 <=? n) && (n <=? 122) || (65 <=? n) && (n <=? 90)
   || (48 <=? n) && (n <=? 57)
   || (n =? 126) || (n =? 95) || (n =? 45))%nat.

Definition CONNECTION_ID_REGEX_test (s : string) : bool :=
  match s with
  | EmptyString => false
  | _ => forallb connection_id_char (list_ascii_of_string s)
  end.

(** [buffer.toString('base64')] *)
Definition base64_alphabet : string :=
  "ABCDEFGHIJKLMNOPQRSTUVWXYZabcdefghijklmnopqrstuvwxyz0123456789+/".

Definition base64_digit (i : Z) : ascii :=
  match String.get (Z.to_nat i) base64_alphabet with
  | Some c => c
  | None => "="%char
  end.

Fixpoint toString_base64 (b : Buffer) : string :=
  match b with
  | [] => EmptyString
  | [b0] =>
    let n := Z_of_byte b0 * 65536 in
    String (base64_digit (Z.shiftr n 18))
      (String (base64_digit (Z.land (Z.shiftr n 12) 63)) "==")
  | [b0; b1] =>
    let n := Z_of_byte b0 * 65536 + Z_of_byte b1 * 256 in
    String (base64_digit (Z.shiftr n 18))
      (String (base64_digit (Z.land (Z.shiftr n 12) 63))
         (String (base64_digit (Z.land (Z.shiftr n 6) 63)) "="))
  | b0 :: b1 :: b2 :: rest =>
    let n := Z_of_byte b0 * 65536 + Z_of_byte b1 * 256 + Z_of_byte b2 in
    String (base64_digit (Z.shiftr n 18))
      (String (base64_digit (Z.land (Z.shiftr n 12) 63))
         (String (base64_digit (Z.land (Z.shiftr n 6) 63))
            (String (base64_digit (Z.land n 63)) (toString_base64 rest))))
  end.

(** [s.replace(/=+$/, '')] *)
Fixpoint strip_trailing_equals (s : string) : string :=
  match s with
  | EmptyString => EmptyString
  | String c rest =>
    match strip_trailing_equals rest with
    | EmptyString => if Ascii.eqb c "=" then EmptyString else String c EmptyString
    | rest' => String c rest'
    end
  end.

(** [s.replace(/x/g, 'y')] for single characters *)
Fixpoint replace_all (x y : ascii) (s : string) : string :=
  match s with
  | EmptyString => EmptyString
  | String c rest => String (if Ascii.eqb c x then y else c) (replace_all x y rest)
  end.

Definition base64url (buffer : Buffer) : string :=
  replace_all "/" "_" (replace_all "+" "-" (strip_trailing_equals (toString_base64 buffer))).

(** The message [connectionTag can only include ASCII characters a-z, A-Z,
    0-9, "_", "-", and "~"], with its double quotes spelled as characters. *)
Definition quoted (s : string) : string :=
  String "034"%char (s ++ String "034"%char EmptyString).

Definition invalid_tag_message : string :=
  ("connectionTag can only include ASCII characters a-z, A-Z, 0-9, "
   ++ quoted "_" ++ ", " ++ quoted "-" ++ ", and " ++ quoted "~")%string.

(** The fields of [Server] that [generateAddressAndSecret] reads. *)
Record t : Type := mk {
  serverSecret : Buffer;
  serverAccount : string;
  connected : bool
}.

Record AddressAndSecret : Type := mkAddressAndSecret {
  destinationAccount : string;
  sharedSecret : Buffer
}.

(** [connectionTag] is optional; [if (connectionTag)] also takes the
    empty string for absent. *)
Definition generateAddressAndSecret (this : t) (connectionTag : option string)
  : result AddressAndSecret :=
  if negb (connected this)
  then Throw (Error "Server must be connected to generate address and secret")
  else
    let token := base64url CryptoAsync.generateToken in
    let! token :=
      match connectionTag with
      | Some (String _ _ as connectionTag) =>
        if negb (CONNECTION_ID_REGEX_test connectionTag)
        then Throw (Error invalid_tag_message)
        else Ok (token ++ "~" ++ connectionTag)%string
      | _ => Ok token
      end in
    let sharedSecret :=
      CryptoAsync.generateSharedSecretFromToken (serverSecret this) (buffer_of_string token) in
    Ok (mkAddressAndSecret (serverAccount this ++ "." ++ token)%string sharedSecret).

End WithCrypto.
End Server.

(** ** The size predictor of oer-utils, and byteLength

    A [Predictor] has the methods of a [Writer] and only adds up the number
    of bytes that the writer would write.  The checks that the writer makes
    on the values are left out of the model of the predictor; what is proved
    of it is about values that the writer accepts. *)
Module Predictor.

Definition t := Z.

Definition new : t := 0.

Definition measureVarOctetString (length : Z) : Z :=
  if length <=? 127 then 1 + length
  else 1 + byte_size length + length.

Definition writeUInt8 (v : Z) (size : t) : t := size + 1.

Definition writeVarOctetString (b : Buffer) (size : t) : t :=
  size + measureVarOctetString (len b).

Definition writeVarUInt (v : Z) (size : t) : t :=
  size + measureVarOctetString (byte_size v).

Definition getSize (size : t) : Z := size.

End Predictor.

(** [writeTo] of protocol.ts takes a writer or a predictor.  The contents of
    a frame are written with a [Writer] of their own in both cases, so a
    frame can make [writeTo] throw on a predictor too. *)
Module ByteLength.

Definition Frame_writeTo (f : Frame) (writer : Predictor.t) : option Predictor.t :=
  let writer := Predictor.writeUInt8 (FrameType_value (Frame_type f)) writer in
  let? contents := Frames.writeContents f in
  Some (Predictor.writeVarOctetString (Oer.getBuffer contents) writer).

(** [BaseFrame.byteLength] *)
Definition Frame_byteLength (f : Frame) : option Z :=
  let predictor := Predictor.new in
  let? predictor := Frame_writeTo f predictor in
  Some (Predictor.getSize predictor).

Fixpoint Packet_writeFrames (frames : list Frame) (writer : Predictor.t)
  : option Predictor.t :=
  match frames with
  | [] => Some writer
  | frame :: rest =>
    let? writer := Frame_writeTo frame writer in
    Packet_writeFrames rest writer
  end.

Definition Packet_writeTo (p : Packet.t) (writer : Predictor.t) : option Predictor.t :=
  let writer := Predictor.writeUInt8 VERSION writer in
  let writer := Predictor.writeUInt8 (Packet.ilpPacketType p) writer in
  let writer := Predictor.writeVarUInt (Packet.sequence p) writer in
  let writer := Predictor.writeVarUInt (Packet.prepareAmount p) writer in
  let writer := Predictor.writeVarUInt (Z.of_nat (List.length (Packet.frames p))) writer in
  Packet_writeFrames (Packet.frames p) writer.

(** [Packet.byteLength] *)
Definition Packet_byteLength (p : Packet.t) : option Z :=
  let predictor := Predictor.new in
  let? predictor := Packet_writeTo p predictor in
  Some (Predictor.getSize predictor + ENCRYPTION_OVERHEAD).

End ByteLength.

(** ** The caches of the synchronous crypto.ts

    [sharedSecretMap], [fulfillmentKeyMap] and [pskKeyMap] are [Map]s whose
    keys are [Buffer] objects: a key is found again when the same object is
    passed, whatever it holds by then.  A buffer object is its reference and
    its contents at the time of the call. *)
Module CryptoCache.
Section WithCrypto.
Context {NC : NodeCrypto}.

Record BufferObject : Type := mkObject {
  ref : nat;
  contents : Buffer
}.

(** A [Map] from buffer objects to buffers, newest entry first. *)
Definition Map := list (nat * Buffer).

Fixpoint Map_get (m : Map) (key : BufferObject) : option Buffer :=
  match m with
  | [] => None
  | (r, v) :: rest => if (r =? ref key)%nat then Some v else Map_get rest key
  end.

Definition Map_set (m : Map) (key : BufferObject) (value : Buffer) : Map :=
  (ref key, value) :: m.

Record caches : Type := mkCaches {
  sharedSecretMap : Map;
  fulfillmentKeyMap : Map;
  pskKeyMap : Map
}.

Definition empty : caches := mkCaches [] [] [].

Definition generateSharedSecretFromToken (st : caches) (seed : Buffer)
           (token : BufferObject) : Buffer * caches :=
  match Map_get (sharedSecretMap st) token with
  | Some sharedSecret => (sharedSecret, st)
  | None =>
    let keygen := Crypto.hmac seed SHARED_SECRET_GENERATION_STRING in
    let sharedSecret := Crypto.hmac keygen (contents token) in
    (sharedSecret,
     mkCaches (Map_set (sharedSecretMap st) token sharedSecret)
              (fulfillmentKeyMap st) (pskKeyMap st))
  end.

Definition generateFulfillment (st : caches) (sharedSecret : BufferObject)
           (data : Buffer) : Buffer * caches :=
  match Map_get (fulfillmentKeyMap st) sharedSecret with
  | Some fulfillmentKey => (Crypto.hmac fulfillmentKey data, st)
  | None =>
    let fulfillmentKey :=
        Crypto.hmac (contents sharedSecret) FULFILLMENT_GENERATION_STRING in
    (Crypto.hmac fulfillmentKey data,
     mkCaches (sharedSecretMap st)
              (Map_set (fulfillmentKeyMap st) sharedSecret fulfillmentKey)
              (pskKeyMap st))
  end.

Definition getPskEncryptionKey (st : caches) (sharedSecret : BufferObject)
  : Buffer * caches :=
  match Map_get (pskKeyMap st) sharedSecret with
  | Some key => (key, st)
  | None =>
    let key := Crypto.hmac (contents sharedSecret) ENCRYPTION_KEY_STRING in
    (key,
     mkCaches (sharedSecretMap st) (fulfillmentKeyMap st)
              (Map_set (pskKeyMap st) sharedSecret key))
  end.

(** [encrypt] and [decrypt] of the synchronous crypto.ts, with the key
    taken from [pskKeyMap]. *)
Definition encrypt (st : caches) (sharedSecret : BufferObject) (buffers : list Buffer)
  : option Buffer * caches :=
  let iv := randomBytes IV_LENGTH in
  let '(pskEncryptionKey, st) := getPskEncryptionKey st sharedSecret in
  (let? cipher := NodeCipher.createCipheriv pskEncryptionKey iv in
   let '(cipher1, ciphertext) := CryptoAsync.update_all cipher buffers in
   let '(cipher2, last) := NodeCipher.final cipher1 in
   let ciphertext := ciphertext ++ [last] in
   let tag := NodeCipher.getAuthTag cipher2 in
   let ciphertext := iv :: tag :: ciphertext in
   Some (List.concat ciphertext),
   st).

Definition decrypt (st : caches) (sharedSecret : BufferObject) (data : Buffer)
  : option Buffer * caches :=
  if negb (len data >? 0) then (None, st)
  else
    let '(pskEncryptionKey, st) := getPskEncryptionKey st sharedSecret in
    (let nonce := slice data 0 IV_LENGTH in
     let tag := slice data IV_LENGTH (IV_LENGTH + AUTH_TAG_LENGTH) in
     let encrypted := slice_from data (IV_LENGTH + AUTH_TAG_LENGTH) in
     let? decipher := NodeCipher.createDecipheriv pskEncryptionKey nonce in
     let decipher := NodeCipher.setAuthTag decipher tag in
     let '(decipher1, plain) := NodeCipher.dupdate decipher encrypted in
     let? last := NodeCipher.dfinal decipher1 in
     Some (List.concat [plain; last]),
     st).

End WithCrypto.
End CryptoCache.

(** ** The server's routing of a prepare ([Server.handleData])

    The part of [handleData] between the parsing of the prepare and the
    lookup of the connection: the connection id is the first segment of the
    destination once the first occurrence of the server's account and a dot
    is removed.  [None] is the [UnreachableError] with the empty message. *)
Module Routing.

(** [s] without the prefix [pat], when it has it. *)
Fixpoint strip_prefix (pat s : string) : option string :=
  match pat with
  | EmptyString => Some s
  | String a pat' =>
    match s with
    | EmptyString => None
    | String b s' => if Ascii.eqb a b then strip_prefix pat' s' else None
    end
  end.

(** [s.replace(pat, '')] for a string [pat]: the first occurrence goes. *)
Fixpoint replace_first (pat s : string) : string :=
  match strip_prefix pat s with
  | Some rest => rest
  | None =>
    match s with
    | EmptyString => EmptyString
    | String c s' => String c (replace_first pat s')
    end
  end.

(** [s.split(sep)] for a one-character separator. *)
Fixpoint split (sep : ascii) (s : string) : list string :=
  match s with
  | EmptyString => [EmptyString]
  | String c s' =>
    if Ascii.eqb c sep then EmptyString :: split sep s'
    else match split sep s' with
         | part :: parts => String c part :: parts
         | [] => [String c EmptyString]
         end
  end.

Definition localAddressParts (this : Server.t) (destination : string) : list string :=
  split "." (replace_first (Server.serverAccount this ++ ".") destination).

Definition connectionId (this : Server.t) (destination : string) : option string :=
  match localAddressParts this destination with
  | [] => None
  | EmptyString :: _ => None
  | connectionId :: _ => Some connectionId
  end.

End Routing.

(** ** src/ildcp.ts: the response of IL-DCP

    [IlpPacket.deserializeIlpFulfill] belongs to ilp-packet; its result, the
    fulfillment and the data of the fulfill, is the argument here. *)
Module Ildcp.
Import Oer.

Definition PEER_PROTOCOL_FULFILLMENT : Buffer := repeat x00 32.

Record IldcpResponse : Type := mkResponse {
  clientAddress : string;
  assetScale : Z;
  assetCode : string
}.

(** [buf.toString('ascii')]: the highest bit of every byte is unset. *)
Definition toString_ascii (b : Buffer) : string :=
  string_of_buffer (map (fun x => byte_of_Z (Z.land (Z_of_byte x) 127)) b).

Definition deserializeIldcpResponse (fulfillment data : Buffer) : result IldcpResponse :=
  if negb (bytes_eqb PEER_PROTOCOL_FULFILLMENT fulfillment)
  then Throw (Error "IL-DCP response does not contain the expected fulfillment.")
  else
    let reader : Reader := data in
    let! (clientAddress, reader) := oer (readVarOctetString reader) in
    let clientAddress := toString_ascii clientAddress in
    let! (assetScale, reader) := oer (readUInt8Number reader) in
    let! (assetCode, reader) := oer (readVarOctetString reader) in
    let assetCode := string_of_buffer assetCode in
    Ok (mkResponse clientAddress assetScale assetCode).

End Ildcp.

(** ** Vocabulary of the statements

    [writes n wr rd a]: the writer method [wr] always succeeds and appends
    the same at most [n] bytes to whatever was written before, and the
    reader method [rd] reads [a] back from these bytes and stops right after
    them. *)

Definition writes {A : Type} (n : Z) (wr : Oer.Writer -> option Oer.Writer)
           (rd : Oer.Reader -> option (A * Oer.Reader)) (a : A) : Prop :=
  exists bs : Buffer,
    len bs <= n /\
    (forall w, wr w = Some (w ++ bs)) /\
    (forall rest, rd (bs ++ rest) = Some (a, rest)).

(** Lengths and integers of more than 127 bytes have no length prefix. *)
Definition OER_LIMIT : Z := 256 ^ 127.

(** No [Buffer] or string is longer than [Number.MAX_SAFE_INTEGER] bytes. *)
Definition MAX_LENGTH : Z := 2 ^ 53 - 1.

Definition uint64 (v : Z) : Prop := 0 <= v <= MAX_UINT64.
Definition uint8 (v : Z) : Prop := 0 <= v <= 255.
Definition buffer_ok (b : Buffer) : Prop := len b <= MAX_LENGTH.

(** A frame as its constructor makes it: unsigned 64-bit integer fields, a
    named error code, texts and data of a length a [Buffer] can have. *)
Definition Frame_valid (f : Frame) : Prop :=
  match f with
  | ConnectionCloseFrame errorCode errorMessage =>
    errorCode <> None /\ buffer_ok (buffer_of_string errorMessage)
  | ConnectionNewAddressFrame sourceAccount =>
    buffer_ok (buffer_of_string sourceAccount)
  | ConnectionMaxDataFrame maxOffset => uint64 maxOffset
  | ConnectionDataBlockedFrame maxOffset => uint64 maxOffset
  | ConnectionMaxStreamIdFrame maxStreamId => uint64 maxStreamId
  | ConnectionStreamIdBlockedFrame maxStreamId => uint64 maxStreamId
  | StreamMoneyFrame streamId shares => uint64 streamId /\ uint64 shares
  | StreamMaxMoneyFrame streamId receiveMax totalReceived =>
    uint64 streamId /\ uint64 receiveMax /\ uint64 totalReceived
  | StreamMoneyBlockedFrame streamId sendMax totalSent =>
    uint64 streamId /\ uint64 sendMax /\ uint64 totalSent
  | StreamCloseFrame streamId errorCode errorMessage =>
    uint64 streamId /\ errorCode <> None /\ buffer_ok (buffer_of_string errorMessage)
  | StreamDataFrame streamId offset data =>
    uint64 streamId /\ uint64 offset /\ buffer_ok data
  | StreamMaxDataFrame streamId maxOffset => uint64 streamId /\ uint64 maxOffset
  | StreamDataBlockedFrame streamId maxOffset => uint64 streamId /\ uint64 maxOffset
  end.

(** No array has more than [2^32 - 1] elements. *)
Definition MAX_ARRAY_LENGTH : Z := 2 ^ 32 - 1.

(** A packet as the constructor of [Packet] and the frame classes make it:
    in-range unsigned integers and frames of the typed kinds. *)
Definition Packet_valid (p : Packet.t) : Prop :=
  uint64 (Packet.sequence p) /\
  uint8 (Packet.ilpPacketType p) /\
  uint64 (Packet.prepareAmount p) /\
  Z.of_nat (List.length (Packet.frames p)) <= MAX_ARRAY_LENGTH /\
  Forall Frame_valid (Packet.frames p).

(** Frames on the wire that need not be of a class of protocol.ts.

    Modelled from the spec: a frame of a type that protocol.ts has no class
    for is the envelope [[u8 type][varOctetString contents]]; [Untyped] is an
    object whose [writeTo] writes just that.  [serialize] is
    [Packet._serialize] over a frame list that may hold such objects. *)
Module Wire.
Import Oer.

Inductive frame : Type :=
| Typed (f : Frame)
| Untyped (type : Z) (contents : Buffer).

Definition writeTo (f : frame) (writer : Writer) : option Writer :=
  match f with
  | Typed f => Frames.writeTo f writer
  | Untyped type contents =>
    let? writer := writeUInt8 type writer in
    writeVarOctetString contents writer
  end.

Fixpoint writeFrames (frames : list frame) (writer : Writer) : option Writer :=
  match frames with
  | [] => Some writer
  | f :: rest =>
    let? writer := writeTo f writer in
    writeFrames rest writer
  end.

Definition serialize (sequence ilpPacketType prepareAmount : Z)
           (frames : list frame) : option Buffer :=
  let writer : Writer := [] in
  let? writer := writeUInt8 VERSION writer in
  let? writer := writeUInt8 ilpPacketType writer in
  let? writer := writeVarUInt sequence writer in
  let? writer := writeVarUInt prepareAmount writer in
  let? writer := writeVarUInt (Z.of_nat (List.length frames)) writer in
  let? writer := writeFrames frames writer in
  Some (getBuffer writer).

(** The frames of the list that are of a class of protocol.ts. *)
Definition recognized (f : frame) : option Frame :=
  match f with
  | Typed f => Some f
  | Untyped _ _ => None
  end.

Fixpoint recognized_frames (frames : list frame) : list Frame :=
  match frames with
  | [] => []
  | f :: rest =>
    match recognized f with
    | Some f' => f' :: recognized_frames rest
    | None => recognized_frames rest
    end
  end.

(** A type byte that [parseFrame] has no case for. *)
Definition unknown_type (type : Z) : bool :=
  match FrameType_of_value type with
  | None | Some Padding => true
  | Some _ => false
  end.

Definition frame_valid (f : frame) : Prop :=
  match f with
  | Typed f => Frame_valid f
  | Untyped type contents =>
    uint8 type /\ unknown_type type = true /\ buffer_ok contents
  end.

End Wire.

(** Vocabulary for the offset sorter. *)
Module SorterSpec.
Import OffsetSorter.

(** The values returned by [n] successive calls of [read]. *)
Definition returned (n : nat) (s : t) : list (option Buffer) := fst (read_n n s).

(** The smallest offset in the queue, whatever the order of the queue. *)
Definition smallest_offset (s : t) : option Z :=
  match map offset (head s) with
  | [] => None
  | o :: os => Some (fold_left Z.min os o)
  end.

(** The states that calls of the methods lead to from a new sorter. *)
Inductive reachable : t -> Prop :=
| reach_new : reachable new
| reach_push data offset s : reachable s -> reachable (push data offset s)
| reach_read s : reachable s -> reachable (snd (read s))
| reach_setEndOffset offset s : reachable s -> reachable (setEndOffset offset s).

(** The chunks that cut a run of bytes into consecutive pieces, the first
    one at [offset]. *)
Fixpoint chunks_from (offset : Z) (pieces : list Buffer) : list (Z * Buffer) :=
  match pieces with
  | [] => []
  | p :: rest => (offset, p) :: chunks_from (offset + len p) rest
  end.

(** What [read] returns until it first returns [undefined], for a queue
    [entries] and a read offset [r]. *)
Fixpoint drain (r : Z) (entries : list OffsetDataEntry) : list Buffer :=
  match entries with
  | [] => []
  | e :: rest =>
    if r =? offset e then data e :: drain (offset e + len (data e)) rest else []
  end.


(** The orders on queue entries, and a pushed chunk as an entry. *)
Definition le_offset (a b : OffsetDataEntry) : Prop := offset a <= offset b.
Definition lt_offset (a b : OffsetDataEntry) : Prop := offset a < offset b.

Definition entry_of (c : Z * Buffer) : OffsetDataEntry := mkEntry (snd c) (fst c).

(** The queues after the single and after the repeated push: the second
    copy of [c] sits right behind a block [A] that holds the first one and
    no larger offset. *)
Definition twin (c : OffsetDataEntry) (l l' : list OffsetDataEntry) : Prop :=
  exists A B, l = A ++ B /\ l' = A ++ c :: B /\ In c A /\
              Forall (fun e => offset e <= offset c) A.

End SorterSpec.

(** ** base64url, as RFC 4648 has it

    The encoding that the spec names for the token, written from the RFC
    (section 5, without padding) and not from the code: the bits of the
    bytes, highest first, are cut into groups of six, the last group filled
    up with zero bits; each group is a number from 0 to 63 and stands for
    one character of the URL and filename safe alphabet. *)
Module Base64Spec.

Definition alphabet : string :=
  "ABCDEFGHIJKLMNOPQRSTUVWXYZabcdefghijklmnopqrstuvwxyz0123456789-_".

Definition bits_of_byte (b : byte) : list bool :=
  map (Z.testbit (Z_of_byte b)) [7; 6; 5; 4; 3; 2; 1; 0].

Fixpoint sextets (bits : list bool) : list (list bool) :=
  match bits with
  | [] => []
  | b5 :: b4 :: b3 :: b2 :: b1 :: b0 :: rest =>
    [b5; b4; b3; b2; b1; b0] :: sextets rest
  | last => [firstn 6 (last ++ repeat false 6)]
  end.

(** The number that a group of bits is, highest bit first. *)
Definition value (bits : list bool) : Z :=
  fold_left (fun acc (b : bool) => 2 * acc + (if b then 1 else 0)) bits 0.

Definition digit (i : Z) : ascii :=
  nth (Z.to_nat i) (list_ascii_of_string alphabet) "="%char.

Definition base64url (b : Buffer) : string :=
  string_of_list_ascii
    (map (fun group => digit (value group)) (sextets (flat_map bits_of_byte b))).

End Base64Spec.

(** The characters that the spec allows in a connection tag. *)
Definition tag_alphabet : string :=
  "abcdefghijklmnopqrstuvwxyzABCDEFGHIJKLMNOPQRSTUVWXYZ0123456789~_-".

Definition tag_char (c : ascii) : Prop := In c (list_ascii_of_string tag_alphabet).

(** An instance of [NodeCrypto], to run the definitions on concrete inputs
    and to show that the three laws can be met.  It is a checksum, not a
    cipher. *)
Module Toy.

Definition checksum (b : Buffer) : Z :=
  fold_left (fun acc x => acc + Z_of_byte x) b 0.

Definition hmac (key message : Buffer) : Buffer :=
  repeat (byte_of_Z (checksum key + 3 * checksum message)) 32.

Definition keystream (key iv : Buffer) (pos : nat) : byte :=
  byte_of_Z (checksum key + checksum iv + Z.of_nat pos).

Definition tag (key iv c : Buffer) : Buffer :=
  repeat (byte_of_Z (checksum key + checksum iv + 5 * checksum c)) 16.

Definition random (n : Z) : Buffer := repeat "*"%byte (Z.to_nat n).

End Toy.

(** Vocabulary for receipts. *)
Module ReceiptSpec.
Import Receipt.

(** The first 26 bytes of a receipt: version, nonce, stream id, total. *)
Definition receipt_message (nonce : Buffer) (streamId totalReceived : Z) : Buffer :=
  [byte_of_Z RECEIPT_VERSION] ++ nonce ++ [byte_of_Z streamId] ++ be_encode 8 totalReceived.

End ReceiptSpec.

(** Concrete inputs for the examples. *)
Definition example_packet : Packet.t :=
  Packet.mk 300 IlpPacketType.Prepare 77
    [ConnectionNewAddressFrame "example.alice";
     StreamMoneyFrame 1 1000;
     StreamMaxMoneyFrame 1 MAX_UINT64 456;
     StreamDataFrame 1 0 (buffer_of_string "foobar");
     StreamCloseFrame 1 (Some NoError) "";
     ConnectionCloseFrame (Some ApplicationError) "fail"].

(** A packet (sequence 0, Prepare, amount 0) with the single frame
    [07 05 03 'A' 'B' 'C' 09]: type 0x07, asset code "ABC", asset scale 9. *)
Definition asset_details_packet : Buffer :=
  map byte_of_Z [1; 12; 1; 0; 1; 0; 1; 1; 0x07; 5; 3; 65; 66; 67; 9].

(** The same with the single frame [17 04 01 01 01 2a]: type 0x17, stream
    id 1, a one-byte receipt. *)
Definition stream_receipt_packet : Buffer :=
  map byte_of_Z [1; 12; 1; 0; 1; 0; 1; 1; 0x17; 4; 1; 1; 1; 42].

(** ** Vocabulary of the further properties *)

(** Every key in [pskKeyMap] has 32 bytes, as it has in every state that
    the functions lead to from the empty maps. *)
Definition keys_ok {NC : NodeCrypto} (st : CryptoCache.caches) : Prop :=
  Forall (fun entry => len (snd entry) = 32) (CryptoCache.pskKeyMap st).

Module ParserSpec.
Import Oer.

(** [_deserializeUnencrypted] together with the reader it leaves behind. *)
Definition parsePacket (reader : Reader) : option (Packet.t * Reader) :=
  let? (version, reader) := readUInt8BigNum reader in
  if negb (version =? VERSION) then None
  else
    let? (ilpPacketType, reader) := readUInt8BigNum reader in
    let? (sequence, reader) := readVarUIntBigNum reader in
    let? (packetAmount, reader) := readVarUIntBigNum reader in
    let? (numFrames, reader) := readVarUIntBigNum reader in
    let? (frames, reader) := Packet.parseFrames (Z.to_nat numFrames) reader [] in
    Some (Packet.mk sequence ilpPacketType packetAmount frames, reader).

(** A buffer that the serializer does not produce: the sequence 5 is written
    on two bytes, and a frame of the unknown type 0x7f comes before a
    [StreamMaxData] frame. *)
Definition foreign_packet_bytes : Buffer :=
  map byte_of_Z [1; 12; 2; 0; 5; 1; 0; 1; 2;
                 0x7f; 2; 0xaa; 0xbb;
                 0x15; 4; 1; 9; 1; 7].

(** The integer fields of a frame. *)
Definition Frame_fields (f : Frame) : list Z :=
  match f with
  | ConnectionCloseFrame _ _ => []
  | ConnectionNewAddressFrame _ => []
  | ConnectionMaxDataFrame maxOffset => [maxOffset]
  | ConnectionDataBlockedFrame maxOffset => [maxOffset]
  | ConnectionMaxStreamIdFrame maxStreamId => [maxStreamId]
  | ConnectionStreamIdBlockedFrame maxStreamId => [maxStreamId]
  | StreamMoneyFrame streamId shares => [streamId; shares]
  | StreamMaxMoneyFrame streamId receiveMax totalReceived =>
    [streamId; receiveMax; totalReceived]
  | StreamMoneyBlockedFrame streamId sendMax totalSent => [streamId; sendMax; totalSent]
  | StreamCloseFrame streamId _ _ => [streamId]
  | StreamDataFrame streamId offset _ => [streamId; offset]
  | StreamMaxDataFrame streamId maxOffset => [streamId; maxOffset]
  | StreamDataBlockedFrame streamId maxOffset => [streamId; maxOffset]
  end.

Definition Frame_nonneg (f : Frame) : Prop := Forall (fun v => 0 <= v) (Frame_fields f).

End ParserSpec.

(** [Number.isSafeInteger]: the integers that a JavaScript number holds
    exactly.  A sum of two of them that is one of them again is computed
    exactly. *)
Definition MAX_SAFE_INTEGER : Z := 2 ^ 53 - 1.

Definition safe_integer (x : Z) : Prop := - MAX_SAFE_INTEGER <= x <= MAX_SAFE_INTEGER.

(** The states that calls of the methods lead to from a new sorter when
    every chunk is pushed with an offset and an end, [offset + data.length],
    that are safe integers.  [read] adds the same two numbers that [push]
    added for the entry, so that on these runs every sum of the code is
    exact. *)
Inductive safely_reachable : OffsetSorter.t -> Prop :=
| safe_new : safely_reachable OffsetSorter.new
| safe_push data offset s :
    safely_reachable s ->
    safe_integer offset -> safe_integer (offset + len data) ->
    safely_reachable (OffsetSorter.push data offset s)
| safe_read s : safely_reachable s -> safely_reachable (snd (OffsetSorter.read s))
| safe_setEndOffset offset s :
    safely_reachable s -> safely_reachable (OffsetSorter.setEndOffset offset s).

(** The number of bytes in a queue. *)
Definition queued_bytes (l : list OffsetSorter.OffsetDataEntry) : Z :=
  len (List.concat (map OffsetSorter.data l)).

Module TokenSpec.
Import Server.

(** The characters of base64url: the base64 alphabet with [-] for [+] and
    [_] for [/]. *)
Definition url_alphabet : string :=
  "ABCDEFGHIJKLMNOPQRSTUVWXYZabcdefghijklmnopqrstuvwxyz0123456789-_".

Definition url_char (c : ascii) : Prop := In c (list_ascii_of_string url_alphabet).

Definition base64_char (c : ascii) : bool :=
  existsb (Ascii.eqb c) (list_ascii_of_string base64_alphabet).

(** [toString_base64] without its padding. *)
Fixpoint base64_body (b : Buffer) : string :=
  match b with
  | [] => EmptyString
  | [b0] =>
    let n := Z_of_byte b0 * 65536 in
    String (base64_digit (Z.shiftr n 18))
      (String (base64_digit (Z.land (Z.shiftr n 12) 63)) EmptyString)
  | [b0; b1] =>
    let n := Z_of_byte b0 * 65536 + Z_of_byte b1 * 256 in
    String (base64_digit (Z.shiftr n 18))
      (String (base64_digit (Z.land (Z.shiftr n 12) 63))
         (String (base64_digit (Z.land (Z.shiftr n 6) 63)) EmptyString))
  | b0 :: b1 :: b2 :: rest =>
    let n := Z_of_byte b0 * 65536 + Z_of_byte b1 * 256 + Z_of_byte b2 in
    String (base64_digit (Z.shiftr n 18))
      (String (base64_digit (Z.land (Z.shiftr n 12) 63))
         (String (base64_digit (Z.land (Z.shiftr n 6) 63))
            (String (base64_digit (Z.land n 63)) (base64_body rest))))
  end.

(** Whether [pat] occurs in [s]. *)
Fixpoint occurs (pat s : string) : bool :=
  match Routing.strip_prefix pat s with
  | Some _ => true
  | None =>
    match s with
    | EmptyString => false
    | String _ s' => occurs pat s'
    end
  end.

End TokenSpec.

(** * Properties *)

(** ** Bytes and big-endian integers *)

Lemma Z_of_byte_range (b : byte) : 0 <= Z_of_byte b < 256.
Proof.
  unfold Z_of_byte. pose proof (Byte.to_N_bounded b). lia.
Qed.

Lemma byte_of_Z_of_byte (b : byte) : byte_of_Z (Z_of_byte b) = b.
Proof.
  unfold byte_of_Z. rewrite Z.mod_small by apply Z_of_byte_range.
  unfold Z_of_byte. rewrite N2Z.id, Byte.of_to_N. reflexivity.
Qed.

Lemma Z_of_byte_of_Z_mod (z : Z) : Z_of_byte (byte_of_Z z) = z mod 256.
Proof.
  unfold byte_of_Z, Z_of_byte.
  pose proof (Z.mod_pos_bound z 256 ltac:(lia)) as Hm.
  destruct (Byte.of_N (Z.to_N (z mod 256))) as [b|] eqn:E.
  - apply Byte.to_of_N in E. rewrite E. lia.
  - apply Byte.of_N_None_iff in E. lia.
Qed.

Lemma Z_of_byte_of_Z (z : Z) : 0 <= z < 256 -> Z_of_byte (byte_of_Z z) = z.
Proof.
  intros. rewrite Z_of_byte_of_Z_mod. apply Z.mod_small; assumption.
Qed.

Lemma bytes_eqb_refl (a : Buffer) : bytes_eqb a a = true.
Proof.
  unfold bytes_eqb. destruct (list_eq_dec Byte.byte_eq_dec a a); congruence.
Qed.

Lemma bytes_eqb_eq (a b : Buffer) : bytes_eqb a b = true <-> a = b.
Proof.
  unfold bytes_eqb. destruct (list_eq_dec Byte.byte_eq_dec a b); split; congruence.
Qed.

Lemma len_app (a b : Buffer) : len (a ++ b) = len a + len b.
Proof.
  unfold len. rewrite length_app. lia.
Qed.

Lemma len_nonneg (a : Buffer) : 0 <= len a.
Proof.
  unfold len. lia.
Qed.

Lemma be_decode_snoc (bs : Buffer) (b : byte) :
  be_decode (bs ++ [b]) = be_decode bs * 256 + Z_of_byte b.
Proof.
  unfold be_decode. rewrite fold_left_app. reflexivity.
Qed.

Lemma be_encode_length (w : nat) (v : Z) : List.length (be_encode w v) = w.
Proof.
  revert v. induction w as [|w IH]; intros v; simpl.
  - reflexivity.
  - rewrite length_app, IH. simpl. lia.
Qed.

Lemma be_decode_encode (w : nat) (v : Z) :
  0 <= v < 256 ^ Z.of_nat w -> be_decode (be_encode w v) = v.
Proof.
  revert v. induction w as [|w IH]; intros v Hv.
  - simpl in *. change (be_decode []) with 0. lia.
  - simpl be_encode. rewrite be_decode_snoc, Z_of_byte_of_Z_mod.
    rewrite Nat2Z.inj_succ, Z.pow_succ_r in Hv by lia.
    rewrite IH.
    + pose proof (Z.div_mod v 256 ltac:(lia)). lia.
    + split.
      * apply Z.div_pos; lia.
      * apply Z.div_lt_upper_bound; lia.
Qed.

Lemma be_decode_range (bs : Buffer) :
  0 <= be_decode bs < 256 ^ Z.of_nat (List.length bs).
Proof.
  induction bs as [|b bs IH] using rev_ind.
  - change (be_decode []) with 0. simpl. lia.
  - rewrite be_decode_snoc, length_app. simpl List.length.
    replace (Z.of_nat (List.length bs + 1)) with (Z.succ (Z.of_nat (List.length bs))) by lia.
    rewrite Z.pow_succ_r by lia.
    pose proof (Z_of_byte_range b). lia.
Qed.

Lemma byte_size_pos (v : Z) : 0 <= v -> 1 <= byte_size v.
Proof.
  intros Hv. unfold byte_size.
  pose proof (Z.log2_nonneg v).
  pose proof (Z.div_pos (Z.log2 v) 8 ltac:(lia) ltac:(lia)). lia.
Qed.

Lemma pow256 (k : Z) : 0 <= k -> 256 ^ k = 2 ^ (8 * k).
Proof.
  intros Hk. change 256 with (2 ^ 8). rewrite <- Z.pow_mul_r by lia. reflexivity.
Qed.

Lemma byte_size_upper (v : Z) : 0 <= v -> v < 256 ^ byte_size v.
Proof.
  intros Hv. pose proof (byte_size_pos Hv) as Hp.
  rewrite pow256 by lia. unfold byte_size in *.
  destruct (Z.eq_dec v 0) as [->|Hnz].
  - apply Z.pow_pos_nonneg; lia.
  - apply Z.log2_lt_pow2; [lia|].
    pose proof (Z.div_mod (Z.log2 v) 8 ltac:(lia)).
    pose proof (Z.mod_pos_bound (Z.log2 v) 8 ltac:(lia)). lia.
Qed.

Lemma byte_size_lower (v : Z) : 0 < v -> 256 ^ (byte_size v - 1) <= v.
Proof.
  intros Hv. unfold byte_size.
  replace (Z.log2 v / 8 + 1 - 1) with (Z.log2 v / 8) by lia.
  pose proof (Z.log2_nonneg v).
  pose proof (Z.div_pos (Z.log2 v) 8 ltac:(lia) ltac:(lia)).
  rewrite pow256 by lia.
  apply Z.le_trans with (2 ^ Z.log2 v).
  - apply Z.pow_le_mono_r; [lia|].
    pose proof (Z.div_mod (Z.log2 v) 8 ltac:(lia)).
    pose proof (Z.mod_pos_bound (Z.log2 v) 8 ltac:(lia)). lia.
  - apply Z.log2_spec. lia.
Qed.

Lemma byte_size_bound (v k : Z) : 0 <= v < 256 ^ k -> 1 <= k -> byte_size v <= k.
Proof.
  intros [Hv Hlt] Hk. unfold byte_size.
  destruct (Z.eq_dec v 0) as [->|Hnz].
  - simpl. lia.
  - rewrite pow256 in Hlt by lia.
    apply Z.log2_lt_pow2 in Hlt; [|lia].
    pose proof (Z.div_mod (Z.log2 v) 8 ltac:(lia)).
    pose proof (Z.mod_pos_bound (Z.log2 v) 8 ltac:(lia)). lia.
Qed.

(** ** The OER writer and reader are inverse to each other *)

Module OerFacts.
Import Oer.

Lemma read_app (bs rest : Buffer) :
  read (List.length bs) (bs ++ rest) = Some (bs, rest).
Proof.
  unfold read. rewrite length_app.
  replace (List.length bs <=? List.length bs + List.length rest)%nat with true
    by (symmetry; apply Nat.leb_le; lia).
  rewrite firstn_app, Nat.sub_diag, firstn_all, firstn_O, app_nil_r.
  rewrite skipn_app, Nat.sub_diag, skipn_all. reflexivity.
Qed.

Lemma high_bit (b : byte) :
  let x := Z_of_byte b in
  (x < 128 -> Z.land x 128 = 0 /\ Z.lor 128 x = 128 + x) /\
  (128 <= x -> Z.land x 128 = 128 /\ Z.land x 127 = x - 128).
Proof.
  destruct b; vm_compute; split; intros H;
    first [ discriminate H | exfalso; apply H; reflexivity | split; reflexivity ].
Qed.

Lemma land_high_small (x : Z) : 0 <= x < 128 -> Z.land x 128 = 0.
Proof.
  intros Hx. rewrite <- (Z_of_byte_of_Z (z := x)) by lia.
  apply high_bit. rewrite Z_of_byte_of_Z; lia.
Qed.

Lemma lor_high (x : Z) : 0 <= x < 128 -> Z.lor 128 x = 128 + x.
Proof.
  intros Hx. rewrite <- (Z_of_byte_of_Z (z := x)) by lia.
  apply high_bit. rewrite Z_of_byte_of_Z; lia.
Qed.

Lemma land_high_large (x : Z) :
  128 <= x < 256 -> Z.land x 128 = 128 /\ Z.land x 127 = x - 128.
Proof.
  intros Hx. rewrite <- (Z_of_byte_of_Z (z := x)) by lia.
  apply high_bit. rewrite Z_of_byte_of_Z; lia.
Qed.

Lemma writeUInt_eq (v : Z) (width : nat) (w : Writer) :
  0 <= v < 256 ^ Z.of_nat width -> width <> O ->
  writeUInt v width w = Some (w ++ be_encode width v).
Proof.
  intros Hv Hw. unfold writeUInt. destruct width as [|k]; [congruence|].
  replace (0 <=? v) with true by (symmetry; apply Z.leb_le; lia).
  replace (v <? 256 ^ Z.of_nat (S k)) with true
    by (symmetry; apply Z.ltb_lt; lia).
  reflexivity.
Qed.

Lemma writeUInt_ok (v : Z) (width : nat) :
  0 <= v < 256 ^ Z.of_nat width -> width <> O ->
  writes (Z.of_nat width) (writeUInt v width) (readUInt width) v.
Proof.
  intros Hv Hw. exists (be_encode width v). split; [|split].
  - unfold len. rewrite be_encode_length. lia.
  - intros w. apply writeUInt_eq; assumption.
  - intros rest. unfold readUInt. destruct width as [|k]; [congruence|].
    pose proof (read_app (be_encode (S k) v) rest) as Hread.
    rewrite be_encode_length in Hread. rewrite Hread. cbn [obind].
    rewrite be_decode_encode by assumption. reflexivity.
Qed.

Lemma writeUInt8_ok (v : Z) :
  0 <= v < 256 -> writes 1 (writeUInt8 v) readUInt8BigNum v.
Proof.
  intros Hv. exists [byte_of_Z v]. split; [|split].
  - unfold len. simpl. lia.
  - intros w. unfold writeUInt8, writeUInt.
    replace (0 <=? v) with true by (symmetry; apply Z.leb_le; lia).
    replace (v <? 256 ^ Z.of_nat 1) with true
      by (symmetry; apply Z.ltb_lt; simpl; lia).
    reflexivity.
  - intros rest. simpl. rewrite Z_of_byte_of_Z by assumption. reflexivity.
Qed.

Lemma byte_size_limit (n : Z) : 0 <= n < OER_LIMIT -> 1 <= byte_size n <= 127.
Proof.
  intros Hn. split.
  - apply byte_size_pos. lia.
  - apply byte_size_bound; [exact Hn | lia].
Qed.

Lemma writeLengthPrefix_ok (n : Z) :
  0 <= n < OER_LIMIT -> writes 128 (writeLengthPrefix n) readLengthPrefix n.
Proof.
  intros Hn. unfold writeLengthPrefix.
  destruct (n <=? 127) eqn:Hshort.
  - apply Z.leb_le in Hshort.
    destruct (writeUInt8_ok (v := n)) as (bs & Hlen & Hw & Hr); [lia|].
    exists bs. split; [lia|]. split; [exact Hw|].
    intros rest. unfold readLengthPrefix, readUInt8Number.
    rewrite Hr. cbn [obind]. unfold HIGH_BIT.
    rewrite land_high_small by lia. reflexivity.
  - apply Z.leb_gt in Hshort.
    pose proof (byte_size_limit Hn) as Hl.
    set (l := byte_size n) in *.
    assert (Hlor : Z.lor HIGH_BIT l = 128 + l) by (apply lor_high; lia).
    destruct (writeUInt8_ok (v := 128 + l)) as (b1 & Hlen1 & Hw1 & Hr1); [lia|].
    assert (Hfit : 0 <= n < 256 ^ Z.of_nat (Z.to_nat l)).
    { rewrite Z2Nat.id by lia. split; [lia|]. apply byte_size_upper. lia. }
    destruct (writeUInt_ok (v := n) (width := Z.to_nat l)) as (b2 & Hlen2 & Hw2 & Hr2);
      [exact Hfit | lia |].
    exists (b1 ++ b2). split; [|split].
    + rewrite len_app. lia.
    + intros w. rewrite Hlor, Hw1. cbn [obind]. rewrite Hw2, app_assoc. reflexivity.
    + intros rest. unfold readLengthPrefix, readUInt8Number.
      rewrite <- app_assoc, Hr1. cbn [obind]. unfold HIGH_BIT, LOWER_SEVEN_BITS.
      destruct (land_high_large (x := 128 + l)) as [E1 E2]; [lia|].
      rewrite E1, E2. simpl (128 =? 0).
      replace (128 + l - 128) with l by lia.
      replace (l =? 0) with false by (symmetry; apply Z.eqb_neq; lia).
      rewrite Hr2. cbn [obind].
      rewrite Z.shiftl_1_l.
      replace (n <? Z.max 128 (2 ^ ((l - 1) * 8))) with false; [reflexivity|].
      symmetry. apply Z.ltb_ge.
      pose proof (byte_size_lower (v := n) ltac:(lia)) as Hlow. fold l in Hlow.
      rewrite pow256 in Hlow by lia.
      replace ((l - 1) * 8) with (8 * (l - 1)) by lia. lia.
Qed.

Lemma len_limit (b : Buffer) (n : Z) : len b = n -> Z.to_nat n = List.length b.
Proof.
  unfold len. intros <-. apply Nat2Z.id.
Qed.

Lemma writeVarOctetString_ok (b : Buffer) :
  len b < OER_LIMIT ->
  writes (len b + 128) (writeVarOctetString b) readVarOctetString b.
Proof.
  intros Hb. pose proof (len_nonneg b).
  destruct (writeLengthPrefix_ok (n := len b)) as (p & Hlen & Hw & Hr); [lia|].
  exists (p ++ b). split; [|split].
  - rewrite len_app. lia.
  - intros w. unfold writeVarOctetString, write. rewrite Hw. simpl.
    rewrite app_assoc. reflexivity.
  - intros rest. unfold readVarOctetString. rewrite <- app_assoc, Hr. cbn [obind].
    rewrite (len_limit b eq_refl). apply read_app.
Qed.

Lemma writeVarUInt_ok (v : Z) :
  0 <= v < OER_LIMIT -> writes 128 (writeVarUInt v) readVarUIntBigNum v.
Proof.
  intros Hv. pose proof (byte_size_limit Hv) as Hl.
  set (l := byte_size v) in *.
  assert (Hshort : writes 1 (writeLengthPrefix l) readLengthPrefix l).
  { destruct (writeUInt8_ok (v := l)) as (bs & Hlen & Hw & Hr); [lia|].
    exists bs. split; [lia|]. split.
    - intros w. unfold writeLengthPrefix.
      replace (l <=? 127) with true by (symmetry; apply Z.leb_le; lia).
      apply Hw.
    - intros rest. unfold readLengthPrefix, readUInt8Number.
      rewrite Hr. cbn [obind]. unfold HIGH_BIT.
      rewrite land_high_small by lia. reflexivity. }
  destruct Hshort as (p & Hlenp & Hw & Hr).
  assert (Hfit : 0 <= v < 256 ^ Z.of_nat (Z.to_nat l)).
  { rewrite Z2Nat.id by lia. split; [lia|]. apply byte_size_upper. lia. }
  set (be := be_encode (Z.to_nat l) v).
  exists (p ++ be). split; [|split].
  - rewrite len_app. unfold len at 2. subst be. rewrite be_encode_length. lia.
  - intros w. unfold writeVarUInt.
    replace (v <? 0) with false by (symmetry; apply Z.ltb_ge; lia).
    fold l. rewrite Hw. cbn [obind].
    rewrite writeUInt_eq by (try exact Hfit; lia).
    rewrite app_assoc. reflexivity.
  - intros rest. unfold readVarUIntBigNum, readVarOctetString.
    rewrite <- app_assoc, Hr. cbn [obind].
    assert (Hlen : List.length be = Z.to_nat l) by apply be_encode_length.
    rewrite <- Hlen, read_app. cbn [obind].
    destruct be as [|x xs] eqn:Ebe.
    + simpl in Hlen. lia.
    + rewrite <- Ebe. subst be. rewrite be_decode_encode by exact Hfit. reflexivity.
Qed.

End OerFacts.

(** ** Frames are read back as they were written *)

Module FrameFacts.
Import Oer OerFacts Frames.

Lemma limit_large : 2 ^ 70 < OER_LIMIT.
Proof. reflexivity. Qed.

Lemma uint64_limit v : uint64 v -> 0 <= v < OER_LIMIT.
Proof.
  unfold uint64, MAX_UINT64. pose proof limit_large. lia.
Qed.

Lemma varuint_ok v : uint64 v -> writes 128 (writeVarUInt v) readVarUIntBigNum v.
Proof. intros H. apply writeVarUInt_ok, uint64_limit, H. Qed.

Lemma varoctets_ok b :
  buffer_ok b -> writes (MAX_LENGTH + 128) (writeVarOctetString b) readVarOctetString b.
Proof.
  intros H. unfold buffer_ok in H.
  destruct (@writeVarOctetString_ok b) as (bs & Hl & Hw & Hr).
  - pose proof limit_large. unfold MAX_LENGTH in H. lia.
  - exists bs. split; [lia|]. split; assumption.
Qed.

Lemma errorCode_ok c :
  writes 1 (writeErrorCode (Some c)) readUInt8BigNum (ErrorCode_value c).
Proof.
  apply writeUInt8_ok. destruct c; simpl; lia.
Qed.

Lemma ErrorCode_of_value_value c : ErrorCode_of_value (ErrorCode_value c) = Some c.
Proof. destruct c; reflexivity. Qed.

(** The envelope: a type byte and the contents as an octet string. *)
Lemma envelope (f : Frame) (c : Buffer) :
  writeContents f = Some c -> len c <= MAX_LENGTH + 1000 ->
  exists bt be : Buffer,
    (forall w, writeTo f w = Some (w ++ bt ++ be)) /\
    (forall rest,
        peekUInt8BigNum (bt ++ be ++ rest) = Some (FrameType_value (Frame_type f)) /\
        assertType (bt ++ be ++ rest) (Frame_type f) = Some (be ++ rest) /\
        readVarOctetString (be ++ rest) = Some (c, rest)).
Proof.
  intros Hc Hlen.
  destruct (writeUInt8_ok (v := FrameType_value (Frame_type f))) as (bt & _ & Hwt & Hrt).
  { destruct f; simpl; lia. }
  destruct (@writeVarOctetString_ok c) as (be & _ & Hwe & Hre).
  { pose proof limit_large. unfold MAX_LENGTH in Hlen. lia. }
  exists bt, be. split.
  - intros w. unfold writeTo. rewrite Hwt. cbn [obind]. rewrite Hc. cbn [obind].
    unfold getBuffer. rewrite Hwe, app_assoc. reflexivity.
  - intros rest. split; [|split].
    + unfold peekUInt8BigNum. rewrite Hrt. reflexivity.
    + unfold assertType. rewrite Hrt. cbn [obind].
      rewrite Z.eqb_refl. reflexivity.
    + apply Hre.
Qed.

Ltac use_writes H :=
  let b := fresh "b" in
  let L := fresh "L" in
  let W := fresh "W" in
  let R := fresh "R" in
  destruct H as (b & L & W & R).

Ltac read_step :=
  match goal with
  | R : forall rest, ?rd (?b ++ rest) = Some _ |- context [?rd (?b ++ ?r)] =>
    rewrite (R r)
  | |- context [ErrorCode_of_value (ErrorCode_value ?c)] =>
    rewrite (ErrorCode_of_value_value c)
  | |- context [string_of_buffer (buffer_of_string ?s)] =>
    unfold string_of_buffer, buffer_of_string;
    rewrite (string_of_list_byte_of_string s)
  | H : uint64 ?x |- context [0 <=? ?x] =>
    replace (0 <=? x) with true by (symmetry; apply Z.leb_le; apply H)
  | _ => progress cbn [obind]
  end.

Ltac write_step :=
  match goal with
  | W : forall w, ?wr w = Some _ |- context [?wr ?w0] => rewrite (W w0)
  | _ => progress cbn [obind]
  end.

Ltac frame_roundtrip c :=
  let Hc := fresh "Hc" in
  match goal with
  | |- exists bs, (forall w, writeTo ?f w = _) /\ _ =>
    assert (Hc : writeContents f = Some c)
      by (unfold writeContents; repeat write_step;
          cbn [app]; rewrite ?app_nil_r, <- ?app_assoc; reflexivity)
  end;
  let bt := fresh "bt" in
  let be := fresh "be" in
  let Hw := fresh "Hw" in
  let Hr := fresh "Hr" in
  destruct (@envelope _ _ Hc) as (bt & be & Hw & Hr);
  [ rewrite ?len_app; change (len []) with 0; unfold MAX_LENGTH in *; lia
  | exists (bt ++ be); split;
    [ exact Hw
    | let rest := fresh "rest" in
      let P := fresh "P" in
      let A := fresh "A" in
      let V := fresh "V" in
      intros rest; destruct (Hr rest) as (P & A & V);
      rewrite <- app_assoc; split; [exact P|];
      unfold parseFrame; rewrite P; cbn [obind];
      cbv [FrameType_of_value FrameType_value Frame_type];
      match goal with |- context [?fb (bt ++ be ++ rest)] => unfold fb end;
      cbv [Frame_type] in A; rewrite A; cbn [obind]; rewrite V;
      unfold new_StreamMoneyFrame, new_StreamMaxMoneyFrame,
        new_StreamMoneyBlockedFrame, assert_positive_integer;
      repeat read_step; reflexivity ] ].

Lemma Frame_roundtrip_typed (f : Frame) :
  Frame_valid f ->
  exists bs : Buffer,
    (forall w, writeTo f w = Some (w ++ bs)) /\
    (forall rest,
        peekUInt8BigNum (bs ++ rest) = Some (FrameType_value (Frame_type f)) /\
        parseFrame (bs ++ rest) = Some (Some f, rest)).
Proof.
  destruct f; cbn [Frame_valid]; intros Hv.
  - destruct Hv as [Hcode Hmsg]. destruct errorCode as [code|]; [|congruence].
    use_writes (errorCode_ok code). use_writes (@varoctets_ok _ Hmsg).
    frame_roundtrip (b ++ b0 ++ []).
  - use_writes (@varoctets_ok _ Hv). frame_roundtrip (b ++ []).
  - use_writes (@varuint_ok _ Hv). frame_roundtrip (b ++ []).
  - use_writes (@varuint_ok _ Hv). frame_roundtrip (b ++ []).
  - use_writes (@varuint_ok _ Hv). frame_roundtrip (b ++ []).
  - use_writes (@varuint_ok _ Hv). frame_roundtrip (b ++ []).
  - destruct Hv as [H1 H2].
    use_writes (@varuint_ok _ H1). use_writes (@varuint_ok _ H2).
    frame_roundtrip (b ++ b0 ++ []).
  - destruct Hv as (H1 & H2 & H3).
    use_writes (@varuint_ok _ H1). use_writes (@varuint_ok _ H2). use_writes (@varuint_ok _ H3).
    frame_roundtrip (b ++ b0 ++ b1 ++ []).
  - destruct Hv as (H1 & H2 & H3).
    use_writes (@varuint_ok _ H1). use_writes (@varuint_ok _ H2). use_writes (@varuint_ok _ H3).
    frame_roundtrip (b ++ b0 ++ b1 ++ []).
  - destruct Hv as (H1 & Hcode & Hmsg). destruct errorCode as [code|]; [|congruence].
    use_writes (@varuint_ok _ H1). use_writes (errorCode_ok code).
    use_writes (@varoctets_ok _ Hmsg).
    frame_roundtrip (b ++ b0 ++ b1 ++ []).
  - destruct Hv as (H1 & H2 & H3).
    use_writes (@varuint_ok _ H1). use_writes (@varuint_ok _ H2). use_writes (@varoctets_ok _ H3).
    frame_roundtrip (b ++ b0 ++ b1 ++ []).
  - destruct Hv as [H1 H2].
    use_writes (@varuint_ok _ H1). use_writes (@varuint_ok _ H2).
    frame_roundtrip (b ++ b0 ++ []).
  - destruct Hv as [H1 H2].
    use_writes (@varuint_ok _ H1). use_writes (@varuint_ok _ H2).
    frame_roundtrip (b ++ b0 ++ []).
Qed.

Lemma Frame_roundtrip (f : Frame) :
  Frame_valid f ->
  exists bs : Buffer,
    (forall w, writeTo f w = Some (w ++ bs)) /\
    (forall rest, parseFrame (bs ++ rest) = Some (Some f, rest)).
Proof.
  intros Hv. destruct (@Frame_roundtrip_typed f Hv) as (bs & W & R).
  exists bs. split; [exact W|]. intros rest. apply R.
Qed.
End FrameFacts.

(** ** Packets are read back as they were written *)

Module PacketFacts.
Import Oer OerFacts Frames FrameFacts.

Lemma untyped_roundtrip (type : Z) (contents : Buffer) :
  uint8 type -> Wire.unknown_type type = true -> buffer_ok contents ->
  exists bs : Buffer,
    (forall w, Wire.writeTo (Wire.Untyped type contents) w = Some (w ++ bs)) /\
    (forall rest, parseFrame (bs ++ rest) = Some (None, rest)).
Proof.
  intros Ht Hu Hc.
  destruct (writeUInt8_ok (v := type)) as (bt & _ & Wt & Rt); [unfold uint8 in Ht; lia|].
  destruct (@varoctets_ok contents Hc) as (bc & _ & Wc & Rc).
  exists (bt ++ bc). split.
  - intros w. cbn [Wire.writeTo]. rewrite Wt. cbn [obind].
    rewrite Wc, app_assoc. reflexivity.
  - intros rest. rewrite <- app_assoc. unfold parseFrame, peekUInt8BigNum.
    rewrite Rt. cbn [obind].
    assert (Hskip :
              (let? reader := skipUInt8 (bt ++ bc ++ rest) in
               let? reader := skipVarOctetString reader in
               Some (@None Frame, reader)) = Some (None, rest)).
    { unfold skipUInt8, skipVarOctetString. rewrite Rt. cbn [obind].
      rewrite Rc. reflexivity. }
    unfold Wire.unknown_type in Hu.
    destruct (FrameType_of_value type) as [[]|]; try discriminate Hu; exact Hskip.
Qed.

Lemma wire_frame_roundtrip (f : Wire.frame) :
  Wire.frame_valid f ->
  exists bs : Buffer,
    (forall w, Wire.writeTo f w = Some (w ++ bs)) /\
    (forall rest, parseFrame (bs ++ rest) = Some (Wire.recognized f, rest)).
Proof.
  destruct f as [f|type contents]; cbn [Wire.frame_valid]; intros Hv.
  - apply (@Frame_roundtrip f Hv).
  - destruct Hv as (Ht & Hu & Hc). apply untyped_roundtrip; assumption.
Qed.

Lemma wire_frames_roundtrip (fs : list Wire.frame) :
  Forall Wire.frame_valid fs ->
  exists bs : Buffer,
    (forall w, Wire.writeFrames fs w = Some (w ++ bs)) /\
    (forall rest acc,
        Packet.parseFrames (List.length fs) (bs ++ rest) acc
        = Some (acc ++ Wire.recognized_frames fs, rest)).
Proof.
  induction 1 as [|f fs Hf Hfs (bs & Ws & Rs)].
  - exists []. split.
    + intros w. simpl. rewrite app_nil_r. reflexivity.
    + intros rest acc. simpl. rewrite app_nil_r. reflexivity.
  - destruct (@wire_frame_roundtrip f Hf) as (b & W & R).
    exists (b ++ bs). split.
    + intros w. cbn [Wire.writeFrames]. rewrite W. cbn [obind].
      rewrite Ws, app_assoc. reflexivity.
    + intros rest acc. cbn [List.length Packet.parseFrames].
      rewrite <- app_assoc, R. cbn [obind].
      cbn [Wire.recognized_frames].
      destruct (Wire.recognized f) as [f'|].
      * rewrite Rs, <- app_assoc. reflexivity.
      * apply Rs.
Qed.

Lemma Wire_serialize_roundtrip (sequence ilpPacketType prepareAmount : Z)
      (fs : list Wire.frame) :
  uint64 sequence -> uint8 ilpPacketType -> uint64 prepareAmount ->
  Z.of_nat (List.length fs) <= MAX_UINT64 ->
  Forall Wire.frame_valid fs ->
  exists b : Buffer,
    Wire.serialize sequence ilpPacketType prepareAmount fs = Some b /\
    forall rest,
      Packet._deserializeUnencrypted (b ++ rest)
      = Some (Packet.mk sequence ilpPacketType prepareAmount (Wire.recognized_frames fs)).
Proof.
  intros Hs Ht Ha Hn Hfs.
  destruct (writeUInt8_ok (v := VERSION)) as (b1 & _ & W1 & R1); [unfold VERSION; lia|].
  destruct (writeUInt8_ok (v := ilpPacketType)) as (b2 & _ & W2 & R2);
    [unfold uint8 in Ht; lia|].
  destruct (@varuint_ok sequence Hs) as (b3 & _ & W3 & R3).
  destruct (@varuint_ok prepareAmount Ha) as (b4 & _ & W4 & R4).
  destruct (@varuint_ok (Z.of_nat (List.length fs))) as (b5 & _ & W5 & R5).
  { unfold uint64. lia. }
  destruct (@wire_frames_roundtrip fs Hfs) as (b6 & W6 & R6).
  exists (b1 ++ b2 ++ b3 ++ b4 ++ b5 ++ b6). split.
  - unfold Wire.serialize. rewrite W1. cbn [obind]. rewrite W2. cbn [obind].
    rewrite W3. cbn [obind]. rewrite W4. cbn [obind]. rewrite W5. cbn [obind].
    rewrite W6. cbn [obind]. unfold getBuffer. cbn [app].
    rewrite <- !app_assoc. reflexivity.
  - intros rest. unfold Packet._deserializeUnencrypted.
    rewrite <- !app_assoc. rewrite R1. cbn [obind].
    rewrite Z.eqb_refl. cbn [negb].
    rewrite R2. cbn [obind]. rewrite R3. cbn [obind]. rewrite R4. cbn [obind].
    rewrite R5. cbn [obind]. rewrite Nat2Z.id, R6. reflexivity.
Qed.

Lemma writeFrames_typed (fs : list Frame) (w : Writer) :
  Wire.writeFrames (map Wire.Typed fs) w = Packet.writeFrames fs w.
Proof.
  revert w. induction fs as [|f fs IH]; intros w; simpl.
  - reflexivity.
  - destruct (writeTo f w); simpl; [apply IH | reflexivity].
Qed.

Lemma serialize_typed (p : Packet.t) :
  Wire.serialize (Packet.sequence p) (Packet.ilpPacketType p)
                 (Packet.prepareAmount p) (map Wire.Typed (Packet.frames p))
  = Packet._serialize p.
Proof.
  unfold Wire.serialize, Packet._serialize, Packet.writeTo.
  rewrite length_map.
  repeat match goal with
         | |- obind ?m _ = obind (obind ?m _) _ => destruct m; cbn [obind]; [|reflexivity]
         end.
  rewrite writeFrames_typed. destruct (Packet.writeFrames _ _); reflexivity.
Qed.

Lemma recognized_typed (fs : list Frame) :
  Wire.recognized_frames (map Wire.Typed fs) = fs.
Proof.
  induction fs as [|f fs IH]; simpl; [reflexivity | rewrite IH; reflexivity].
Qed.

Lemma valid_typed (fs : list Frame) :
  Forall Frame_valid fs -> Forall Wire.frame_valid (map Wire.Typed fs).
Proof.
  induction 1; simpl; constructor; assumption.
Qed.

(** Serialization succeeds on a valid packet, and parsing what it wrote,
    followed by anything, gives the packet back. *)
Lemma serialize_deserialize (p : Packet.t) :
  Packet_valid p ->
  exists b : Buffer,
    Packet._serialize p = Some b /\
    forall rest, Packet._deserializeUnencrypted (b ++ rest) = Some p.
Proof.
  intros (Hs & Ht & Ha & Hn & Hfs).
  destruct (@Wire_serialize_roundtrip (Packet.sequence p) (Packet.ilpPacketType p)
              (Packet.prepareAmount p) (map Wire.Typed (Packet.frames p)))
    as (b & Hb & Hr); try assumption.
  - rewrite length_map. unfold MAX_ARRAY_LENGTH in Hn. unfold MAX_UINT64. lia.
  - apply valid_typed, Hfs.
  - exists b. split.
    + rewrite <- serialize_typed. exact Hb.
    + intros rest. rewrite Hr, recognized_typed. destruct p; reflexivity.
Qed.

End PacketFacts.

(** ** Encryption *)

Module CipherFacts.
Import NodeCipher.

Lemma lxor_byte_range (a b : Z) :
  0 <= a < 256 -> 0 <= b < 256 -> 0 <= Z.lxor a b < 256.
Proof.
  intros Ha Hb.
  assert (Hnn : 0 <= Z.lxor a b) by (apply Z.lxor_nonneg; lia).
  split; [exact Hnn|].
  destruct (Z.eq_dec (Z.lxor a b) 0) as [->|Hnz]; [lia|].
  change 256 with (2 ^ 8). apply Z.log2_lt_pow2; [lia|].
  pose proof (Z.log2_lxor a b ltac:(lia) ltac:(lia)) as Hl.
  assert (Hla : Z.log2 a < 8).
  { destruct (Z.eq_dec a 0) as [->|]; [simpl; lia|].
    apply Z.log2_lt_pow2; [lia|]. simpl. lia. }
  assert (Hlb : Z.log2 b < 8).
  { destruct (Z.eq_dec b 0) as [->|]; [simpl; lia|].
    apply Z.log2_lt_pow2; [lia|]. simpl. lia. }
  lia.
Qed.

Lemma byte_xor_involutive (x k : byte) : byte_xor (byte_xor x k) k = x.
Proof.
  unfold byte_xor.
  rewrite Z_of_byte_of_Z by (apply lxor_byte_range; apply Z_of_byte_range).
  rewrite Z.lxor_assoc, Z.lxor_nilpotent, Z.lxor_0_r.
  apply byte_of_Z_of_byte.
Qed.

Section WithCrypto.
Context {NC : NodeCrypto}.

Lemma xor_stream_length (key iv : Buffer) (pos : nat) (b : Buffer) :
  List.length (xor_stream key iv pos b) = List.length b.
Proof.
  revert pos. induction b as [|x b IH]; intros pos; simpl; [reflexivity|].
  rewrite IH. reflexivity.
Qed.

Lemma xor_stream_app (key iv : Buffer) (pos : nat) (a b : Buffer) :
  xor_stream key iv pos (a ++ b)
  = xor_stream key iv pos a ++ xor_stream key iv (pos + List.length a) b.
Proof.
  revert pos. induction a as [|x a IH]; intros pos; simpl.
  - rewrite Nat.add_0_r. reflexivity.
  - rewrite IH. replace (S pos + List.length a)%nat with (pos + S (List.length a))%nat by lia.
    reflexivity.
Qed.

Lemma xor_stream_involutive (key iv : Buffer) (pos : nat) (b : Buffer) :
  xor_stream key iv pos (xor_stream key iv pos b) = b.
Proof.
  revert pos. induction b as [|x b IH]; intros pos; simpl; [reflexivity|].
  rewrite byte_xor_involutive, IH. reflexivity.
Qed.

(** The chunks that the [update] loop returns are the key stream applied to
    the concatenation of the buffers. *)
Lemma update_all_spec (buffers : list Buffer) (c : Cipher) :
  let out := xor_stream (c_key c) (c_iv c) (c_pos c) (List.concat buffers) in
  exists outs : list Buffer,
    CryptoAsync.update_all c buffers
    = (mkCipher (c_key c) (c_iv c) (c_pos c + List.length (List.concat buffers))
                (c_out c ++ out), outs)
    /\ List.concat outs = out.
Proof.
  revert c. induction buffers as [|b bs IH]; intros c; cbn zeta.
  - exists []. simpl. rewrite Nat.add_0_r, app_nil_r. destruct c; split; reflexivity.
  - specialize (IH (mkCipher (c_key c) (c_iv c) (c_pos c + List.length b)
                             (c_out c ++ xor_stream (c_key c) (c_iv c) (c_pos c) b))).
    cbn zeta in IH. cbn [c_key c_iv c_pos c_out] in IH.
    destruct IH as (outs & IH1 & IH2).
    exists (xor_stream (c_key c) (c_iv c) (c_pos c) b :: outs).
    cbn [CryptoAsync.update_all List.concat]. unfold update.
    rewrite IH1, IH2, xor_stream_app, length_app, <- app_assoc, Nat.add_assoc.
    split; reflexivity.
Qed.

Lemma slice_prefix (a b : Buffer) (n : Z) : len a = n -> slice (a ++ b) 0 n = a.
Proof.
  intros Hn. unfold slice, clamp_index. pose proof (len_nonneg a). pose proof (len_nonneg b).
  rewrite len_app.
  replace (0 <? 0) with false by reflexivity.
  replace (n <? 0) with false by (symmetry; apply Z.ltb_ge; lia).
  rewrite Z.min_l, Z.min_l by lia. simpl Z.to_nat. rewrite Nat.sub_0_r.
  cbn [skipn]. subst n. unfold len. rewrite Nat2Z.id.
  rewrite firstn_app, Nat.sub_diag, firstn_all, firstn_O, app_nil_r. reflexivity.
Qed.

Lemma slice_from_suffix (a b : Buffer) (n : Z) : len a = n -> slice_from (a ++ b) n = b.
Proof.
  intros Hn. unfold slice_from, clamp_index. pose proof (len_nonneg a). pose proof (len_nonneg b).
  rewrite len_app.
  replace (n <? 0) with false by (symmetry; apply Z.ltb_ge; lia).
  rewrite Z.min_l by lia. subst n. unfold len. rewrite Nat2Z.id.
  rewrite skipn_app, Nat.sub_diag, skipn_all. reflexivity.
Qed.

Lemma slice_middle (a b c : Buffer) (n m : Z) :
  len a = n -> len b = m - n -> slice (a ++ b ++ c) n m = b.
Proof.
  intros Hn Hm. unfold slice, clamp_index.
  pose proof (len_nonneg a). pose proof (len_nonneg b). pose proof (len_nonneg c).
  rewrite !len_app.
  replace (n <? 0) with false by (symmetry; apply Z.ltb_ge; lia).
  replace (m <? 0) with false by (symmetry; apply Z.ltb_ge; lia).
  rewrite Z.min_l, Z.min_l by lia.
  replace (Z.to_nat n) with (List.length a) by (unfold len in Hn; lia).
  replace (Z.to_nat m - List.length a)%nat with (List.length b) by (unfold len in *; lia).
  rewrite skipn_app, Nat.sub_diag, skipn_all. cbn [skipn app].
  rewrite firstn_app, Nat.sub_diag, firstn_all, firstn_O, app_nil_r. reflexivity.
Qed.

(** What the cipher of both versions of crypto.ts does with a 32-byte key:
    the output is IV, tag and ciphertext, and the decipher undoes it. *)
Lemma seal_open (key : Buffer) (buffers : list Buffer) :
  len key = 32 ->
  let iv := randomBytes IV_LENGTH in
  let ciphertext := xor_stream key iv 0 (List.concat buffers) in
  let tag := gcm_tag key iv ciphertext in
  CryptoAsync.encrypt key buffers = Some (iv ++ tag ++ ciphertext) /\
  len iv = 12 /\ len tag = 16 /\ len ciphertext = len (List.concat buffers) /\
  CryptoAsync.decrypt key (iv ++ tag ++ ciphertext) = Some (List.concat buffers).
Proof.
  intros Hkey iv ciphertext tag.
  assert (Hiv : len iv = 12) by (apply randomBytes_length; unfold IV_LENGTH; lia).
  assert (Htag : len tag = 16) by apply gcm_tag_length.
  assert (Hct : len ciphertext = len (List.concat buffers))
    by (unfold len, ciphertext; rewrite xor_stream_length; reflexivity).
  split; [|split; [exact Hiv | split; [exact Htag | split; [exact Hct|]]]].
  - unfold CryptoAsync.encrypt, createCipheriv. fold iv. rewrite Hkey. cbn [Z.eqb Pos.eqb obind].
    destruct (update_all_spec buffers (mkCipher key iv 0 [])) as (outs & E1 & E2).
    cbn [c_key c_iv c_pos c_out] in E1, E2. cbn zeta in E1, E2.
    rewrite E1. unfold final, getAuthTag. cbn [c_key c_iv c_out app].
    fold ciphertext. fold tag.
    cbn [List.concat]. rewrite concat_app, E2. cbn [List.concat].
    rewrite !app_nil_r. reflexivity.
  - unfold CryptoAsync.decrypt.
    replace (len (iv ++ tag ++ ciphertext) >? 0) with true
      by (symmetry; apply Z.gtb_lt; rewrite !len_app; pose proof (len_nonneg ciphertext); lia).
    cbn [negb].
    rewrite (@slice_prefix iv (tag ++ ciphertext) IV_LENGTH Hiv).
    rewrite (@slice_middle iv tag ciphertext IV_LENGTH (IV_LENGTH + AUTH_TAG_LENGTH))
      by (unfold IV_LENGTH, AUTH_TAG_LENGTH; lia).
    rewrite app_assoc.
    rewrite (@slice_from_suffix (iv ++ tag) ciphertext (IV_LENGTH + AUTH_TAG_LENGTH))
      by (rewrite len_app; unfold IV_LENGTH, AUTH_TAG_LENGTH; lia).
    unfold createDecipheriv. rewrite Hkey. cbn [Z.eqb Pos.eqb obind].
    unfold setAuthTag, dupdate, dfinal. cbn [d_key d_iv d_pos d_in d_tag app].
    fold tag. rewrite bytes_eqb_refl. cbn [obind List.concat].
    unfold ciphertext. rewrite xor_stream_involutive, !app_nil_r. reflexivity.
Qed.

End WithCrypto.
End CipherFacts.

(** ** Receipts *)

Module ReceiptFacts.
Import Oer OerFacts Receipt ReceiptSpec.

Section WithCrypto.
Context {NC : NodeCrypto}.

Lemma readUInt_encode (v : Z) (width : nat) (rest : Buffer) :
  0 <= v < 256 ^ Z.of_nat width -> width <> O ->
  readUInt width (be_encode width v ++ rest) = Some (v, rest).
Proof.
  intros Hv Hw. unfold readUInt. destruct width as [|k]; [congruence|].
  pose proof (read_app (be_encode (S k) v) rest) as Hread.
  rewrite be_encode_length in Hread. rewrite Hread. cbn [obind].
  rewrite be_decode_encode by assumption. reflexivity.
Qed.

Lemma receipt_message_length (nonce : Buffer) (streamId totalReceived : Z) :
  len nonce = 16 -> len (receipt_message nonce streamId totalReceived) = 26.
Proof.
  intros Hn. unfold receipt_message. rewrite !len_app, Hn.
  unfold len. rewrite be_encode_length. simpl. lia.
Qed.

Lemma createReceipt_value (opts : ReceiptOpts) :
  len (opts_nonce opts) = 16 -> len (opts_secret opts) = 32 ->
  0 <= opts_streamId opts <= 255 -> 0 <= opts_totalReceived opts < 2 ^ 64 ->
  let message := receipt_message (opts_nonce opts) (opts_streamId opts)
                                 (opts_totalReceived opts) in
  createReceipt opts = Ok (message ++ hmac_sha256 (opts_secret opts) message).
Proof.
  intros Hn Hs Hid Ht message. unfold createReceipt.
  rewrite Hn, Hs. cbn [Z.eqb Pos.eqb negb].
  unfold writeUInt8. rewrite writeUInt_eq by (unfold RECEIPT_VERSION; simpl; lia).
  cbn [oer rbind]. unfold writeOctetString. rewrite Hn. cbn [Z.eqb Pos.eqb oer rbind].
  rewrite writeUInt_eq by (simpl; lia). cbn [oer rbind].
  unfold longFromValue.
  replace (0 <=? opts_totalReceived opts) with true by (symmetry; apply Z.leb_le; lia).
  replace (opts_totalReceived opts <? 2 ^ 64) with true by (symmetry; apply Z.ltb_lt; lia).
  cbn [andb rbind]. unfold writeUInt64.
  rewrite writeUInt_eq by (change (256 ^ Z.of_nat 8) with (2 ^ 64); lia).
  cbn [oer rbind]. unfold Crypto.generateReceiptHMAC, Crypto.hmac, getBuffer.
  rewrite hmac_sha256_length. cbn [Z.eqb Pos.eqb oer rbind]. unfold write.
  cbn [be_encode app]. unfold message, receipt_message.
  cbn [app]. rewrite <- !app_assoc. reflexivity.
Qed.

Lemma decodeReceipt_value (nonce mac : Buffer) (streamId totalReceived : Z) :
  len nonce = 16 -> len mac = 32 ->
  0 <= streamId <= 255 -> 0 <= totalReceived < 2 ^ 64 ->
  decodeReceipt (receipt_message nonce streamId totalReceived ++ mac)
  = Ok (mkReceipt RECEIPT_VERSION nonce streamId totalReceived).
Proof.
  intros Hn Hm Hid Ht. unfold decodeReceipt.
  rewrite len_app, (@receipt_message_length nonce streamId totalReceived Hn), Hm. cbn [Z.add Pos.add Z.eqb Pos.eqb negb].
  unfold receipt_message. rewrite <- !app_assoc. cbn [app].
  unfold readUInt8Number, readUInt8BigNum. cbn [oer rbind].
  unfold readOctetString.
  replace 16%nat with (List.length nonce) by (unfold len in Hn; lia).
  rewrite read_app. cbn [oer rbind app].
  unfold readUInt8. cbn [readUInt8BigNum oer rbind].
  unfold readUInt64Long.
  rewrite readUInt_encode
    by (try congruence; change (256 ^ Z.of_nat 8) with (2 ^ 64); lia).
  cbn [oer rbind].
  rewrite !Z_of_byte_of_Z by (unfold RECEIPT_VERSION; lia). reflexivity.
Qed.

(** [verifyReceipt] answers [true] exactly for the 58-byte buffers that
    start with the version byte and end with the HMAC of their first 26
    bytes. *)
Lemma verifyReceipt_true_iff (receipt secret : Buffer) :
  verifyReceipt receipt secret = true <->
  len receipt = 58 /\
  hd_error receipt = Some (byte_of_Z RECEIPT_VERSION) /\
  skipn 26 receipt = hmac_sha256 secret (firstn 26 receipt).
Proof.
  unfold verifyReceipt.
  destruct (len receipt =? 58) eqn:Hlen; cbn [negb].
  - apply Z.eqb_eq in Hlen.
    assert (Hs1 : slice receipt 0 26 = firstn 26 receipt).
    { unfold slice, clamp_index. rewrite Hlen. reflexivity. }
    assert (Hs2 : slice_from receipt 26 = skipn 26 receipt).
    { unfold slice_from, clamp_index. rewrite Hlen. reflexivity. }
    rewrite Hs1, Hs2. unfold Crypto.generateReceiptHMAC, Crypto.hmac.
    destruct receipt as [|v rest]; [discriminate Hlen|].
    cbn [readUInt8Number readUInt8BigNum hd_error].
    destruct (Z_of_byte v =? RECEIPT_VERSION) eqn:Hv; cbn [negb].
    + apply Z.eqb_eq in Hv. rewrite bytes_eqb_eq. split.
      * intros H. repeat split; try assumption.
        rewrite <- Hv, byte_of_Z_of_byte. reflexivity.
      * intros (_ & _ & H). exact H.
    + apply Z.eqb_neq in Hv. split; [discriminate|].
      intros (_ & H & _). exfalso. apply Hv. injection H as ->.
      apply Z_of_byte_of_Z. unfold RECEIPT_VERSION. lia.
  - apply Z.eqb_neq in Hlen. split; [discriminate|]. intros (H & _). contradiction.
Qed.

End WithCrypto.
End ReceiptFacts.

(** ** The offset sorter *)

Module SorterFacts.
Import OffsetSorter SorterSpec.

Lemma push_head (d : Buffer) (o : Z) (s : t) :
  head (push d o s) = push_loop (mkEntry d o) (head s).
Proof.
  unfold push. cbn [head]. destruct (head s) as [|h next]; reflexivity.
Qed.

Lemma push_readOffset (d : Buffer) (o : Z) (s : t) :
  readOffset (push d o s) = readOffset s.
Proof. reflexivity. Qed.

Lemma push_loop_perm (e : OffsetDataEntry) (l : list OffsetDataEntry) :
  Permutation (e :: l) (push_loop e l).
Proof.
  induction l as [|n rest IH]; cbn [push_loop].
  - apply Permutation_refl.
  - destruct (offset n >? offset e).
    + apply Permutation_refl.
    + eapply Permutation_trans; [apply perm_swap|]. apply perm_skip, IH.
Qed.

Lemma push_loop_sorted (e : OffsetDataEntry) (l : list OffsetDataEntry) :
  StronglySorted le_offset l -> StronglySorted le_offset (push_loop e l).
Proof.
  induction 1 as [|n rest Hs IH Hall]; cbn [push_loop].
  - constructor; constructor.
  - destruct (offset n >? offset e) eqn:E.
    + apply Z.gtb_lt in E. constructor.
      * constructor; assumption.
      * constructor; [unfold le_offset; lia|].
        eapply Forall_impl; [|exact Hall]. unfold le_offset. intros a Ha. lia.
    + assert (Hle : offset n <= offset e) by (destruct (Z.gtb_spec (offset n) (offset e)); [discriminate | lia]).
      constructor; [exact IH|].
      eapply Permutation_Forall; [apply push_loop_perm|].
      constructor; assumption.
Qed.

Lemma reachable_sorted (s : t) : reachable s -> StronglySorted le_offset (head s).
Proof.
  induction 1 as [|d o s _ IH|s _ IH|o s _ IH].
  - constructor.
  - rewrite push_head. apply push_loop_sorted, IH.
  - unfold read. destruct (head s) as [|h next] eqn:E.
    + cbn [snd]. rewrite E. constructor.
    + destruct (readOffset s =? offset h); cbn [snd head].
      * inversion IH; assumption.
      * rewrite E. exact IH.
  - exact IH.
Qed.

Lemma fold_min_head (o : Z) (os : list Z) :
  Forall (fun x => o <= x) os -> fold_left Z.min os o = o.
Proof.
  induction 1 as [|x os Hx _ IH]; cbn [fold_left]; [reflexivity|].
  rewrite Z.min_l by lia. exact IH.
Qed.

Lemma sorted_smallest (s : t) (h : OffsetDataEntry) (next : list OffsetDataEntry) :
  StronglySorted le_offset (head s) -> head s = h :: next ->
  smallest_offset s = Some (offset h).
Proof.
  intros Hs E. unfold smallest_offset. rewrite E in *. cbn [map].
  f_equal. apply fold_min_head. inversion Hs as [|? ? _ Hall]; subst.
  apply Forall_map. exact Hall.
Qed.

(** [read] pops the head exactly when the smallest queued offset is the read
    offset, and then moves the read offset past the chunk. *)
Lemma read_spec (s : t) :
  reachable s ->
  ((exists d, fst (read s) = Some d) <-> smallest_offset s = Some (readOffset s)) /\
  (forall d, fst (read s) = Some d ->
             readOffset (snd (read s)) = readOffset s + len d) /\
  (fst (read s) = None -> snd (read s) = s).
Proof.
  intros Hr. pose proof (reachable_sorted Hr) as Hs.
  unfold read. destruct (head s) as [|h next] eqn:E.
  - unfold smallest_offset. rewrite E. cbn [fst snd map]. repeat split.
    + intros [d Hd]. discriminate Hd.
    + discriminate.
    + discriminate.
  - rewrite (@sorted_smallest s h next) by (rewrite E; first [exact Hs | reflexivity]).
    destruct (readOffset s =? offset h) eqn:Eo; cbn [fst snd readOffset].
    + apply Z.eqb_eq in Eo. repeat split.
      * intros _. rewrite Eo. reflexivity.
      * intros _. exists (data h). reflexivity.
      * intros d Hd. injection Hd as <-. lia.
      * discriminate.
    + apply Z.eqb_neq in Eo. repeat split.
      * intros [d Hd]. discriminate Hd.
      * intros H. injection H as H. congruence.
      * discriminate.
Qed.

(** *** Reading a run of calls *)

Lemma read_n_drain (n : nat) (s : t) :
  let D := drain (readOffset s) (head s) in
  returned n s = map Some (firstn n D) ++ repeat None (n - List.length D).
Proof.
  unfold returned. revert s. induction n as [|n IH]; intros s; cbn zeta.
  - reflexivity.
  - cbn [read_n]. unfold read at 1.
    destruct (head s) as [|h next] eqn:E.
    + specialize (IH s). cbn zeta in IH. rewrite E in IH. cbn [drain] in *.
      destruct (read_n n s) as [vs s2]. cbn [fst] in *. rewrite IH.
      cbn [firstn map List.length app]. rewrite firstn_nil.
      rewrite !Nat.sub_0_r. reflexivity.
    + cbn [drain]. destruct (readOffset s =? offset h) eqn:Eo.
      * specialize (IH (mk next (offset h + len (data h)) (endOffset s) (maxOffset s))).
        cbn zeta in IH. cbn [head readOffset] in IH.
        destruct (read_n n _) as [vs s2]. cbn [fst] in *. rewrite IH.
        cbn [firstn map List.length app Nat.sub]. reflexivity.
      * specialize (IH s). cbn zeta in IH. rewrite E in IH. cbn [drain] in IH.
        rewrite Eo in IH.
        destruct (read_n n s) as [vs s2]. cbn [fst] in *. rewrite IH.
        cbn [firstn map List.length app]. rewrite firstn_nil.
        rewrite !Nat.sub_0_r. reflexivity.
Qed.

Lemma returned_nth (n k : nat) (s : t) (x : Buffer) :
  nth_error (returned n s) k = Some (Some x) <->
  (k < n)%nat /\ nth_error (drain (readOffset s) (head s)) k = Some x.
Proof.
  rewrite read_n_drain. cbn zeta.
  set (D := drain (readOffset s) (head s)).
  destruct (Nat.lt_ge_cases k (List.length (firstn n D))) as [Hk|Hk].
  - rewrite nth_error_app1 by (rewrite length_map; exact Hk).
    rewrite nth_error_map. rewrite length_firstn in Hk.
    rewrite nth_error_firstn.
    replace (k <? n)%nat with true by (symmetry; apply Nat.ltb_lt; lia).
    destruct (nth_error D k) as [y|]; cbn [option_map]; split.
    + intros H. injection H as ->. split; [lia | reflexivity].
    + intros [_ H]. injection H as ->. reflexivity.
    + discriminate.
    + intros [_ H]. discriminate H.
  - rewrite nth_error_app2 by (rewrite length_map; exact Hk).
    rewrite length_map. split.
    + intros H. apply nth_error_In, repeat_spec in H. discriminate H.
    + intros [Hn H]. exfalso. rewrite length_firstn in Hk.
      assert (nth_error D k <> None) by congruence.
      apply nth_error_Some in H0. lia.
Qed.

End SorterFacts.

(** *** Chunks that tile a run of bytes *)

Module TilingFacts.
Import OffsetSorter SorterSpec SorterFacts.

Lemma push_all_head (chunks : list (Z * Buffer)) (s : t) :
  Permutation (head (push_all chunks s)) (map entry_of chunks ++ head s)
  /\ (StronglySorted le_offset (head s) ->
      StronglySorted le_offset (head (push_all chunks s)))
  /\ readOffset (push_all chunks s) = readOffset s.
Proof.
  unfold push_all. revert s. induction chunks as [|c cs IH]; intros s; cbn [fold_left map app].
  - repeat split; [apply Permutation_refl | auto].
  - destruct (IH (push (snd c) (fst c) s)) as (Hp & Hs & Hr).
    rewrite push_head in Hp, Hs. repeat split.
    + eapply Permutation_trans; [exact Hp|].
      eapply Permutation_trans; [|apply Permutation_sym, Permutation_middle].
      apply Permutation_app_head. apply Permutation_sym, push_loop_perm.
    + intros H. apply Hs, push_loop_sorted, H.
    + rewrite Hr. reflexivity.
Qed.

Lemma sorted_unique (l1 l2 : list OffsetDataEntry) :
  StronglySorted lt_offset l1 -> StronglySorted lt_offset l2 ->
  Permutation l1 l2 -> l1 = l2.
Proof.
  intros H1. revert l2. induction H1 as [|a l1 Hs1 IH Ha]; intros l2 H2 Hp.
  - apply Permutation_nil in Hp. congruence.
  - destruct H2 as [|b l2 Hs2 Hb].
    + apply Permutation_sym, Permutation_nil in Hp. discriminate Hp.
    + assert (Hab : a = b).
      { assert (Hin1 : In a (b :: l2))
          by (eapply Permutation_in; [exact Hp | left; reflexivity]).
        assert (Hin2 : In b (a :: l1))
          by (eapply Permutation_in; [apply Permutation_sym, Hp | left; reflexivity]).
        destruct Hin1 as [->|Hin1]; [reflexivity|].
        destruct Hin2 as [->|Hin2]; [reflexivity|].
        rewrite Forall_forall in Ha, Hb.
        specialize (Ha _ Hin2). specialize (Hb _ Hin1).
        unfold lt_offset in *. lia. }
      subst b. f_equal. apply IH; [exact Hs2|].
      eapply Permutation_cons_inv, Hp.
Qed.

Lemma sorted_strict (l : list OffsetDataEntry) :
  StronglySorted le_offset l -> NoDup (map offset l) -> StronglySorted lt_offset l.
Proof.
  induction 1 as [|a l Hs IH Ha]; intros Hnd; constructor.
  - apply IH. inversion Hnd; assumption.
  - inversion Hnd as [|? ? Hnotin _]; subst.
    rewrite Forall_forall in *. intros x Hx. specialize (Ha x Hx).
    unfold le_offset, lt_offset in *.
    assert (offset a <> offset x).
    { intros E. apply Hnotin. rewrite E. apply in_map, Hx. }
    lia.
Qed.

Lemma chunks_from_offsets (o : Z) (pieces : list Buffer) :
  Forall (fun e => o <= offset e) (map entry_of (chunks_from o pieces)).
Proof.
  revert o. induction pieces as [|p ps IH]; intros o; cbn [chunks_from map].
  - constructor.
  - constructor; [cbn; lia|].
    eapply Forall_impl; [|apply IH]. cbn beta. intros e He.
    pose proof (len_nonneg p). lia.
Qed.

Lemma chunks_from_sorted (o : Z) (pieces : list Buffer) :
  Forall (fun p => p <> []) pieces ->
  StronglySorted lt_offset (map entry_of (chunks_from o pieces)).
Proof.
  intros Hne. revert o. induction Hne as [|p ps Hp _ IH]; intros o; cbn [chunks_from map].
  - constructor.
  - constructor; [apply IH|].
    eapply Forall_impl; [|apply chunks_from_offsets]. cbn beta.
    intros e He. unfold lt_offset. cbn [entry_of offset fst].
    assert (0 < len p) by (destruct p; [congruence | unfold len; cbn; lia]).
    lia.
Qed.

Lemma strict_nodup (l : list OffsetDataEntry) :
  StronglySorted lt_offset l -> NoDup (map offset l).
Proof.
  induction 1 as [|a l Hs IH Ha]; cbn [map]; constructor; [|exact IH].
  rewrite in_map_iff. intros (x & Hx & Hin).
  rewrite Forall_forall in Ha. specialize (Ha x Hin). unfold lt_offset in Ha. lia.
Qed.

Lemma drain_chunks (o : Z) (pieces : list Buffer) :
  drain o (map entry_of (chunks_from o pieces)) = pieces.
Proof.
  revert o. induction pieces as [|p ps IH]; intros o; cbn [chunks_from map drain].
  - reflexivity.
  - cbn [entry_of offset data fst snd]. rewrite Z.eqb_refl, IH. reflexivity.
Qed.

(** However the chunks of a tiling are pushed, the queue ends up holding
    them in ascending order. *)
Lemma push_all_tiling (pieces : list Buffer) (pushed : list (Z * Buffer)) :
  Forall (fun p => p <> []) pieces ->
  Permutation pushed (chunks_from 0 pieces) ->
  head (push_all pushed new) = map entry_of (chunks_from 0 pieces)
  /\ readOffset (push_all pushed new) = 0.
Proof.
  intros Hne Hp.
  destruct (push_all_head pushed new) as (Hperm & Hsorted & Hr).
  cbn [head new] in Hperm, Hsorted. rewrite app_nil_r in Hperm.
  split; [|exact Hr].
  pose proof (chunks_from_sorted 0 Hne) as Hstrict.
  assert (Hperm' : Permutation (head (push_all pushed new))
                               (map entry_of (chunks_from 0 pieces))).
  { eapply Permutation_trans; [exact Hperm|]. apply Permutation_map, Hp. }
  apply sorted_unique; [|exact Hstrict|exact Hperm'].
  apply sorted_strict; [apply Hsorted; constructor|].
  eapply Permutation_NoDup; [apply Permutation_map, Permutation_sym, Hperm'|].
  apply strict_nodup, Hstrict.
Qed.

End TilingFacts.

(** *** A chunk pushed a second time *)

Module DuplicateFacts.
Import OffsetSorter SorterSpec SorterFacts TilingFacts.

Lemma gtb_false (a b : Z) : (a >? b) = false <-> a <= b.
Proof.
  rewrite Z.gtb_ltb, Z.ltb_ge. reflexivity.
Qed.

Lemma push_loop_pass (x : OffsetDataEntry) (A L : list OffsetDataEntry) :
  Forall (fun e => offset e <= offset x) A ->
  push_loop x (A ++ L) = A ++ push_loop x L.
Proof.
  induction 1 as [|e A He _ IH]; cbn [app push_loop]; [reflexivity|].
  replace (offset e >? offset x) with false by (symmetry; apply gtb_false; lia).
  rewrite IH. reflexivity.
Qed.

Lemma push_loop_stop (x : OffsetDataEntry) (A L : list OffsetDataEntry) :
  Exists (fun e => offset e > offset x) A ->
  push_loop x (A ++ L) = push_loop x A ++ L.
Proof.
  induction A as [|e A IH]; intros Hex; [inversion Hex|].
  cbn [app push_loop]. destruct (offset e >? offset x) eqn:E; [reflexivity|].
  rewrite IH; [reflexivity|].
  inversion Hex as [? ? H|? ? H]; subst; [|exact H].
  exfalso. apply gtb_false in E. lia.
Qed.

Lemma twin_start (c : OffsetDataEntry) (l : list OffsetDataEntry) :
  StronglySorted le_offset l -> In c l -> twin c l (push_loop c l).
Proof.
  induction 1 as [|e l Hs IH He]; intros Hin; [inversion Hin|].
  cbn [push_loop]. destruct (offset e >? offset c) eqn:E.
  - exfalso. apply Z.gtb_lt in E. destruct Hin as [->|Hin]; [lia|].
    rewrite Forall_forall in He. specialize (He c Hin). unfold le_offset in He. lia.
  - assert (Hle : offset e <= offset c)
      by (apply gtb_false in E; lia).
    destruct Hin as [->|Hin].
    + destruct l as [|n l'].
      * exists [c], []. cbn. repeat split; auto.
      * (* the rest may hold more entries at the same offset *)
        assert (Hpass : exists A B, n :: l' = A ++ B /\
                                    push_loop c (n :: l') = A ++ c :: B /\
                                    Forall (fun e => offset e <= offset c) A).
        { clear IH He Hle E. revert Hs. generalize (n :: l'). intros l Hs.
          induction Hs as [|e l Hs IH He].
          - exists [], []. repeat split; constructor.
          - cbn [push_loop]. destruct (offset e >? offset c) eqn:E.
            + exists [], (e :: l). repeat split; constructor.
            + destruct IH as (A & B & E1 & E2 & HA).
              exists (e :: A), B. cbn [app]. rewrite E1 at 1. rewrite E2.
              repeat split. constructor; [|exact HA].
              apply gtb_false in E. lia. }
        destruct Hpass as (A & B & E1 & E2 & HA).
        exists (c :: A), B. cbn [app]. rewrite E1 at 1. rewrite E2.
        repeat split; [left; reflexivity|]. constructor; [lia | exact HA].
    + destruct (IH Hin) as (A & B & E1 & E2 & HinA & HA).
      exists (e :: A), B. cbn [app]. rewrite E1 at 1. rewrite E2.
      repeat split; [right; exact HinA|]. constructor; assumption.
Qed.

Lemma push_loop_in (x e : OffsetDataEntry) (l : list OffsetDataEntry) :
  In e l -> In e (push_loop x l).
Proof.
  intros H. eapply Permutation_in; [apply push_loop_perm|]. right. exact H.
Qed.

Lemma twin_push (c x : OffsetDataEntry) (l l' : list OffsetDataEntry) :
  twin c l l' -> twin c (push_loop x l) (push_loop x l').
Proof.
  intros (A & B & -> & -> & Hin & HA).
  destruct (Z_lt_le_dec (offset x) (offset c)) as [Hlt|Hge].
  - assert (Hex : Exists (fun e => offset e > offset x) A).
    { apply Exists_exists. exists c. split; [exact Hin | lia]. }
    rewrite !push_loop_stop by exact Hex.
    exists (push_loop x A), B. repeat split.
    + apply push_loop_in, Hin.
    + eapply Permutation_Forall; [apply push_loop_perm|].
      constructor; [lia | exact HA].
  - assert (HA' : Forall (fun e => offset e <= offset x) A).
    { eapply Forall_impl; [|exact HA]. cbn beta. intros e He. lia. }
    rewrite !push_loop_pass by exact HA'.
    cbn [push_loop].
    replace (offset c >? offset x) with false
      by (symmetry; apply gtb_false; lia).
    exists A, (push_loop x B). repeat split; assumption.
Qed.

Lemma twin_push_all (c : OffsetDataEntry) (chunks : list (Z * Buffer)) (s s' : t) :
  twin c (head s) (head s') ->
  twin c (head (push_all chunks s)) (head (push_all chunks s')).
Proof.
  unfold push_all. revert s s'. induction chunks as [|x xs IH]; intros s s' H.
  - exact H.
  - cbn [fold_left]. apply IH. rewrite !push_head. apply twin_push, H.
Qed.

Lemma drain_twin (c : OffsetDataEntry) (A B : list OffsetDataEntry) (r : Z) :
  data c <> [] ->
  Forall (fun e => offset e <= offset c) A ->
  In c A \/ offset c < r ->
  exists rest, drain r (A ++ B) = drain r (A ++ c :: B) ++ rest.
Proof.
  intros Hd HA. revert r. induction HA as [|e A He HA IH]; intros r Hc.
  - destruct Hc as [[]|Hr]. cbn [app drain].
    replace (r =? offset c) with false by (symmetry; apply Z.eqb_neq; lia).
    exists (drain r B). reflexivity.
  - cbn [app drain]. destruct (r =? offset e) eqn:E.
    + apply Z.eqb_eq in E.
      destruct (IH (offset e + len (data e))) as (rest & Hrest).
      * destruct Hc as [[->|Hin]|Hr].
        -- right. assert (0 < len (data c))
             by (destruct (data c); [congruence | unfold len; cbn; lia]).
           lia.
        -- left. exact Hin.
        -- exfalso. lia.
      * exists rest. rewrite Hrest. reflexivity.
    + exists []. reflexivity.
Qed.

Lemma push_all_app (a b : list (Z * Buffer)) (s : t) :
  push_all (a ++ b) s = push_all b (push_all a s).
Proof.
  unfold push_all. apply fold_left_app.
Qed.

Lemma push_all_reachable (chunks : list (Z * Buffer)) (s : t) :
  reachable s -> reachable (push_all chunks s).
Proof.
  unfold push_all. revert s. induction chunks as [|c cs IH]; intros s H; cbn [fold_left].
  - exact H.
  - apply IH. constructor. exact H.
Qed.

End DuplicateFacts.

(** ** The toy instance of the crypto interface *)

Lemma len_repeat (x : byte) (n : nat) : len (repeat x n) = Z.of_nat n.
Proof.
  unfold len. rewrite repeat_length. reflexivity.
Qed.

Lemma toy_hmac_length (key message : Buffer) : len (Toy.hmac key message) = 32.
Proof. apply len_repeat. Qed.

Lemma toy_tag_length (key iv c : Buffer) : len (Toy.tag key iv c) = 16.
Proof. apply len_repeat. Qed.

Lemma toy_random_length (n : Z) : 0 <= n -> len (Toy.random n) = n.
Proof.
  intros Hn. unfold Toy.random. rewrite len_repeat. apply Z2Nat.id, Hn.
Qed.

Definition toy_crypto : NodeCrypto :=
  {| hmac_sha256 := Toy.hmac;
     aes256_keystream := Toy.keystream;
     gcm_tag := Toy.tag;
     randomBytes := Toy.random;
     hmac_sha256_length := toy_hmac_length;
     gcm_tag_length := toy_tag_length;
     randomBytes_length := toy_random_length |}.

(** ** Padding and encryption of packets *)

Module PaddingFacts.
Import NodeCipher CipherFacts.

Lemma concat_repeat_zero (k n : nat) :
  List.concat (repeat (repeat x00 n) k) = repeat x00 (k * n).
Proof.
  induction k as [|k IH]; cbn [repeat List.concat Nat.mul]; [reflexivity|].
  rewrite IH, repeat_app. reflexivity.
Qed.

Lemma slice_zero_bytes (r : Z) :
  0 <= r < 32 -> slice ZERO_BYTES 0 r = repeat x00 (Z.to_nat r).
Proof.
  intros Hr. unfold slice, clamp_index, ZERO_BYTES. rewrite len_repeat.
  replace (0 <? 0) with false by reflexivity.
  replace (r <? 0) with false by (symmetry; apply Z.ltb_ge; lia).
  rewrite Z.min_l, Z.min_l by lia. cbn [Z.to_nat skipn]. rewrite Nat.sub_0_r.
  replace 32%nat with (Z.to_nat r + (32 - Z.to_nat r))%nat at 1 by lia.
  rewrite repeat_app, firstn_app, repeat_length, Nat.sub_diag, firstn_O, app_nil_r.
  rewrite <- (repeat_length x00 (Z.to_nat r)) at 1. apply firstn_all.
Qed.

(** The arguments that [serializeAndEncrypt] hands to [encrypt] are the
    serialized packet followed by [paddingSize] zero bytes. *)
Lemma padding_args (serialized : Buffer) (paddingSize : Z) :
  0 <= paddingSize ->
  List.concat (([serialized] ++ repeat ZERO_BYTES (Z.to_nat (paddingSize / 32)))
                 ++ [slice ZERO_BYTES 0 (Z.rem paddingSize 32)])
  = serialized ++ repeat x00 (Z.to_nat paddingSize).
Proof.
  intros Hp. rewrite Z.rem_mod_nonneg by lia.
  pose proof (Z.mod_pos_bound paddingSize 32 ltac:(lia)) as Hm.
  pose proof (Z.div_mod paddingSize 32 ltac:(lia)) as Hd.
  pose proof (Z.div_pos paddingSize 32 ltac:(lia) ltac:(lia)) as Hq.
  rewrite slice_zero_bytes by exact Hm.
  rewrite !concat_app. cbn [List.concat]. rewrite !app_nil_r.
  unfold ZERO_BYTES. rewrite concat_repeat_zero, <- app_assoc, <- repeat_app.
  do 2 f_equal. lia.
Qed.

End PaddingFacts.

(** ** The server's address generator *)

Module ServerFacts.
Import Server.

Lemma connection_id_char_spec (c : ascii) :
  connection_id_char c = true <-> tag_char c.
Proof.
  assert (H : connection_id_char c
              = existsb (Ascii.eqb c) (list_ascii_of_string tag_alphabet)).
  { destruct c as [[] [] [] [] [] [] [] []]; vm_compute; reflexivity. }
  rewrite H, existsb_exists. unfold tag_char. split.
  - intros (x & Hin & Heq). apply Ascii.eqb_eq in Heq. subst x. exact Hin.
  - intros Hin. exists c. split; [exact Hin | apply Ascii.eqb_refl].
Qed.

Lemma CONNECTION_ID_REGEX_test_spec (s : string) :
  CONNECTION_ID_REGEX_test s = true <->
  s <> EmptyString /\ forall c, In c (list_ascii_of_string s) -> tag_char c.
Proof.
  destruct s as [|a s]; cbn [CONNECTION_ID_REGEX_test].
  - split; [discriminate | intros [H _]; congruence].
  - rewrite forallb_forall. split.
    + intros H. split; [discriminate|]. intros c Hc.
      apply connection_id_char_spec, H, Hc.
    + intros [_ H] c Hc. apply connection_id_char_spec, H, Hc.
Qed.

End ServerFacts.

(** ** The server's [base64url] is the encoding of RFC 4648 *)

Module Base64Facts.
Import Server ServerFacts TokenSpec.

Lemma list_ind3 (A : Type) (P : list A -> Prop) :
  P [] -> (forall a, P [a]) -> (forall a b, P [a; b]) ->
  (forall a b c l, P l -> P (a :: b :: c :: l)) ->
  forall l, P l.
Proof.
  intros H0 H1 H2 H3. fix IH 1. intros [|a [|b [|c l]]].
  - exact H0.
  - apply H1.
  - apply H2.
  - apply H3, IH.
Qed.

Lemma base64_digit_char (i : Z) : 0 <= i < 64 -> base64_char (base64_digit i) = true.
Proof.
  intros Hi.
  assert (H : forallb (fun k => base64_char (base64_digit (Z.of_nat k))) (seq 0 64) = true)
    by (vm_compute; reflexivity).
  rewrite forallb_forall in H. specialize (H (Z.to_nat i)).
  rewrite Z2Nat.id in H by lia. apply H, in_seq. lia.
Qed.

Lemma land_63 (x : Z) : 0 <= Z.land x 63 < 64.
Proof.
  change 63 with (Z.ones 6). rewrite Z.land_ones by lia.
  apply Z.mod_pos_bound. reflexivity.
Qed.

Lemma shiftr_18 (n : Z) : 0 <= n < 2 ^ 24 -> 0 <= Z.shiftr n 18 < 64.
Proof.
  intros Hn. rewrite Z.shiftr_div_pow2 by lia. split.
  - apply Z.div_pos; lia.
  - apply Z.div_lt_upper_bound; lia.
Qed.

Lemma base64_char_not_equals (c : ascii) :
  base64_char c = true -> Ascii.eqb c "=" = false.
Proof.
  destruct c as [[] [] [] [] [] [] [] []]; vm_compute; intros H;
    first [reflexivity | discriminate H].
Qed.

Lemma strip_cons (c : ascii) (s : string) :
  Ascii.eqb c "=" = false ->
  strip_trailing_equals (String c s) = String c (strip_trailing_equals s).
Proof.
  intros Hc. cbn [strip_trailing_equals].
  destruct (strip_trailing_equals s); [rewrite Hc|]; reflexivity.
Qed.

Lemma byte_triple (b0 b1 b2 : byte) :
  0 <= Z_of_byte b0 * 65536 < 2 ^ 24 /\
  0 <= Z_of_byte b0 * 65536 + Z_of_byte b1 * 256 < 2 ^ 24 /\
  0 <= Z_of_byte b0 * 65536 + Z_of_byte b1 * 256 + Z_of_byte b2 < 2 ^ 24.
Proof.
  pose proof (Z_of_byte_range b0). pose proof (Z_of_byte_range b1).
  pose proof (Z_of_byte_range b2). lia.
Qed.

(** Base64 without the padding: what [replace(/=+$/, '')] leaves. *)
Lemma strip_base64 (b : Buffer) :
  strip_trailing_equals (toString_base64 b) = base64_body b.
Proof.
  induction b as [|b0|b0 b1|b0 b1 b2 rest IH] using list_ind3;
    cbn [toString_base64 base64_body]; cbv zeta.
  - reflexivity.
  - destruct (byte_triple b0 b0 b0) as (H0 & _ & _).
    rewrite !strip_cons
      by (apply base64_char_not_equals, base64_digit_char;
          first [apply land_63 | apply shiftr_18; assumption]).
    reflexivity.
  - destruct (byte_triple b0 b1 b1) as (_ & H1 & _).
    rewrite !strip_cons
      by (apply base64_char_not_equals, base64_digit_char;
          first [apply land_63 | apply shiftr_18; assumption]).
    reflexivity.
  - destruct (byte_triple b0 b1 b2) as (_ & _ & H2).
    rewrite !strip_cons
      by (apply base64_char_not_equals, base64_digit_char;
          first [apply land_63 | apply shiftr_18; assumption]).
    rewrite IH. reflexivity.
Qed.

Lemma base64_body_chars (b : Buffer) :
  Forall (fun c => base64_char c = true) (list_ascii_of_string (base64_body b)).
Proof.
  induction b as [|b0|b0 b1|b0 b1 b2 rest IH] using list_ind3;
    cbn [base64_body list_ascii_of_string]; cbv zeta.
  - constructor.
  - destruct (byte_triple b0 b0 b0) as (H0 & _ & _).
    repeat constructor; apply base64_digit_char;
      first [apply land_63 | apply shiftr_18; assumption].
  - destruct (byte_triple b0 b1 b1) as (_ & H1 & _).
    repeat constructor; apply base64_digit_char;
      first [apply land_63 | apply shiftr_18; assumption].
  - destruct (byte_triple b0 b1 b2) as (_ & _ & H2).
    repeat (constructor; [apply base64_digit_char;
                          first [apply land_63 | apply shiftr_18; assumption]|]).
    exact IH.
Qed.

Lemma base64_body_length (b : Buffer) :
  String.length (base64_body b) = ((4 * List.length b + 2) / 3)%nat.
Proof.
  induction b as [|b0|b0 b1|b0 b1 b2 rest IH] using list_ind3;
    cbn [base64_body String.length List.length]; cbv zeta;
    cbn [String.length]; try reflexivity.
  rewrite IH.
  replace (4 * S (S (S (List.length rest))) + 2)%nat
    with ((4 * List.length rest + 2) + 4 * 3)%nat by lia.
  rewrite Nat.div_add by lia. lia.
Qed.

Lemma replace_all_chars (x y : ascii) (s : string) :
  list_ascii_of_string (replace_all x y s)
  = map (fun c => if Ascii.eqb c x then y else c) (list_ascii_of_string s).
Proof.
  induction s as [|c s IH]; cbn [replace_all list_ascii_of_string map];
    [reflexivity | rewrite IH; reflexivity].
Qed.

Lemma replace_all_length (x y : ascii) (s : string) :
  String.length (replace_all x y s) = String.length s.
Proof.
  induction s as [|c s IH]; cbn [replace_all String.length];
    [reflexivity | rewrite IH; reflexivity].
Qed.

Lemma url_of_base64 (c : ascii) :
  base64_char c = true ->
  let c1 := if Ascii.eqb c "+" then "-"%char else c in
  url_char (if Ascii.eqb c1 "/" then "_"%char else c1).
Proof.
  destruct c as [[] [] [] [] [] [] [] []]; vm_compute; intros H;
    first [discriminate H | tauto].
Qed.

Lemma url_char_tag_char (c : ascii) : url_char c -> tag_char c /\ c <> "."%char.
Proof.
  unfold url_char, tag_char. intros H.
  assert (Hb : existsb (Ascii.eqb c) (list_ascii_of_string url_alphabet) = true)
    by (apply existsb_exists; exists c; split; [exact H | apply Ascii.eqb_refl]).
  clear H. revert Hb.
  destruct c as [[] [] [] [] [] [] [] []]; vm_compute; intros H;
    first [discriminate H | split; [tauto | discriminate]].
Qed.

Lemma tag_char_not_dot (c : ascii) : tag_char c -> c <> "."%char.
Proof.
  intros H. apply connection_id_char_spec in H. intros ->. discriminate H.
Qed.

Lemma length_list_ascii (s : string) :
  List.length (list_ascii_of_string s) = String.length s.
Proof.
  induction s as [|c s IH]; cbn; [reflexivity | rewrite IH; reflexivity].
Qed.

Lemma base64url_chars (buffer : Buffer) (c : ascii) :
  In c (list_ascii_of_string (base64url buffer)) -> url_char c.
Proof.
  unfold base64url. rewrite strip_base64, !replace_all_chars, map_map.
  intros H. apply in_map_iff in H. destruct H as (c0 & <- & Hin).
  pose proof (base64_body_chars buffer) as Hall. rewrite Forall_forall in Hall.
  exact (@url_of_base64 c0 (Hall c0 Hin)).
Qed.

Lemma base64url_length (buffer : Buffer) :
  String.length (base64url buffer) = ((4 * List.length buffer + 2) / 3)%nat.
Proof.
  unfold base64url. rewrite strip_base64, !replace_all_length. apply base64_body_length.
Qed.

Lemma base64url_regex (buffer : Buffer) :
  buffer <> [] -> CONNECTION_ID_REGEX_test (base64url buffer) = true.
Proof.
  intros Hne. apply CONNECTION_ID_REGEX_test_spec. split.
  - intros E. apply (f_equal String.length) in E. rewrite base64url_length in E.
    destruct buffer as [|x rest]; [congruence|].
    cbn [List.length String.length] in E.
    assert (H : (1 <= (4 * S (List.length rest) + 2) / 3)%nat)
      by (apply Nat.div_le_lower_bound; lia).
    lia.
  - intros c Hc. apply base64url_chars in Hc. apply url_char_tag_char, Hc.
Qed.







End Base64Facts.

(** ** The definitions, run on small inputs *)

Example serialize_empty_packet :
  Packet._serialize (Packet.mk 0 IlpPacketType.Prepare 0 [])
  = Some (map byte_of_Z [1; 12; 1; 0; 1; 0; 1; 0]).
Proof. vm_compute. reflexivity. Qed.

Example serialize_stream_data :
  Packet._serialize
    (Packet.mk 300 IlpPacketType.Fulfill 0
               [StreamDataFrame 123 456 (buffer_of_string "foobar")])
  = Some (map byte_of_Z [1; 13; 2; 1; 44; 1; 0; 1; 1;
                         0x14; 12; 1; 123; 2; 1; 200; 6]
          ++ buffer_of_string "foobar").
Proof. vm_compute. reflexivity. Qed.

Example long_length_prefix :
  Oer.writeVarOctetString (repeat x01 200) []
  = Some (map byte_of_Z [0x81; 200] ++ repeat x01 200).
Proof. vm_compute. reflexivity. Qed.

Example non_canonical_length_prefix :
  Oer.readVarOctetString (map byte_of_Z [0x81; 3; 1; 2; 3]) = None.
Proof. vm_compute. reflexivity. Qed.

Example base64url_example :
  Server.base64url (map byte_of_Z [0; 1; 2; 3; 250; 251; 252; 253; 254; 255; 62])
  = "AAECA_r7_P3-_z4"%string.
Proof. vm_compute. reflexivity. Qed.

Example sorter_out_of_order :
  SorterSpec.returned 4
    (OffsetSorter.push_all [(2, [x02]); (0, [x00; x01]); (3, [x03])] OffsetSorter.new)
  = [Some [x00; x01]; Some [x02]; Some [x03]; None].
Proof. vm_compute. reflexivity. Qed.

Example negative_padding :
  slice ZERO_BYTES 0 (Z.rem (-5) 32) = repeat x00 27.
Proof. vm_compute. reflexivity. Qed.

(** * The claims of the specification *)

Ltac range_tac :=
  cbn [Frame_valid];
  cbv [uint64 uint8 buffer_ok MAX_UINT64 MAX_LENGTH MAX_ARRAY_LENGTH len
       IlpPacketType.Prepare];
  cbn; try lia; try congruence.

Lemma example_packet_valid : Packet_valid example_packet.
Proof.
  unfold Packet_valid, example_packet. cbn [Packet.sequence Packet.ilpPacketType
    Packet.prepareAmount Packet.frames].
  repeat split; try solve [range_tac]; repeat constructor; range_tac.
Defined.

(** C1. For every packet whose fields are in-range unsigned integers and
    whose frames are frames of the typed kinds, [Packet._serialize] succeeds
    and [Packet._deserializeUnencrypted] of the bytes it wrote returns the
    packet itself: the same sequence, type, amount and frames, field by
    field and in the same order. *)
Theorem packet_roundtrip (p : Packet.t) :
  Packet_valid p ->
  exists buffer : Buffer,
    Packet._serialize p = Some buffer /\
    Packet._deserializeUnencrypted buffer = Some p.
Proof.
  intros Hv. destruct (@PacketFacts.serialize_deserialize p Hv) as (b & Hs & Hd).
  exists b. split; [exact Hs|]. rewrite <- (app_nil_r b). apply Hd.
Qed.

Lemma packet_roundtrip_witness :
  Packet_valid example_packet /\
  exists buffer : Buffer,
    Packet._serialize example_packet = Some buffer /\
    Packet._deserializeUnencrypted buffer = Some example_packet.
Proof.
  split; [exact example_packet_valid|].
  apply (@packet_roundtrip example_packet). exact example_packet_valid.
Defined.

(** C4. A frame of a type byte that the parser has no class for (0xFE is
    one), with any contents, inserted anywhere into the frame list of a
    valid packet before it is serialized, leaves a buffer that still
    deserializes, to exactly the frames of the packet in their order. *)
Theorem unknown_frame_skipped (p : Packet.t) (before after : list Frame)
        (type : Z) (contents : Buffer) :
  Packet_valid p ->
  Packet.frames p = before ++ after ->
  uint8 type -> Wire.unknown_type type = true -> buffer_ok contents ->
  exists buffer : Buffer,
    Wire.serialize (Packet.sequence p) (Packet.ilpPacketType p) (Packet.prepareAmount p)
                   (map Wire.Typed before ++ Wire.Untyped type contents :: map Wire.Typed after)
    = Some buffer /\
    Packet._deserializeUnencrypted buffer = Some p.
Proof.
  intros (Hs & Ht & Ha & Hn & Hfs) Hsplit Htype Hunknown Hcontents.
  rewrite Hsplit in Hn, Hfs. apply Forall_app in Hfs. destruct Hfs as [Hb Haf].
  destruct (@PacketFacts.Wire_serialize_roundtrip
              (Packet.sequence p) (Packet.ilpPacketType p) (Packet.prepareAmount p)
              (map Wire.Typed before ++ Wire.Untyped type contents :: map Wire.Typed after))
    as (b & Hser & Hde); try assumption.
  - rewrite length_app in *. cbn [List.length]. rewrite !length_map.
    unfold MAX_ARRAY_LENGTH in Hn. unfold MAX_UINT64. lia.
  - apply Forall_app. split; [apply PacketFacts.valid_typed, Hb|].
    constructor; [|apply PacketFacts.valid_typed, Haf].
    cbn [Wire.frame_valid]. split; [exact Htype|]. split; [exact Hunknown | exact Hcontents].
  - exists b. split; [exact Hser|].
    rewrite <- (app_nil_r b), Hde. f_equal.
    assert (Hrec : Wire.recognized_frames
                     (map Wire.Typed before ++ Wire.Untyped type contents :: map Wire.Typed after)
                   = before ++ after).
    { clear. induction before as [|f fs IH]; cbn.
      - apply PacketFacts.recognized_typed.
      - rewrite IH. reflexivity. }
    rewrite Hrec, <- Hsplit. destruct p; reflexivity.
Qed.

Lemma unknown_frame_skipped_witness :
  exists buffer : Buffer,
    Wire.serialize 300 IlpPacketType.Prepare 77
                   (map Wire.Typed [ConnectionNewAddressFrame "example.alice";
                                    StreamMoneyFrame 1 1000]
                    ++ Wire.Untyped 0xFE (buffer_of_string "anything")
                    :: map Wire.Typed [StreamMaxMoneyFrame 1 MAX_UINT64 456;
                                       StreamDataFrame 1 0 (buffer_of_string "foobar");
                                       StreamCloseFrame 1 (Some NoError) "";
                                       ConnectionCloseFrame (Some ApplicationError) "fail"])
    = Some buffer /\
    Packet._deserializeUnencrypted buffer = Some example_packet.
Proof.
  apply (@unknown_frame_skipped example_packet
           [ConnectionNewAddressFrame "example.alice"; StreamMoneyFrame 1 1000]
           [StreamMaxMoneyFrame 1 MAX_UINT64 456;
            StreamDataFrame 1 0 (buffer_of_string "foobar");
            StreamCloseFrame 1 (Some NoError) "";
            ConnectionCloseFrame (Some ApplicationError) "fail"]
           0xFE (buffer_of_string "anything")).
  - exact example_packet_valid.
  - reflexivity.
  - range_tac.
  - reflexivity.
  - range_tac.
Defined.

(** C5, as the code has it: the frames of type 0x07 and 0x17 are dropped;
    the packets that hold one deserialize to a packet without frames. *)
Lemma asset_details_and_receipt_dropped :
  Packet._deserializeUnencrypted asset_details_packet = Some (Packet.mk 0 12 0 []) /\
  Packet._deserializeUnencrypted stream_receipt_packet = Some (Packet.mk 0 12 0 []).
Proof.
  split; vm_compute; reflexivity.
Qed.

(** C5, amended.  The frame types that protocol.ts declares, 0x01 to 0x06
    and 0x10 to 0x16, are decoded into the typed frame with the fields that
    were written; a frame of type 0x07 or 0x17 has no class in protocol.ts
    and is read as a type byte and an octet string and skipped. *)
Theorem frame_catalog :
  (forall f : Frame,
      Frame_valid f ->
      exists bs : Buffer,
        Frames.writeTo f [] = Some bs /\
        Oer.peekUInt8BigNum bs = Some (FrameType_value (Frame_type f)) /\
        forall rest, Frames.parseFrame (bs ++ rest) = Some (Some f, rest)) /\
  (forall (type : Z) (contents : Buffer),
      type = 0x07 \/ type = 0x17 ->
      buffer_ok contents ->
      exists bs : Buffer,
        Wire.writeTo (Wire.Untyped type contents) [] = Some bs /\
        forall rest, Frames.parseFrame (bs ++ rest) = Some (None, rest)).
Proof.
  split.
  - intros f Hv. destruct (@FrameFacts.Frame_roundtrip_typed f Hv) as (bs & W & R).
    exists bs. split; [apply (W [])|]. split.
    + rewrite <- (app_nil_r bs). apply R.
    + intros rest. apply R.
  - intros type contents Htype Hc.
    destruct (@PacketFacts.untyped_roundtrip type contents) as (bs & W & R).
    + destruct Htype as [->| ->]; range_tac.
    + destruct Htype as [->| ->]; reflexivity.
    + exact Hc.
    + exists bs. split; [apply (W [])| exact R].
Qed.

Lemma frame_catalog_witness :
  (exists bs : Buffer,
      Frames.writeTo (StreamMoneyFrame 1 1000) [] = Some bs /\
      Oer.peekUInt8BigNum bs = Some 0x11 /\
      forall rest, Frames.parseFrame (bs ++ rest) = Some (Some (StreamMoneyFrame 1 1000), rest)) /\
  (exists bs : Buffer,
      Wire.writeTo (Wire.Untyped 0x07 (map byte_of_Z [3; 65; 66; 67; 9])) [] = Some bs /\
      forall rest, Frames.parseFrame (bs ++ rest) = Some (None, rest)).
Proof.
  split.
  - apply (proj1 frame_catalog (StreamMoneyFrame 1 1000)). cbn. split; range_tac.
  - apply (proj2 frame_catalog 0x07 (map byte_of_Z [3; 65; 66; 67; 9])).
    + left. reflexivity.
    + range_tac.
Defined.

(** C2. With a 32-byte key, [encrypt] returns the 12-byte IV it drew, then
    the 16-byte authentication tag, then a ciphertext as long as all the
    plaintext buffers together, 28 bytes more than the plaintext in all, and
    [decrypt] with the same key returns the plaintext. *)
Theorem encrypt_decrypt {NC : NodeCrypto} (key : Buffer) (buffers : list Buffer) :
  len key = 32 ->
  let plaintext := List.concat buffers in
  let iv := randomBytes IV_LENGTH in
  exists tag ciphertext : Buffer,
    CryptoAsync.encrypt key buffers = Some (iv ++ tag ++ ciphertext) /\
    len iv = 12 /\ len tag = 16 /\ len ciphertext = len plaintext /\
    len (iv ++ tag ++ ciphertext) = len plaintext + 28 /\
    CryptoAsync.decrypt key (iv ++ tag ++ ciphertext) = Some plaintext.
Proof.
  intros Hkey plaintext iv.
  destruct (@CipherFacts.seal_open NC key buffers Hkey) as (He & Hiv & Htag & Hct & Hd).
  eexists. eexists. split; [exact He|].
  split; [exact Hiv|]. split; [exact Htag|]. split; [exact Hct|].
  split; [|exact Hd].
  subst plaintext iv. rewrite !len_app, Hiv, Htag, Hct. lia.
Qed.

Lemma encrypt_decrypt_witness :
  let key := repeat "k"%byte 32 in
  let buffers := [buffer_of_string "hello, "; buffer_of_string "world"] in
  len key = 32 /\
  exists tag ciphertext : Buffer,
    CryptoAsync.encrypt (NC := toy_crypto) key buffers
    = Some (randomBytes (NodeCrypto := toy_crypto) IV_LENGTH ++ tag ++ ciphertext) /\
    len (randomBytes (NodeCrypto := toy_crypto) IV_LENGTH) = 12 /\
    len tag = 16 /\ len ciphertext = len (List.concat buffers) /\
    len (randomBytes (NodeCrypto := toy_crypto) IV_LENGTH ++ tag ++ ciphertext)
    = len (List.concat buffers) + 28 /\
    CryptoAsync.decrypt (NC := toy_crypto) key
                        (randomBytes (NodeCrypto := toy_crypto) IV_LENGTH ++ tag ++ ciphertext)
    = Some (List.concat buffers).
Proof.
  intros key buffers. split; [reflexivity|].
  apply (@encrypt_decrypt toy_crypto key buffers). reflexivity.
Defined.

(** C3, as the code has it: a stream id that does not fit one byte makes
    the writer throw, and no receipt is returned. *)
Lemma createReceipt_streamId_256 :
  Receipt.createReceipt (NC := toy_crypto)
    (Receipt.mkOpts (repeat x00 16) 256 500 (repeat x00 32))
  = Throw OerError.
Proof.
  vm_compute. reflexivity.
Qed.

(** C3, amended.  For a 16-byte nonce, a 32-byte secret, a stream id from 0
    to 255 and a total below 2^64, [createReceipt] returns 58 bytes: the
    version byte 1, the nonce, the stream id as one byte, the total as eight
    big-endian bytes, and the HMAC-SHA256 of these first 26 bytes under the
    secret; [decodeReceipt] reads version, nonce, stream id and total back. *)
Theorem createReceipt_layout {NC : NodeCrypto} (opts : Receipt.ReceiptOpts) :
  len (Receipt.opts_nonce opts) = 16 ->
  len (Receipt.opts_secret opts) = 32 ->
  0 <= Receipt.opts_streamId opts <= 255 ->
  0 <= Receipt.opts_totalReceived opts < 2 ^ 64 ->
  let message :=
      [x01] ++ Receipt.opts_nonce opts
            ++ [byte_of_Z (Receipt.opts_streamId opts)]
            ++ be_encode 8 (Receipt.opts_totalReceived opts) in
  let receipt := message ++ hmac_sha256 (Receipt.opts_secret opts) message in
  Receipt.createReceipt opts = Ok receipt /\
  len message = 26 /\ len receipt = 58 /\
  Receipt.decodeReceipt receipt
  = Ok (Receipt.mkReceipt 1 (Receipt.opts_nonce opts) (Receipt.opts_streamId opts)
                          (Receipt.opts_totalReceived opts)).
Proof.
  intros Hn Hs Hid Ht message receipt.
  pose proof (@ReceiptFacts.receipt_message_length
                (Receipt.opts_nonce opts) (Receipt.opts_streamId opts)
                (Receipt.opts_totalReceived opts) Hn) as Hlen.
  change (ReceiptSpec.receipt_message (Receipt.opts_nonce opts)
            (Receipt.opts_streamId opts) (Receipt.opts_totalReceived opts))
    with message in Hlen.
  split; [apply (@ReceiptFacts.createReceipt_value NC opts Hn Hs Hid Ht)|].
  split; [exact Hlen|]. split.
  - unfold receipt. rewrite len_app, Hlen, hmac_sha256_length. reflexivity.
  - apply ReceiptFacts.decodeReceipt_value; try assumption.
    apply hmac_sha256_length.
Qed.

Lemma createReceipt_layout_witness :
  let opts := Receipt.mkOpts (repeat x00 16) 1 500 (repeat x00 32) in
  let message := [x01] ++ repeat x00 16 ++ [byte_of_Z 1] ++ be_encode 8 500 in
  let receipt := message ++ hmac_sha256 (NodeCrypto := toy_crypto) (repeat x00 32) message in
  Receipt.createReceipt (NC := toy_crypto) opts = Ok receipt /\
  len message = 26 /\ len receipt = 58 /\
  Receipt.decodeReceipt receipt
  = Ok (Receipt.mkReceipt 1 (repeat x00 16) 1 500).
Proof.
  intros opts message receipt.
  apply (@createReceipt_layout toy_crypto opts); cbn; try reflexivity; lia.
Defined.

(** C7. [decodeReceipt] throws on every buffer that is not 58 bytes long;
    [verifyReceipt] answers [false] when the buffer is not 58 bytes long,
    when its first byte is not the version 1, or when its last 32 bytes are
    not the HMAC-SHA256 of its first 26 bytes under the secret; it answers
    [true] for every receipt that [createReceipt] made with that secret. *)
Theorem receipt_checks {NC : NodeCrypto} :
  (forall receipt : Buffer,
      len receipt <> 58 ->
      Receipt.decodeReceipt receipt = Throw (Error "receipt must be 58 bytes")) /\
  (forall receipt secret : Buffer,
      len receipt <> 58 \/
      hd_error receipt <> Some x01 \/
      skipn (List.length receipt - 32) receipt <> hmac_sha256 secret (firstn 26 receipt) ->
      Receipt.verifyReceipt receipt secret = false) /\
  (forall (opts : Receipt.ReceiptOpts) (receipt : Buffer),
      Receipt.createReceipt opts = Ok receipt ->
      Receipt.verifyReceipt receipt (Receipt.opts_secret opts) = true).
Proof.
  split; [|split].
  - intros receipt Hlen. unfold Receipt.decodeReceipt.
    replace (len receipt =? 58) with false by (symmetry; apply Z.eqb_neq; exact Hlen).
    reflexivity.
  - intros receipt secret H.
    destruct (Receipt.verifyReceipt receipt secret) eqn:E; [|reflexivity].
    apply ReceiptFacts.verifyReceipt_true_iff in E. destruct E as (Hlen & Hv & Hmac).
    exfalso. destruct H as [H|[H|H]].
    + apply H, Hlen.
    + apply H. exact Hv.
    + apply H. replace (List.length receipt - 32)%nat with 26%nat
        by (unfold len in Hlen; lia).
      exact Hmac.
  - intros opts receipt Hc.
    assert (Hvalid : len (Receipt.opts_nonce opts) = 16 /\
                     len (Receipt.opts_secret opts) = 32 /\
                     0 <= Receipt.opts_streamId opts <= 255 /\
                     0 <= Receipt.opts_totalReceived opts < 2 ^ 64).
    { unfold Receipt.createReceipt in Hc.
      destruct (len (Receipt.opts_nonce opts) =? 16) eqn:E1; [|discriminate Hc].
      destruct (len (Receipt.opts_secret opts) =? 32) eqn:E2; [|discriminate Hc].
      cbn [negb] in Hc. apply Z.eqb_eq in E1, E2.
      unfold Oer.writeUInt8 at 1 in Hc.
      rewrite OerFacts.writeUInt_eq in Hc by (unfold Receipt.RECEIPT_VERSION; simpl; lia).
      cbn [oer rbind] in Hc. unfold Oer.writeOctetString at 1 in Hc.
      rewrite E1 in Hc. cbn [Z.eqb Pos.eqb oer rbind] in Hc.
      unfold Oer.writeUInt8, Oer.writeUInt in Hc.
      destruct ((0 <=? Receipt.opts_streamId opts)
                && (Receipt.opts_streamId opts <? 256 ^ Z.of_nat 1)) eqn:E3;
        [|discriminate Hc].
      cbn [oer rbind] in Hc. unfold Receipt.longFromValue in Hc.
      destruct ((0 <=? Receipt.opts_totalReceived opts)
                && (Receipt.opts_totalReceived opts <? 2 ^ 64)) eqn:E4;
        [|discriminate Hc].
      apply andb_true_iff in E3, E4. destruct E3 as [E3 E3'], E4 as [E4 E4'].
      apply Z.leb_le in E3, E4. apply Z.ltb_lt in E3', E4'.
      change (256 ^ Z.of_nat 1) with 256 in E3'. repeat split; lia. }
    destruct Hvalid as (Hn & Hs & Hid & Ht).
    pose proof (@ReceiptFacts.createReceipt_value NC opts Hn Hs Hid Ht) as Hval.
    cbv zeta in Hval.
    pose proof (@ReceiptFacts.receipt_message_length
                  (Receipt.opts_nonce opts) (Receipt.opts_streamId opts)
                  (Receipt.opts_totalReceived opts) Hn) as Hlen.
    set (message := ReceiptSpec.receipt_message _ _ _) in *.
    assert (Hr : receipt = message ++ hmac_sha256 (Receipt.opts_secret opts) message)
      by congruence.
    rewrite Hr. clear Hr Hc Hval.
    apply ReceiptFacts.verifyReceipt_true_iff.
    split; [rewrite len_app, Hlen, hmac_sha256_length; reflexivity|].
    split; [reflexivity|].
    assert (Hl : List.length message = 26%nat) by (unfold len in Hlen; lia).
    rewrite <- Hl at 1 2. rewrite skipn_app, Nat.sub_diag, skipn_all.
    rewrite firstn_app, Nat.sub_diag, firstn_all, firstn_O, app_nil_r. reflexivity.
Qed.

Lemma receipt_checks_witness :
  Receipt.decodeReceipt (repeat x00 32)
  = Throw (Error "receipt must be 58 bytes") /\
  Receipt.verifyReceipt (NC := toy_crypto) (repeat x00 57) (repeat x00 32) = false /\
  Receipt.verifyReceipt (NC := toy_crypto) (repeat x00 58) (repeat x00 32) = false /\
  (forall receipt,
      Receipt.createReceipt (NC := toy_crypto)
        (Receipt.mkOpts (repeat x00 16) 1 500 (repeat x00 32)) = Ok receipt ->
      Receipt.verifyReceipt (NC := toy_crypto) receipt (repeat x00 32) = true).
Proof.
  destruct (@receipt_checks toy_crypto) as (Hdecode & Hfalse & Htrue).
  split; [|split; [|split]].
  - apply Hdecode. vm_compute. discriminate.
  - apply Hfalse. left. vm_compute. discriminate.
  - apply Hfalse. right. left. vm_compute. discriminate.
  - intros receipt Hc.
    apply (Htrue (Receipt.mkOpts (repeat x00 16) 1 500 (repeat x00 32)) receipt Hc).
Defined.

(** C6, as the code has it: an empty chunk can block the queue.  The chunks
    "", "a" and "b" at the offsets 0, 0 and 1 cover the two bytes "ab"
    without overlap.  Pushed in the order "a", "", "b", the empty chunk is
    queued behind "a", whose offset it shares; when "a" has been read it is
    at the head with an offset below the read offset, and [read] returns
    [undefined]: "b" is not returned. *)
Lemma empty_chunk_blocks_reads :
  let pieces := [[]; ["a"%byte]; ["b"%byte]] in
  let pushed := [(0, ["a"%byte]); (0, []); (1, ["b"%byte])] in
  Permutation pushed (SorterSpec.chunks_from 0 pieces) /\
  List.concat pieces = ["a"%byte; "b"%byte] /\
  SorterSpec.returned 5 (OffsetSorter.push_all pushed OffsetSorter.new)
  = [Some ["a"%byte]; None; None; None; None].
Proof.
  cbv zeta. split; [|split].
  - cbn [SorterSpec.chunks_from]. change (0 + len []) with 0.
    change (0 + len ["a"%byte]) with 1. apply perm_swap.
  - reflexivity.
  - vm_compute. reflexivity.
Qed.

(** C6, amended.  On a sorter that calls of its methods have led to, [read]
    returns a chunk exactly when the smallest queued offset is the read
    offset, and then moves the read offset on by the length of the chunk.
    So when the pieces of a run of bytes, none of them empty, are pushed
    with their offsets in any order, the calls of [read] return the pieces
    one after the other, first to last, each once, and [undefined] from
    then on; put together they are the run of bytes. *)
Theorem offset_sorter_reassembles :
  (forall s : OffsetSorter.t,
      SorterSpec.reachable s ->
      ((exists chunk, fst (OffsetSorter.read s) = Some chunk)
       <-> SorterSpec.smallest_offset s = Some (OffsetSorter.readOffset s)) /\
      (forall chunk,
          fst (OffsetSorter.read s) = Some chunk ->
          OffsetSorter.readOffset (snd (OffsetSorter.read s))
          = OffsetSorter.readOffset s + len chunk)) /\
  (forall (original : Buffer) (pieces : list Buffer) (pushed : list (Z * Buffer)),
      List.concat pieces = original ->
      Forall (fun p => p <> []) pieces ->
      Permutation pushed (SorterSpec.chunks_from 0 pieces) ->
      forall k : nat,
        exists chunks : list Buffer,
          SorterSpec.returned (List.length pieces + k)
                              (OffsetSorter.push_all pushed OffsetSorter.new)
          = map Some chunks ++ repeat None k /\
          chunks = pieces /\
          List.concat chunks = original).
Proof.
  split.
  - intros s Hr. destruct (@SorterFacts.read_spec s Hr) as (H1 & H2 & _).
    split; assumption.
  - intros original pieces pushed Ho Hne Hp k. exists pieces.
    split; [|split; [reflexivity | exact Ho]].
    destruct (@TilingFacts.push_all_tiling pieces pushed Hne Hp) as (Hh & Hr).
    rewrite SorterFacts.read_n_drain. cbv zeta.
    rewrite Hh, Hr, TilingFacts.drain_chunks.
    rewrite firstn_all2 by lia.
    replace (List.length pieces + k - List.length pieces)%nat with k by lia.
    reflexivity.
Qed.

Lemma offset_sorter_reassembles_witness :
  let pieces := [buffer_of_string "he"; buffer_of_string "llo"; buffer_of_string "!"] in
  let pushed := [(2, buffer_of_string "llo"); (5, buffer_of_string "!");
                 (0, buffer_of_string "he")] in
  exists chunks : list Buffer,
    SorterSpec.returned 5 (OffsetSorter.push_all pushed OffsetSorter.new)
    = map Some chunks ++ [None; None] /\
    chunks = pieces /\
    List.concat chunks = buffer_of_string "hello!".
Proof.
  intros pieces pushed.
  apply (proj2 offset_sorter_reassembles (buffer_of_string "hello!") pieces pushed
               eq_refl).
  - repeat constructor; discriminate.
  - apply Permutation_sym.
    apply (Permutation_cons_app
             [(2, buffer_of_string "llo"); (5, buffer_of_string "!")] []
             (0, buffer_of_string "he")).
    apply Permutation_refl.
Defined.

(** C9, as the code has it: the second copy of a chunk stays in the queue.
    With chunks "a" at 0 and "b" at 1, the reads return "a" and "b"; with
    "a" pushed twice they return "a" and then nothing, the second copy of
    "a" being at the head with an offset below the read offset. *)
Lemma duplicate_push_changes_reads :
  SorterSpec.returned 2
    (OffsetSorter.push_all [(0, ["a"%byte]); (1, ["b"%byte])] OffsetSorter.new)
  = [Some ["a"%byte]; Some ["b"%byte]] /\
  SorterSpec.returned 2
    (OffsetSorter.push_all [(0, ["a"%byte]); (0, ["a"%byte]); (1, ["b"%byte])]
                           OffsetSorter.new)
  = [Some ["a"%byte]; None].
Proof.
  split; vm_compute; reflexivity.
Qed.

(** C9, amended.  Pushing a chunk with data a second time is not
    idempotent: the copy is queued behind the first one.  What holds for
    every sequence of pushes is that the reads after the repeated push
    return nothing new and nothing in another place: whenever the k-th call
    of [read] returns a chunk, the k-th call after the single push returns
    that chunk too. *)
Theorem duplicate_push_prefix (before between after : list (Z * Buffer))
        (chunk : Z * Buffer) (n k : nat) (x : Buffer) :
  snd chunk <> [] ->
  nth_error
    (SorterSpec.returned n
       (OffsetSorter.push_all (before ++ [chunk] ++ between ++ [chunk] ++ after)
                              OffsetSorter.new)) k = Some (Some x) ->
  nth_error
    (SorterSpec.returned n
       (OffsetSorter.push_all (before ++ [chunk] ++ between ++ after)
                              OffsetSorter.new)) k = Some (Some x).
Proof.
  intros Hdata.
  set (c := SorterSpec.entry_of chunk).
  set (s1 := OffsetSorter.push_all (before ++ [chunk] ++ between) OffsetSorter.new).
  assert (Hreach : SorterSpec.reachable s1)
    by (apply DuplicateFacts.push_all_reachable; constructor).
  assert (Hin : In c (OffsetSorter.head s1)).
  { destruct (TilingFacts.push_all_head (before ++ [chunk] ++ between) OffsetSorter.new)
      as (Hp & _ & _).
    eapply Permutation_in; [apply Permutation_sym, Hp|].
    apply in_or_app. left. apply in_map. apply in_or_app. right. left. reflexivity. }
  assert (Htwin : SorterSpec.twin c
                    (OffsetSorter.head (OffsetSorter.push_all after s1))
                    (OffsetSorter.head
                       (OffsetSorter.push_all after
                          (OffsetSorter.push (snd chunk) (fst chunk) s1)))).
  { apply DuplicateFacts.twin_push_all. rewrite SorterFacts.push_head.
    apply DuplicateFacts.twin_start; [apply SorterFacts.reachable_sorted, Hreach | exact Hin]. }
  assert (E2 : OffsetSorter.push_all (before ++ [chunk] ++ between ++ [chunk] ++ after)
                                     OffsetSorter.new
               = OffsetSorter.push_all after
                   (OffsetSorter.push (snd chunk) (fst chunk) s1)).
  { change (OffsetSorter.push (snd chunk) (fst chunk) s1)
      with (OffsetSorter.push_all [chunk] s1).
    unfold s1. rewrite <- !DuplicateFacts.push_all_app, <- !app_assoc. reflexivity. }
  assert (E1 : OffsetSorter.push_all (before ++ [chunk] ++ between ++ after)
                                     OffsetSorter.new
               = OffsetSorter.push_all after s1).
  { unfold s1. rewrite <- DuplicateFacts.push_all_app, <- !app_assoc. reflexivity. }
  rewrite E1, E2. intros H.
  apply SorterFacts.returned_nth in H. apply SorterFacts.returned_nth.
  destruct H as [Hk Hnth]. split; [exact Hk|].
  destruct (TilingFacts.push_all_head after s1) as (_ & _ & Hr1).
  destruct (TilingFacts.push_all_head after (OffsetSorter.push (snd chunk) (fst chunk) s1))
    as (_ & _ & Hr2).
  rewrite Hr1. rewrite Hr2, SorterFacts.push_readOffset in Hnth.
  destruct Htwin as (A & B & EA & EB & HinA & HA).
  rewrite EA. rewrite EB in Hnth.
  destruct (@DuplicateFacts.drain_twin c A B (OffsetSorter.readOffset s1) Hdata HA
              (or_introl HinA)) as (rest & Hrest).
  rewrite Hrest. rewrite nth_error_app1; [exact Hnth|].
  apply nth_error_Some. congruence.
Qed.

Lemma duplicate_push_prefix_witness :
  nth_error
    (SorterSpec.returned 3
       (OffsetSorter.push_all ([(1, ["b"%byte])] ++ [(0, ["a"%byte])] ++ []
                                 ++ [(0, ["a"%byte])] ++ [(2, ["c"%byte])])
                              OffsetSorter.new)) 0 = Some (Some ["a"%byte]) /\
  nth_error
    (SorterSpec.returned 3
       (OffsetSorter.push_all ([(1, ["b"%byte])] ++ [(0, ["a"%byte])] ++ []
                                 ++ [(2, ["c"%byte])])
                              OffsetSorter.new)) 0 = Some (Some ["a"%byte]).
Proof.
  split; [vm_compute; reflexivity|].
  apply (@duplicate_push_prefix [(1, ["b"%byte])] [] [(2, ["c"%byte])]
                                (0, ["a"%byte]) 3 0 ["a"%byte]).
  - discriminate.
  - vm_compute. reflexivity.
Defined.



(** C10. The parser reads the frames that the header counts and nothing
    after them: a serialized valid packet followed by any bytes, zero bytes
    among them, deserializes to the packet.  So when [padPacketToSize] is at
    least the serialized length plus 28, [serializeAndEncrypt] returns
    exactly [padPacketToSize] bytes, and [decryptAndDeserialize] with the
    same secret returns the packet. *)
Theorem padding_ignored {NC : NodeCrypto} (p : Packet.t) :
  Packet_valid p ->
  exists serialized : Buffer,
    Packet._serialize p = Some serialized /\
    (forall trailing : Buffer,
        Packet._deserializeUnencrypted (serialized ++ trailing)
        = Packet._deserializeUnencrypted serialized) /\
    (forall n : nat,
        Packet._deserializeUnencrypted (serialized ++ repeat x00 n) = Some p) /\
    (forall (sharedSecret : Buffer) (padPacketToSize : Z),
        len serialized + 28 <= padPacketToSize ->
        exists encrypted : Buffer,
          Packet.serializeAndEncrypt p sharedSecret (Some padPacketToSize) = Some encrypted /\
          len encrypted = padPacketToSize /\
          Packet.decryptAndDeserialize sharedSecret encrypted = Some p).
Proof.
  intros Hv. destruct (@PacketFacts.serialize_deserialize p Hv) as (b & Hs & Hd).
  exists b. split; [exact Hs|]. split; [|split].
  - intros trailing. rewrite Hd. rewrite <- (app_nil_r b) at 1. rewrite Hd. reflexivity.
  - intros n. apply Hd.
  - intros sharedSecret pad Hpad.
    unfold Packet.serializeAndEncrypt. rewrite Hs. cbn [obind].
    set (paddingSize := pad - ENCRYPTION_OVERHEAD - len b).
    assert (Hps : 0 <= paddingSize) by (unfold paddingSize, ENCRYPTION_OVERHEAD; lia).
    set (args := ([b] ++ repeat ZERO_BYTES (Z.to_nat (paddingSize / 32)))
                   ++ [slice ZERO_BYTES 0 (Z.rem paddingSize 32)]).
    pose proof (@PaddingFacts.padding_args b paddingSize Hps) as Hargs. fold args in Hargs.
    set (key := Crypto.getPskEncryptionKey sharedSecret).
    assert (Hkey : len key = 32) by apply hmac_sha256_length.
    destruct (@CipherFacts.seal_open NC key args Hkey) as (He & Hiv & Htag & Hct & Hdec).
    cbv zeta in He, Hiv, Htag, Hct, Hdec.
    eexists. split; [exact He|]. split.
    + rewrite !len_app, Hiv, Htag, Hct, Hargs, len_app, len_repeat.
      unfold paddingSize, ENCRYPTION_OVERHEAD in *. lia.
    + unfold Packet.decryptAndDeserialize.
      change (Crypto.decrypt sharedSecret) with (CryptoAsync.decrypt key).
      rewrite Hdec. cbn [obind]. rewrite Hargs. apply Hd.
Qed.

Lemma padding_ignored_witness :
  exists serialized : Buffer,
    Packet._serialize example_packet = Some serialized /\
    (forall trailing : Buffer,
        Packet._deserializeUnencrypted (serialized ++ trailing)
        = Packet._deserializeUnencrypted serialized) /\
    (forall n : nat,
        Packet._deserializeUnencrypted (serialized ++ repeat x00 n) = Some example_packet) /\
    (forall (sharedSecret : Buffer) (padPacketToSize : Z),
        len serialized + 28 <= padPacketToSize ->
        exists encrypted : Buffer,
          Packet.serializeAndEncrypt (NC := toy_crypto) example_packet sharedSecret
                                     (Some padPacketToSize) = Some encrypted /\
          len encrypted = padPacketToSize /\
          Packet.decryptAndDeserialize (NC := toy_crypto) sharedSecret encrypted
          = Some example_packet).
Proof.
  apply (@padding_ignored toy_crypto example_packet). exact example_packet_valid.
Defined.

(** The example packet padded to 200 bytes, run with the toy instance. *)
Example example_packet_padded :
  option_map len (Packet.serializeAndEncrypt (NC := toy_crypto) example_packet
                                             (repeat x00 32) (Some 200))
  = Some 200 /\
  obind (Packet.serializeAndEncrypt (NC := toy_crypto) example_packet
                                    (repeat x00 32) (Some 200))
        (Packet.decryptAndDeserialize (NC := toy_crypto) (repeat x00 32))
  = Some example_packet.
Proof.
  split; vm_compute; reflexivity.
Qed.

(** * Further properties of the code *)

(** ** crypto.ts *)

Module CryptoExtra.
Import NodeCipher CipherFacts.

Lemma sync_seal_open {NC : NodeCrypto} (sharedSecret : Buffer) (buffers : list Buffer) :
  exists encrypted : Buffer,
    Crypto.encrypt sharedSecret buffers = Some encrypted /\
    len encrypted = len (List.concat buffers) + 28 /\
    Crypto.decrypt sharedSecret encrypted = Some (List.concat buffers).
Proof.
  set (key := Crypto.getPskEncryptionKey sharedSecret).
  assert (Hkey : len key = 32) by apply hmac_sha256_length.
  destruct (@seal_open NC key buffers Hkey) as (He & Hiv & Htag & Hct & Hd).
  cbv zeta in He, Hiv, Htag, Hct, Hd.
  eexists. split; [exact He|]. split.
  - rewrite !len_app, Hiv, Htag, Hct. lia.
  - exact Hd.
Qed.

Lemma Map_get_ref {NC : NodeCrypto} (m : CryptoCache.Map)
      (key key' : CryptoCache.BufferObject) :
  CryptoCache.ref key' = CryptoCache.ref key ->
  CryptoCache.Map_get m key' = CryptoCache.Map_get m key.
Proof.
  intros Href. induction m as [|[r x] m IH]; cbn [CryptoCache.Map_get]; [reflexivity|].
  rewrite Href, IH. reflexivity.
Qed.

Lemma Map_get_Forall {NC : NodeCrypto} (P : nat * Buffer -> Prop) (m : CryptoCache.Map)
      (key : CryptoCache.BufferObject) (v : Buffer) :
  Forall P m -> CryptoCache.Map_get m key = Some v -> exists r, P (r, v).
Proof.
  induction 1 as [|[r x] m Hx _ IH]; cbn [CryptoCache.Map_get]; [discriminate|].
  destruct (r =? CryptoCache.ref key)%nat; [|exact IH].
  intros H. exists r. assert (x = v) by congruence. subst x. exact Hx.
Qed.

(** X1. The synchronous [encrypt] and [decrypt] take the key from
    [pskKeyMap], where it is kept under the secret's [Buffer] object.  They
    need no condition on the secret: whatever its length, and whatever the
    maps hold from earlier calls, [encrypt] returns 28 bytes more than the
    plaintext, and [decrypt] called afterwards with the same object returns
    the plaintext, also when the object was written to in between. *)
Theorem cached_encrypt_decrypt {NC : NodeCrypto} (st : CryptoCache.caches)
        (sharedSecret written : CryptoCache.BufferObject) (buffers : list Buffer) :
  keys_ok st ->
  CryptoCache.ref written = CryptoCache.ref sharedSecret ->
  exists (encrypted : Buffer) (st1 : CryptoCache.caches),
    CryptoCache.encrypt st sharedSecret buffers = (Some encrypted, st1) /\
    len encrypted = len (List.concat buffers) + 28 /\
    keys_ok st1 /\
    CryptoCache.decrypt st1 sharedSecret encrypted = (Some (List.concat buffers), st1) /\
    CryptoCache.decrypt st1 written encrypted = (Some (List.concat buffers), st1).
Proof.
  intros Hok Href.
  assert (Hkey : exists key st1,
             CryptoCache.getPskEncryptionKey st sharedSecret = (key, st1) /\
             len key = 32 /\ keys_ok st1 /\
             CryptoCache.Map_get (CryptoCache.pskKeyMap st1) sharedSecret = Some key).
  { unfold CryptoCache.getPskEncryptionKey.
    destruct (CryptoCache.Map_get (CryptoCache.pskKeyMap st) sharedSecret) as [key|] eqn:E.
    - exists key, st. split; [reflexivity|].
      destruct (@Map_get_Forall NC _ _ _ _ Hok E) as (r & Hr).
      split; [exact Hr|]. split; [exact Hok | exact E].
    - eexists _, _. split; [reflexivity|].
      split; [apply hmac_sha256_length|]. split.
      + unfold keys_ok. cbn [CryptoCache.pskKeyMap CryptoCache.Map_set].
        constructor; [apply hmac_sha256_length | exact Hok].
      + cbn [CryptoCache.pskKeyMap CryptoCache.Map_set CryptoCache.Map_get].
        rewrite Nat.eqb_refl. reflexivity. }
  destruct Hkey as (key & st1 & Hget & Hlen & Hok1 & Hhit).
  destruct (@seal_open NC key buffers Hlen) as (He & Hiv & Htag & Hct & Hd).
  cbv zeta in He, Hiv, Htag, Hct, Hd.
  set (iv := randomBytes IV_LENGTH) in *.
  set (ciphertext := xor_stream key iv 0 (List.concat buffers)) in *.
  set (tag := gcm_tag key iv ciphertext) in *.
  assert (Hl : len (iv ++ tag ++ ciphertext) = len (List.concat buffers) + 28)
    by (rewrite !len_app, Hiv, Htag, Hct; lia).
  assert (Hdec : forall object,
             CryptoCache.ref object = CryptoCache.ref sharedSecret ->
             CryptoCache.decrypt st1 object (iv ++ tag ++ ciphertext)
             = (Some (List.concat buffers), st1)).
  { intros object Ho. unfold CryptoCache.decrypt.
    replace (len (iv ++ tag ++ ciphertext) >? 0) with true
      by (symmetry; apply Z.gtb_lt; pose proof (len_nonneg (List.concat buffers)); lia).
    cbn [negb]. unfold CryptoCache.getPskEncryptionKey.
    rewrite (@Map_get_ref NC _ _ _ Ho), Hhit.
    f_equal. unfold CryptoAsync.decrypt in Hd.
    replace (len (iv ++ tag ++ ciphertext) >? 0) with true in Hd
      by (symmetry; apply Z.gtb_lt; pose proof (len_nonneg (List.concat buffers)); lia).
    exact Hd. }
  exists (iv ++ tag ++ ciphertext), st1.
  split; [|split; [exact Hl|split; [exact Hok1|split]]].
  - unfold CryptoCache.encrypt. rewrite Hget. f_equal. exact He.
  - apply Hdec. reflexivity.
  - apply Hdec. exact Href.
Qed.

Lemma cached_encrypt_decrypt_witness :
  exists (encrypted : Buffer) (st1 : CryptoCache.caches),
    CryptoCache.encrypt (NC := toy_crypto) CryptoCache.empty
      (CryptoCache.mkObject 1 (buffer_of_string "short secret"))
      [buffer_of_string "hello, "; buffer_of_string "world"]
    = (Some encrypted, st1) /\
    len encrypted = len (buffer_of_string "hello, world") + 28 /\
    CryptoCache.decrypt (NC := toy_crypto) st1
      (CryptoCache.mkObject 1 (buffer_of_string "overwritten!")) encrypted
    = (Some (buffer_of_string "hello, world"), st1).
Proof.
  destruct (@cached_encrypt_decrypt toy_crypto CryptoCache.empty
              (CryptoCache.mkObject 1 (buffer_of_string "short secret"))
              (CryptoCache.mkObject 1 (buffer_of_string "overwritten!"))
              [buffer_of_string "hello, "; buffer_of_string "world"])
    as (e & st1 & He & Hl & _ & _ & Hd).
  - constructor.
  - reflexivity.
  - exists e, st1. split; [exact He|]. split; [exact Hl | exact Hd].
Defined.

(** X2. [decrypt] authenticates before it returns anything.  On a buffer
    made of 12 bytes, 16 bytes and a rest, it returns a plaintext exactly
    when the key has 32 bytes and the 16 bytes are the tag of the rest under
    the key and the first 12 bytes; the plaintext is then the rest with the
    key stream taken off.  On the empty buffer it throws. *)
Theorem decrypt_authenticates {NC : NodeCrypto} (key iv tag ciphertext : Buffer) :
  len iv = 12 -> len tag = 16 ->
  (forall plaintext : Buffer,
      CryptoAsync.decrypt key (iv ++ tag ++ ciphertext) = Some plaintext <->
      len key = 32 /\ tag = gcm_tag key iv ciphertext /\
      plaintext = xor_stream key iv 0 ciphertext) /\
  CryptoAsync.decrypt key [] = None.
Proof.
  intros Hiv Htag. split; [|reflexivity].
  intros plaintext. unfold CryptoAsync.decrypt.
  replace (len (iv ++ tag ++ ciphertext) >? 0) with true
    by (symmetry; apply Z.gtb_lt; rewrite !len_app; pose proof (len_nonneg ciphertext); lia).
  cbn [negb].
  rewrite (@slice_prefix iv (tag ++ ciphertext) IV_LENGTH Hiv).
  rewrite (@slice_middle iv tag ciphertext IV_LENGTH (IV_LENGTH + AUTH_TAG_LENGTH))
    by (unfold IV_LENGTH, AUTH_TAG_LENGTH; lia).
  rewrite app_assoc.
  rewrite (@slice_from_suffix (iv ++ tag) ciphertext (IV_LENGTH + AUTH_TAG_LENGTH))
    by (rewrite len_app; unfold IV_LENGTH, AUTH_TAG_LENGTH; lia).
  unfold createDecipheriv. destruct (len key =? 32) eqn:Hkey; cbn [obind].
  - apply Z.eqb_eq in Hkey.
    unfold setAuthTag, dupdate, dfinal. cbn [d_key d_iv d_pos d_in d_tag app].
    destruct (bytes_eqb tag (gcm_tag key iv ciphertext)) eqn:E; cbn [obind List.concat].
    + apply bytes_eqb_eq in E. rewrite !app_nil_r. split.
      * intros H. injection H as <-. repeat split; assumption.
      * intros (_ & _ & ->). reflexivity.
    + split; [discriminate|]. intros (_ & Ht & _).
      apply bytes_eqb_eq in Ht. congruence.
  - split; [discriminate|]. intros (Hk & _). apply Z.eqb_neq in Hkey. contradiction.
Qed.

Lemma decrypt_authenticates_witness :
  CryptoAsync.decrypt (NC := toy_crypto) (repeat "k"%byte 32)
                      (repeat "*"%byte 12 ++ repeat x00 16 ++ buffer_of_string "abc")
  = Some (buffer_of_string "never") <->
  len (repeat "k"%byte 32) = 32 /\
  repeat x00 16 = gcm_tag (NodeCrypto := toy_crypto) (repeat "k"%byte 32)
                          (repeat "*"%byte 12) (buffer_of_string "abc") /\
  buffer_of_string "never"
  = xor_stream (NC := toy_crypto) (repeat "k"%byte 32) (repeat "*"%byte 12) 0
               (buffer_of_string "abc").
Proof.
  apply (proj1 (@decrypt_authenticates toy_crypto (repeat "k"%byte 32)
                  (repeat "*"%byte 12) (repeat x00 16) (buffer_of_string "abc")
                  eq_refl eq_refl)).
Defined.

(** X3. The synchronous [generateSharedSecretFromToken] looks the token up
    in [sharedSecretMap] by the token object alone.  The first call for a
    token object computes HMAC(HMAC(seed, "ilp_stream_shared_secret"),
    token); every later call with that object returns the same secret
    again, also with another seed and after the object was written to. *)
Theorem shared_secret_cached_by_token {NC : NodeCrypto} (st : CryptoCache.caches)
        (seed : Buffer) (token : CryptoCache.BufferObject) :
  let '(secret, st1) := CryptoCache.generateSharedSecretFromToken st seed token in
  (CryptoCache.Map_get (CryptoCache.sharedSecretMap st) token = None ->
   secret = Crypto.generateSharedSecretFromToken seed (CryptoCache.contents token)) /\
  (forall (seed' : Buffer) (token' : CryptoCache.BufferObject),
      CryptoCache.ref token' = CryptoCache.ref token ->
      CryptoCache.generateSharedSecretFromToken st1 seed' token' = (secret, st1)).
Proof.
  unfold CryptoCache.generateSharedSecretFromToken.
  destruct (CryptoCache.Map_get (CryptoCache.sharedSecretMap st) token) as [v|] eqn:E.
  - split; [discriminate|]. intros seed' token' Href.
    assert (E' : CryptoCache.Map_get (CryptoCache.sharedSecretMap st) token' = Some v).
    { clear -E Href. induction (CryptoCache.sharedSecretMap st) as [|[r x] m IH].
      - discriminate E.
      - cbn [CryptoCache.Map_get] in *. rewrite Href.
        destruct (r =? CryptoCache.ref token)%nat; [exact E | apply IH, E]. }
    rewrite E'. reflexivity.
  - split; [reflexivity|]. intros seed' token' Href.
    cbn [CryptoCache.sharedSecretMap CryptoCache.Map_set CryptoCache.Map_get].
    rewrite Href, Nat.eqb_refl. reflexivity.
Qed.

Lemma shared_secret_cached_by_token_witness :
  let token := CryptoCache.mkObject 7 (buffer_of_string "token") in
  let written := CryptoCache.mkObject 7 (buffer_of_string "other") in
  let '(secret, st1) :=
      CryptoCache.generateSharedSecretFromToken (NC := toy_crypto)
        CryptoCache.empty (repeat x01 32) token in
  secret = Crypto.generateSharedSecretFromToken (NC := toy_crypto)
             (repeat x01 32) (buffer_of_string "token") /\
  CryptoCache.generateSharedSecretFromToken (NC := toy_crypto) st1 (repeat x02 32) written
  = (secret, st1).
Proof.
  intros token written.
  pose proof (@shared_secret_cached_by_token toy_crypto CryptoCache.empty
                (repeat x01 32) token) as H.
  destruct (CryptoCache.generateSharedSecretFromToken CryptoCache.empty
              (repeat x01 32) token) as [secret st1].
  destruct H as [Hmiss Hhit]. split.
  - apply Hmiss. reflexivity.
  - apply Hhit. reflexivity.
Defined.

End CryptoExtra.

(** ** protocol.ts: byteLength *)

Module ByteLengthFacts.
Import Oer.

Lemma writeUInt_len (v : Z) (width : nat) (w w' : Writer) :
  writeUInt v width w = Some w' -> len w' = len w + Z.of_nat width.
Proof.
  unfold writeUInt. destruct width as [|k]; [discriminate|].
  destruct ((0 <=? v) && (v <? 256 ^ Z.of_nat (S k))); [|discriminate].
  intros H. assert (E : w' = w ++ be_encode (S k) v) by congruence.
  rewrite E, len_app. unfold len at 2.
  rewrite be_encode_length. reflexivity.
Qed.

Lemma writeUInt8_len (v : Z) (w w' : Writer) :
  writeUInt8 v w = Some w' -> len w' = Predictor.writeUInt8 v (len w).
Proof.
  unfold writeUInt8. intros H. apply writeUInt_len in H.
  unfold Predictor.writeUInt8. lia.
Qed.

Lemma writeLengthPrefix_len (n : Z) (w w' : Writer) :
  0 <= n -> writeLengthPrefix n w = Some w' ->
  len w' + n = len w + Predictor.measureVarOctetString n.
Proof.
  intros Hn. unfold writeLengthPrefix, Predictor.measureVarOctetString.
  destruct (n <=? 127).
  - unfold writeUInt8. intros H. apply writeUInt_len in H. lia.
  - unfold writeUInt8.
    destruct (writeUInt (Z.lor HIGH_BIT (byte_size n)) 1 w) as [w1|] eqn:E1;
      cbn [obind]; [|discriminate].
    intros H. apply writeUInt_len in E1. apply writeUInt_len in H.
    pose proof (byte_size_pos Hn). lia.
Qed.

Lemma writeVarOctetString_len (b : Buffer) (w w' : Writer) :
  writeVarOctetString b w = Some w' ->
  len w' = Predictor.writeVarOctetString b (len w).
Proof.
  unfold writeVarOctetString, Predictor.writeVarOctetString, write.
  destruct (writeLengthPrefix (len b) w) as [w1|] eqn:E; cbn [obind]; [|discriminate].
  intros H. injection H as <-. apply writeLengthPrefix_len in E; [|apply len_nonneg].
  rewrite len_app. lia.
Qed.

Lemma writeVarUInt_len (v : Z) (w w' : Writer) :
  writeVarUInt v w = Some w' -> len w' = Predictor.writeVarUInt v (len w).
Proof.
  unfold writeVarUInt, Predictor.writeVarUInt.
  destruct (v <? 0) eqn:Hv; [discriminate|]. apply Z.ltb_ge in Hv.
  destruct (writeLengthPrefix (byte_size v) w) as [w1|] eqn:E; cbn [obind]; [|discriminate].
  intros H. apply writeUInt_len in H.
  pose proof (byte_size_pos Hv).
  apply writeLengthPrefix_len in E; [|lia]. lia.
Qed.

Lemma Frame_writeTo_len (f : Frame) (w w' : Writer) :
  Frames.writeTo f w = Some w' -> ByteLength.Frame_writeTo f (len w) = Some (len w').
Proof.
  unfold Frames.writeTo, ByteLength.Frame_writeTo.
  destruct (writeUInt8 (FrameType_value (Frame_type f)) w) as [w1|] eqn:E1;
    cbn [obind]; [|discriminate].
  destruct (Frames.writeContents f) as [c|]; cbn [obind]; [|discriminate].
  intros H. apply writeUInt8_len in E1. apply writeVarOctetString_len in H.
  rewrite H, E1. reflexivity.
Qed.

Lemma writeFrames_len (fs : list Frame) (w w' : Writer) :
  Packet.writeFrames fs w = Some w' ->
  ByteLength.Packet_writeFrames fs (len w) = Some (len w').
Proof.
  revert w. induction fs as [|f fs IH]; intros w; cbn [Packet.writeFrames
    ByteLength.Packet_writeFrames].
  - intros H. injection H as <-. reflexivity.
  - destruct (Frames.writeTo f w) as [w1|] eqn:E; cbn [obind]; [|discriminate].
    intros H. rewrite (Frame_writeTo_len _ _ E). cbn [obind]. apply IH, H.
Qed.

Lemma Packet_writeTo_len (p : Packet.t) (w w' : Writer) :
  Packet.writeTo p w = Some w' -> ByteLength.Packet_writeTo p (len w) = Some (len w').
Proof.
  unfold Packet.writeTo, ByteLength.Packet_writeTo.
  destruct (writeUInt8 VERSION w) as [w1|] eqn:E1; cbn [obind]; [|discriminate].
  destruct (writeUInt8 (Packet.ilpPacketType p) w1) as [w2|] eqn:E2;
    cbn [obind]; [|discriminate].
  destruct (writeVarUInt (Packet.sequence p) w2) as [w3|] eqn:E3;
    cbn [obind]; [|discriminate].
  destruct (writeVarUInt (Packet.prepareAmount p) w3) as [w4|] eqn:E4;
    cbn [obind]; [|discriminate].
  destruct (writeVarUInt (Z.of_nat (List.length (Packet.frames p))) w4) as [w5|] eqn:E5;
    cbn [obind]; [|discriminate].
  intros H. apply writeFrames_len in H.
  apply writeUInt8_len in E1, E2. apply writeVarUInt_len in E3, E4, E5.
  rewrite <- E1, <- E2, <- E3, <- E4, <- E5. exact H.
Qed.

(** X4. [BaseFrame.byteLength] is the number of bytes that [writeTo] writes:
    whenever a frame can be written, its predicted length is the length of
    what is written. *)
Theorem frame_byteLength_exact (f : Frame) (written : Buffer) :
  Frames.writeTo f [] = Some written ->
  ByteLength.Frame_byteLength f = Some (len written).
Proof.
  intros H. unfold ByteLength.Frame_byteLength.
  apply Frame_writeTo_len in H. change (len []) with Predictor.new in H.
  rewrite H. reflexivity.
Qed.

Lemma frame_byteLength_exact_witness :
  ByteLength.Frame_byteLength (StreamDataFrame 123 456 (buffer_of_string "foobar"))
  = Some (len (map byte_of_Z [0x14; 12; 1; 123; 2; 1; 200; 6] ++ buffer_of_string "foobar")).
Proof.
  apply (@frame_byteLength_exact (StreamDataFrame 123 456 (buffer_of_string "foobar"))).
  vm_compute. reflexivity.
Defined.

(** X5. [Packet.byteLength] is the length of the encrypted packet: for a
    valid packet it is the serialized length plus 28, which is the length of
    what [serializeAndEncrypt] returns when no padding is asked for, and
    that buffer decrypts and deserializes to the packet. *)
Theorem packet_byteLength_exact {NC : NodeCrypto} (p : Packet.t) (sharedSecret : Buffer) :
  Packet_valid p ->
  exists (serialized encrypted : Buffer),
    Packet._serialize p = Some serialized /\
    ByteLength.Packet_byteLength p = Some (len serialized + 28) /\
    Packet.serializeAndEncrypt p sharedSecret None = Some encrypted /\
    ByteLength.Packet_byteLength p = Some (len encrypted) /\
    Packet.decryptAndDeserialize sharedSecret encrypted = Some p.
Proof.
  intros Hv. destruct (@PacketFacts.serialize_deserialize p Hv) as (b & Hs & Hd).
  assert (Hbl : ByteLength.Packet_byteLength p = Some (len b + 28)).
  { unfold Packet._serialize in Hs.
    destruct (Packet.writeTo p []) as [w|] eqn:E; cbn [obind] in Hs; [|discriminate Hs].
    injection Hs as <-. apply Packet_writeTo_len in E.
    unfold ByteLength.Packet_byteLength. change (len []) with Predictor.new in E.
    rewrite E. reflexivity. }
  destruct (@CryptoExtra.sync_seal_open NC sharedSecret [b]) as (e & He & Hlen & Hdec).
  cbn [List.concat] in Hlen, Hdec. rewrite app_nil_r in Hlen, Hdec.
  exists b, e. split; [exact Hs|]. split; [exact Hbl|]. split; [|split].
  - unfold Packet.serializeAndEncrypt. rewrite Hs. exact He.
  - rewrite Hbl, Hlen. reflexivity.
  - unfold Packet.decryptAndDeserialize. rewrite Hdec. cbn [obind].
    rewrite <- (app_nil_r b). apply Hd.
Qed.

Lemma packet_byteLength_exact_witness :
  exists (serialized encrypted : Buffer),
    Packet._serialize example_packet = Some serialized /\
    ByteLength.Packet_byteLength example_packet = Some (len serialized + 28) /\
    Packet.serializeAndEncrypt (NC := toy_crypto) example_packet (repeat x00 32) None
    = Some encrypted /\
    ByteLength.Packet_byteLength example_packet = Some (len encrypted) /\
    Packet.decryptAndDeserialize (NC := toy_crypto) (repeat x00 32) encrypted
    = Some example_packet.
Proof.
  apply (@packet_byteLength_exact toy_crypto example_packet (repeat x00 32)).
  exact example_packet_valid.
Defined.

End ByteLengthFacts.

(** ** protocol.ts: what the parser does with bytes nobody wrote *)

Module ParserFacts.
Import Oer OerFacts Frames FrameFacts ParserSpec.

(** A reader method is monotone when more bytes behind the buffer change
    neither what it returns nor where it stops. *)

Lemma readUInt8BigNum_mono (r : Reader) (v : Z) (r' ext : Reader) :
  readUInt8BigNum r = Some (v, r') -> readUInt8BigNum (r ++ ext) = Some (v, r' ++ ext).
Proof.
  destruct r as [|b r0]; [discriminate|]. cbn [readUInt8BigNum app].
  intros H. assert (E : Z_of_byte b = v /\ r0 = r') by (split; congruence).
  destruct E as [<- <-]. reflexivity.
Qed.

Lemma peekUInt8BigNum_mono (r : Reader) (v : Z) (ext : Reader) :
  peekUInt8BigNum r = Some v -> peekUInt8BigNum (r ++ ext) = Some v.
Proof.
  destruct r as [|b r0]; [discriminate|]. intros H. exact H.
Qed.

Lemma skipUInt8_mono (r r' ext : Reader) :
  skipUInt8 r = Some r' -> skipUInt8 (r ++ ext) = Some (r' ++ ext).
Proof.
  destruct r as [|b r0]; [discriminate|]. cbn [skipUInt8 readUInt8BigNum app obind].
  intros H. assert (E : r0 = r') by congruence. rewrite E. reflexivity.
Qed.

Lemma read_mono (n : nat) (r : Reader) (bs : Buffer) (r' ext : Reader) :
  read n r = Some (bs, r') -> read n (r ++ ext) = Some (bs, r' ++ ext).
Proof.
  unfold read. destruct (n <=? List.length r)%nat eqn:E; [|discriminate].
  apply Nat.leb_le in E. intros H.
  assert (E' : firstn n r = bs /\ skipn n r = r') by (split; congruence).
  destruct E' as [<- <-].
  replace (n <=? List.length (r ++ ext))%nat with true
    by (symmetry; apply Nat.leb_le; rewrite length_app; lia).
  rewrite firstn_app, skipn_app.
  replace (n - List.length r)%nat with 0%nat by lia.
  rewrite firstn_O, skipn_O, app_nil_r. reflexivity.
Qed.

Lemma readUInt_mono (width : nat) (r : Reader) (v : Z) (r' ext : Reader) :
  readUInt width r = Some (v, r') -> readUInt width (r ++ ext) = Some (v, r' ++ ext).
Proof.
  unfold readUInt. destruct width as [|k]; [discriminate|].
  destruct (read (S k) r) as [[bs r1]|] eqn:E; cbn [obind]; [|discriminate].
  intros H. rewrite (@read_mono _ _ _ _ ext E). cbn [obind].
  assert (E' : be_decode bs = v /\ r1 = r') by (split; congruence).
  destruct E' as [<- <-]. reflexivity.
Qed.

Lemma readLengthPrefix_mono (r : Reader) (n : Z) (r' ext : Reader) :
  readLengthPrefix r = Some (n, r') -> readLengthPrefix (r ++ ext) = Some (n, r' ++ ext).
Proof.
  unfold readLengthPrefix, readUInt8Number.
  destruct (readUInt8BigNum r) as [[length r1]|] eqn:E1; cbn [obind]; [|discriminate].
  rewrite (@readUInt8BigNum_mono _ _ _ ext E1). cbn [obind].
  destruct (Z.land length HIGH_BIT =? 0).
  - intros H. assert (E : length = n /\ r1 = r') by (split; congruence).
    destruct E as [<- <-]. reflexivity.
  - destruct (Z.land length LOWER_SEVEN_BITS =? 0); [discriminate|].
    destruct (readUInt (Z.to_nat (Z.land length LOWER_SEVEN_BITS)) r1)
      as [[actualLength r2]|] eqn:E2; cbn [obind]; [|discriminate].
    rewrite (@readUInt_mono _ _ _ _ ext E2). cbn [obind].
    destruct (actualLength <? _); [discriminate|].
    intros H. assert (E : actualLength = n /\ r2 = r') by (split; congruence).
    destruct E as [<- <-]. reflexivity.
Qed.

Lemma readVarOctetString_mono (r : Reader) (bs : Buffer) (r' ext : Reader) :
  readVarOctetString r = Some (bs, r') ->
  readVarOctetString (r ++ ext) = Some (bs, r' ++ ext).
Proof.
  unfold readVarOctetString.
  destruct (readLengthPrefix r) as [[n r1]|] eqn:E1; cbn [obind]; [|discriminate].
  rewrite (@readLengthPrefix_mono _ _ _ ext E1). cbn [obind].
  apply read_mono.
Qed.

Lemma skipVarOctetString_mono (r r' ext : Reader) :
  skipVarOctetString r = Some r' -> skipVarOctetString (r ++ ext) = Some (r' ++ ext).
Proof.
  unfold skipVarOctetString.
  destruct (readVarOctetString r) as [[bs r1]|] eqn:E1; cbn [obind]; [|discriminate].
  rewrite (@readVarOctetString_mono _ _ _ ext E1). cbn [obind].
  intros H. assert (E : r1 = r') by congruence. rewrite E. reflexivity.
Qed.

Lemma readVarUIntBigNum_mono (r : Reader) (v : Z) (r' ext : Reader) :
  readVarUIntBigNum r = Some (v, r') ->
  readVarUIntBigNum (r ++ ext) = Some (v, r' ++ ext).
Proof.
  unfold readVarUIntBigNum.
  destruct (readVarOctetString r) as [[bs r1]|] eqn:E1; cbn [obind]; [|discriminate].
  rewrite (@readVarOctetString_mono _ _ _ ext E1). cbn [obind].
  destruct bs as [|b bs]; [discriminate|].
  intros H. assert (E : be_decode (b :: bs) = v /\ r1 = r') by (split; congruence).
  destruct E as [<- <-]. reflexivity.
Qed.

Lemma assertType_mono (r : Reader) (frameType : FrameType) (r' ext : Reader) :
  assertType r frameType = Some r' ->
  assertType (r ++ ext) frameType = Some (r' ++ ext).
Proof.
  unfold assertType.
  destruct (readUInt8BigNum r) as [[type r1]|] eqn:E1; cbn [obind]; [|discriminate].
  rewrite (@readUInt8BigNum_mono _ _ _ ext E1). cbn [obind].
  destruct (type =? FrameType_value frameType); [|discriminate].
  intros H. assert (E : r1 = r') by congruence. rewrite E. reflexivity.
Qed.

(** One step of a chain of reads: the read in [H] is taken apart, and when
    it is a read of the outer reader the goal follows it. *)
Ltac mono_follow E ext :=
  let E' := fresh "E" in
  pose proof E as E';
  first [ apply readUInt8BigNum_mono with (ext := ext) in E'
        | apply readVarOctetString_mono with (ext := ext) in E'
        | apply readVarUIntBigNum_mono with (ext := ext) in E'
        | apply assertType_mono with (ext := ext) in E'
        | apply skipUInt8_mono with (ext := ext) in E'
        | apply skipVarOctetString_mono with (ext := ext) in E' ];
  rewrite E'; clear E'; cbn [obind].

Ltac mono_step H ext :=
  match type of H with
  | obind ?m _ = Some _ =>
    let E := fresh "E" in
    let x := fresh "x" in
    destruct m as [x|] eqn:E; cbn [obind] in H |- *; [|discriminate H];
    try (destruct x as [? ?]);
    try (mono_follow E ext)
  end.

Ltac mono_done H :=
  match type of H with
  | Some (?a, ?r) = Some (?b, ?r') =>
    let E := fresh "E" in
    assert (E : a = b /\ r = r') by (split; congruence);
    destruct E as [<- <-]; reflexivity
  end.

Ltac mono_chain H ext := repeat (mono_step H ext); mono_done H.

Lemma fromBuffer_mono (r : Reader) (f : Frame) (r' ext : Reader) :
  (ConnectionNewAddressFrame_fromBuffer r = Some (f, r') ->
   ConnectionNewAddressFrame_fromBuffer (r ++ ext) = Some (f, r' ++ ext)) /\
  (ConnectionCloseFrame_fromBuffer r = Some (f, r') ->
   ConnectionCloseFrame_fromBuffer (r ++ ext) = Some (f, r' ++ ext)) /\
  (ConnectionMaxDataFrame_fromBuffer r = Some (f, r') ->
   ConnectionMaxDataFrame_fromBuffer (r ++ ext) = Some (f, r' ++ ext)) /\
  (ConnectionDataBlockedFrame_fromBuffer r = Some (f, r') ->
   ConnectionDataBlockedFrame_fromBuffer (r ++ ext) = Some (f, r' ++ ext)) /\
  (ConnectionMaxStreamIdFrame_fromBuffer r = Some (f, r') ->
   ConnectionMaxStreamIdFrame_fromBuffer (r ++ ext) = Some (f, r' ++ ext)) /\
  (ConnectionStreamIdBlockedFrame_fromBuffer r = Some (f, r') ->
   ConnectionStreamIdBlockedFrame_fromBuffer (r ++ ext) = Some (f, r' ++ ext)) /\
  (StreamMoneyFrame_fromBuffer r = Some (f, r') ->
   StreamMoneyFrame_fromBuffer (r ++ ext) = Some (f, r' ++ ext)) /\
  (StreamMaxMoneyFrame_fromBuffer r = Some (f, r') ->
   StreamMaxMoneyFrame_fromBuffer (r ++ ext) = Some (f, r' ++ ext)) /\
  (StreamMoneyBlockedFrame_fromBuffer r = Some (f, r') ->
   StreamMoneyBlockedFrame_fromBuffer (r ++ ext) = Some (f, r' ++ ext)) /\
  (StreamCloseFrame_fromBuffer r = Some (f, r') ->
   StreamCloseFrame_fromBuffer (r ++ ext) = Some (f, r' ++ ext)) /\
  (StreamDataFrame_fromBuffer r = Some (f, r') ->
   StreamDataFrame_fromBuffer (r ++ ext) = Some (f, r' ++ ext)) /\
  (StreamMaxDataFrame_fromBuffer r = Some (f, r') ->
   StreamMaxDataFrame_fromBuffer (r ++ ext) = Some (f, r' ++ ext)) /\
  (StreamDataBlockedFrame_fromBuffer r = Some (f, r') ->
   StreamDataBlockedFrame_fromBuffer (r ++ ext) = Some (f, r' ++ ext)).
Proof.
  repeat split; intros H;
    [ unfold ConnectionNewAddressFrame_fromBuffer in *
    | unfold ConnectionCloseFrame_fromBuffer in *
    | unfold ConnectionMaxDataFrame_fromBuffer in *
    | unfold ConnectionDataBlockedFrame_fromBuffer in *
    | unfold ConnectionMaxStreamIdFrame_fromBuffer in *
    | unfold ConnectionStreamIdBlockedFrame_fromBuffer in *
    | unfold StreamMoneyFrame_fromBuffer in *
    | unfold StreamMaxMoneyFrame_fromBuffer in *
    | unfold StreamMoneyBlockedFrame_fromBuffer in *
    | unfold StreamCloseFrame_fromBuffer in *
    | unfold StreamDataFrame_fromBuffer in *
    | unfold StreamMaxDataFrame_fromBuffer in *
    | unfold StreamDataBlockedFrame_fromBuffer in * ];
    cbv zeta in H |- *; mono_chain H ext.
Qed.

Lemma parseFrame_mono (r : Reader) (f : option Frame) (r' ext : Reader) :
  parseFrame r = Some (f, r') -> parseFrame (r ++ ext) = Some (f, r' ++ ext).
Proof.
  unfold parseFrame.
  destruct (peekUInt8BigNum r) as [type|] eqn:Ep; cbn [obind]; [|discriminate].
  rewrite (@peekUInt8BigNum_mono _ _ ext Ep). cbn [obind]. cbv zeta.
  destruct (FrameType_of_value type) as [[]|]; intros H;
    try (mono_chain H ext);
    match type of H with
    | obind ?m _ = Some _ =>
      let E := fresh "E" in
      destruct m as [[f0 r0]|] eqn:E; cbn [obind] in H; [|discriminate H];
      apply (fromBuffer_mono _ _ _ ext) in E; rewrite E; cbn [obind];
      mono_done H
    end.
Qed.

Lemma parseFrames_mono (n : nat) (r : Reader) (acc fs : list Frame) (r' ext : Reader) :
  Packet.parseFrames n r acc = Some (fs, r') ->
  Packet.parseFrames n (r ++ ext) acc = Some (fs, r' ++ ext).
Proof.
  revert r acc. induction n as [|n IH]; intros r acc; cbn [Packet.parseFrames].
  - intros H. mono_done H.
  - destruct (parseFrame r) as [[f r1]|] eqn:E; cbn [obind]; [|discriminate].
    rewrite (@parseFrame_mono _ _ _ ext E). cbn [obind]. apply IH.
Qed.

Lemma deserialize_parsePacket (b : Buffer) :
  Packet._deserializeUnencrypted b = option_map fst (parsePacket b).
Proof.
  unfold Packet._deserializeUnencrypted, parsePacket.
  destruct (readUInt8BigNum b) as [[version r0]|]; cbn [obind option_map]; [|reflexivity].
  destruct (negb (version =? VERSION)); [reflexivity|].
  repeat match goal with
         | |- obind ?m _ = option_map fst (obind ?m _) =>
           destruct m as [[? ?]|]; cbn [obind option_map fst]; [|reflexivity]
         end.
  reflexivity.
Qed.

Lemma parsePacket_mono (r : Reader) (p : Packet.t) (r' ext : Reader) :
  parsePacket r = Some (p, r') -> parsePacket (r ++ ext) = Some (p, r' ++ ext).
Proof.
  unfold parsePacket. intros H.
  repeat first
         [ match type of H with
           | (if ?c then None else _) = Some _ => destruct c; [discriminate H|]
           | obind (Packet.parseFrames ?n ?r0 ?acc) _ = Some _ =>
             let Efs := fresh "Efs" in
             destruct (Packet.parseFrames n r0 acc) as [[? ?]|] eqn:Efs;
             cbn [obind] in H; [|discriminate H];
             apply parseFrames_mono with (ext := ext) in Efs; rewrite Efs; cbn [obind]
           end
         | mono_step H ext ].
  mono_done H.
Qed.

(** What [_serialize] writes for a valid packet is parsed back to the
    packet, and the parser stops at the last byte written. *)
Lemma serialize_parsePacket (p : Packet.t) :
  Packet_valid p ->
  exists b : Buffer,
    Packet._serialize p = Some b /\
    forall rest, parsePacket (b ++ rest) = Some (p, rest).
Proof.
  intros (Hs & Ht & Ha & Hn & Hfs).
  destruct (writeUInt8_ok (v := VERSION)) as (b1 & _ & W1 & R1); [unfold VERSION; lia|].
  destruct (writeUInt8_ok (v := Packet.ilpPacketType p)) as (b2 & _ & W2 & R2);
    [unfold uint8 in Ht; lia|].
  destruct (@varuint_ok (Packet.sequence p) Hs) as (b3 & _ & W3 & R3).
  destruct (@varuint_ok (Packet.prepareAmount p) Ha) as (b4 & _ & W4 & R4).
  destruct (@varuint_ok (Z.of_nat (List.length (Packet.frames p)))) as (b5 & _ & W5 & R5).
  { unfold uint64, MAX_UINT64. unfold MAX_ARRAY_LENGTH in Hn. lia. }
  destruct (@PacketFacts.wire_frames_roundtrip (map Wire.Typed (Packet.frames p)))
    as (b6 & W6 & R6); [apply PacketFacts.valid_typed, Hfs|].
  exists (b1 ++ b2 ++ b3 ++ b4 ++ b5 ++ b6). split.
  - unfold Packet._serialize, Packet.writeTo. rewrite W1. cbn [obind]. rewrite W2.
    cbn [obind]. rewrite W3. cbn [obind]. rewrite W4. cbn [obind]. rewrite W5.
    cbn [obind]. rewrite <- PacketFacts.writeFrames_typed, W6. cbn [obind].
    unfold getBuffer. cbn [app]. rewrite <- !app_assoc. reflexivity.
  - intros rest. unfold parsePacket.
    rewrite <- !app_assoc. rewrite R1. cbn [obind].
    rewrite Z.eqb_refl. cbn [negb].
    rewrite R2. cbn [obind]. rewrite R3. cbn [obind]. rewrite R4. cbn [obind].
    rewrite R5. cbn [obind]. rewrite Nat2Z.id.
    rewrite <- (length_map Wire.Typed), R6. cbn [obind app].
    rewrite PacketFacts.recognized_typed. destruct p; reflexivity.
Qed.

(** X6. The parser never looks behind the last frame that the header
    counts: whenever a buffer deserializes to a packet, whoever wrote it,
    the same buffer followed by any bytes deserializes to the same
    packet. *)
Theorem trailing_bytes_ignored (buffer : Buffer) (p : Packet.t) (trailing : Buffer) :
  Packet._deserializeUnencrypted buffer = Some p ->
  Packet._deserializeUnencrypted (buffer ++ trailing) = Some p.
Proof.
  rewrite !deserialize_parsePacket.
  destruct (parsePacket buffer) as [[p0 r]|] eqn:E; [|discriminate].
  cbn [option_map fst]. intros H.
  rewrite (@parsePacket_mono _ _ _ trailing E). cbn [option_map fst]. exact H.
Qed.

Lemma trailing_bytes_ignored_witness :
  Packet._deserializeUnencrypted (foreign_packet_bytes ++ map byte_of_Z [0xff; 0x14; 0])
  = Some (Packet.mk 5 12 0 [StreamMaxDataFrame 9 7]).
Proof.
  apply (@trailing_bytes_ignored foreign_packet_bytes). vm_compute. reflexivity.
Defined.

(** X7. A serialized valid packet cannot lose bytes at its end: every
    proper prefix of what [_serialize] returns makes
    [_deserializeUnencrypted] throw. *)
Theorem truncated_packet_rejected (p : Packet.t) (serialized : Buffer) (n : nat) :
  Packet_valid p ->
  Packet._serialize p = Some serialized ->
  (n < List.length serialized)%nat ->
  Packet._deserializeUnencrypted (firstn n serialized) = None.
Proof.
  intros Hv Hs Hn.
  destruct (@serialize_parsePacket p Hv) as (b & Hb & Hr).
  assert (b = serialized) by congruence. subst b.
  rewrite deserialize_parsePacket.
  destruct (parsePacket (firstn n serialized)) as [[p0 r]|] eqn:E; [|reflexivity].
  exfalso.
  apply parsePacket_mono with (ext := skipn n serialized) in E.
  rewrite firstn_skipn in E.
  specialize (Hr []). rewrite app_nil_r in Hr. rewrite Hr in E.
  assert (El : @nil byte = r ++ skipn n serialized) by congruence.
  apply (f_equal (@List.length byte)) in El.
  rewrite length_app, length_skipn in El. cbn [List.length] in El. lia.
Qed.

Lemma truncated_packet_rejected_witness :
  Packet._serialize example_packet <> None /\
  forall serialized : Buffer,
    Packet._serialize example_packet = Some serialized ->
    Packet._deserializeUnencrypted (firstn (List.length serialized - 1) serialized) = None.
Proof.
  split; [vm_compute; discriminate|].
  intros serialized Hs.
  apply (@truncated_packet_rejected example_packet serialized
           (List.length serialized - 1) example_packet_valid Hs).
  destruct serialized as [|x rest]; [vm_compute in Hs; discriminate Hs|].
  cbn [List.length]. lia.
Defined.

(** X8. An error code that [ErrorCode] does not list is accepted by the
    parser and cannot be written again.  A [ConnectionClose] or
    [StreamClose] frame whose code byte is none of 1 to 10 is parsed to a
    frame whose [errorCode] is undefined; on such a frame [writeTo] and
    [byteLength] throw, whatever the other fields are. *)
Theorem unknown_error_code (code streamId : Z) (message : Buffer) :
  uint8 code -> ErrorCode_of_value code = None ->
  uint64 streamId -> buffer_ok message ->
  exists connectionClose streamClose : Buffer,
    (let? c := writeUInt8 code [] in
     let? c := writeVarOctetString message c in
     let? w := writeUInt8 (FrameType_value ConnectionClose) [] in
     writeVarOctetString c w) = Some connectionClose /\
    (let? c := writeVarUInt streamId [] in
     let? c := writeUInt8 code c in
     let? c := writeVarOctetString message c in
     let? w := writeUInt8 (FrameType_value StreamClose) [] in
     writeVarOctetString c w) = Some streamClose /\
    (forall rest,
        parseFrame (connectionClose ++ rest)
        = Some (Some (ConnectionCloseFrame None (string_of_buffer message)), rest)) /\
    (forall rest,
        parseFrame (streamClose ++ rest)
        = Some (Some (StreamCloseFrame streamId None (string_of_buffer message)), rest)) /\
    (forall errorMessage w,
        Frames.writeTo (ConnectionCloseFrame None errorMessage) w = None /\
        Frames.writeTo (StreamCloseFrame streamId None errorMessage) w = None) /\
    (forall errorMessage,
        ByteLength.Frame_byteLength (ConnectionCloseFrame None errorMessage) = None /\
        ByteLength.Frame_byteLength (StreamCloseFrame streamId None errorMessage) = None).
Proof.
  intros Hc Hu Hi Hm.
  destruct (writeUInt8_ok (v := code)) as (bc & Lc & Wc & Rc); [unfold uint8 in Hc; lia|].
  destruct (@varoctets_ok message Hm) as (bm & Lm & Wm & Rm).
  destruct (@varuint_ok streamId Hi) as (bi & Li & Wi & Ri).
  destruct (writeUInt8_ok (v := FrameType_value ConnectionClose))
    as (t1 & _ & Wt1 & Rt1); [vm_compute; split; [discriminate | reflexivity]|].
  destruct (writeUInt8_ok (v := FrameType_value StreamClose))
    as (t2 & _ & Wt2 & Rt2); [vm_compute; split; [discriminate | reflexivity]|].
  assert (Hlim : MAX_LENGTH + 1000 < OER_LIMIT)
    by (pose proof limit_large; unfold MAX_LENGTH; lia).
  destruct (@writeVarOctetString_ok (bc ++ bm)) as (e1 & _ & We1 & Re1).
  { rewrite len_app. lia. }
  destruct (@writeVarOctetString_ok (bi ++ bc ++ bm)) as (e2 & _ & We2 & Re2).
  { rewrite !len_app. lia. }
  exists (t1 ++ e1), (t2 ++ e2).
  split; [|split; [|split; [|split; [|split]]]].
  - rewrite Wc. cbn [obind]. rewrite Wm. cbn [obind]. rewrite Wt1. cbn [obind app].
    rewrite We1. reflexivity.
  - rewrite Wi. cbn [obind]. rewrite Wc. cbn [obind]. rewrite Wm. cbn [obind].
    rewrite Wt2. cbn [obind app]. rewrite <- app_assoc, We2. reflexivity.
  - intros rest. unfold parseFrame, peekUInt8BigNum. rewrite <- app_assoc, Rt1.
    cbn [obind]. change (FrameType_of_value (FrameType_value ConnectionClose))
      with (Some ConnectionClose). cbv iota zeta.
    unfold ConnectionCloseFrame_fromBuffer, assertType. rewrite Rt1. cbn [obind].
    rewrite Z.eqb_refl. cbn [obind]. rewrite Re1. cbn [obind].
    rewrite <- (app_nil_r (bc ++ bm)), <- !app_assoc, Rc. cbn [obind].
    rewrite Rm. cbn [obind]. rewrite Hu. reflexivity.
  - intros rest. unfold parseFrame, peekUInt8BigNum. rewrite <- app_assoc, Rt2.
    cbn [obind]. change (FrameType_of_value (FrameType_value StreamClose))
      with (Some StreamClose). cbv iota zeta.
    unfold StreamCloseFrame_fromBuffer, assertType. rewrite Rt2. cbn [obind].
    rewrite Z.eqb_refl. cbn [obind]. rewrite Re2. cbn [obind].
    rewrite <- (app_nil_r (bi ++ bc ++ bm)), <- !app_assoc, Ri. cbn [obind].
    rewrite Rc. cbn [obind]. rewrite Rm. cbn [obind]. rewrite Hu. reflexivity.
  - intros errorMessage w. unfold Frames.writeTo.
    cbn [writeContents writeErrorCode Frame_type]. rewrite Wi. cbn [obind].
    split; destruct (writeUInt8 _ w); reflexivity.
  - intros errorMessage. unfold ByteLength.Frame_byteLength, ByteLength.Frame_writeTo.
    cbn [writeContents writeErrorCode]. rewrite Wi. split; reflexivity.
Qed.

Lemma unknown_error_code_witness :
  exists connectionClose streamClose : Buffer,
    connectionClose = map byte_of_Z [0x01; 5; 0x0b; 3; 111; 111; 112] /\
    streamClose = map byte_of_Z [0x10; 7; 1; 3; 0x0b; 3; 111; 111; 112] /\
    (forall rest,
        parseFrame (connectionClose ++ rest)
        = Some (Some (ConnectionCloseFrame None "oop"), rest)) /\
    (forall rest,
        parseFrame (streamClose ++ rest)
        = Some (Some (StreamCloseFrame 3 None "oop"), rest)) /\
    (forall errorMessage w,
        Frames.writeTo (ConnectionCloseFrame None errorMessage) w = None /\
        Frames.writeTo (StreamCloseFrame 3 None errorMessage) w = None).
Proof.
  destruct (@unknown_error_code 0x0b 3 (buffer_of_string "oop"))
    as (b1 & b2 & H1 & H2 & P1 & P2 & W & _).
  - unfold uint8. lia.
  - reflexivity.
  - unfold uint64, MAX_UINT64. lia.
  - unfold buffer_ok, MAX_LENGTH. vm_compute. discriminate.
  - exists b1, b2.
    assert (E1 : b1 = map byte_of_Z [0x01; 5; 0x0b; 3; 111; 111; 112])
      by (vm_compute in H1 |- *; congruence).
    assert (E2 : b2 = map byte_of_Z [0x10; 7; 1; 3; 0x0b; 3; 111; 111; 112])
      by (vm_compute in H2 |- *; congruence).
    split; [exact E1|]. split; [exact E2|]. split; [exact P1|]. split; [exact P2 | exact W].
Defined.

Lemma readVarUIntBigNum_nonneg (r : Reader) (v : Z) (r' : Reader) :
  readVarUIntBigNum r = Some (v, r') -> 0 <= v.
Proof.
  unfold readVarUIntBigNum.
  destruct (readVarOctetString r) as [[bs r1]|]; cbn [obind]; [|discriminate].
  destruct bs as [|b bs]; [discriminate|].
  intros H. assert (E : be_decode (b :: bs) = v) by congruence. subst v.
  apply be_decode_range.
Qed.

Ltac nonneg_chain H :=
  repeat match type of H with
         | obind (obind ?m _) _ = Some _ =>
           destruct m; cbn [obind] in H; [|discriminate H]
         | obind ?m _ = Some _ =>
           let E := fresh "E" in
           let x := fresh "x" in
           destruct m as [x|] eqn:E; cbn [obind] in H; [|discriminate H];
           try (destruct x as [? ?]);
           try (apply readVarUIntBigNum_nonneg in E)
         end.

Lemma fromBuffer_nonneg (r : Reader) (f : Frame) (r' : Reader) :
  ConnectionNewAddressFrame_fromBuffer r = Some (f, r') \/
  ConnectionCloseFrame_fromBuffer r = Some (f, r') \/
  ConnectionMaxDataFrame_fromBuffer r = Some (f, r') \/
  ConnectionDataBlockedFrame_fromBuffer r = Some (f, r') \/
  ConnectionMaxStreamIdFrame_fromBuffer r = Some (f, r') \/
  ConnectionStreamIdBlockedFrame_fromBuffer r = Some (f, r') \/
  StreamMoneyFrame_fromBuffer r = Some (f, r') \/
  StreamMaxMoneyFrame_fromBuffer r = Some (f, r') \/
  StreamMoneyBlockedFrame_fromBuffer r = Some (f, r') \/
  StreamCloseFrame_fromBuffer r = Some (f, r') \/
  StreamDataFrame_fromBuffer r = Some (f, r') \/
  StreamMaxDataFrame_fromBuffer r = Some (f, r') \/
  StreamDataBlockedFrame_fromBuffer r = Some (f, r') ->
  Frame_nonneg f.
Proof.
  unfold ConnectionNewAddressFrame_fromBuffer, ConnectionCloseFrame_fromBuffer,
    ConnectionMaxDataFrame_fromBuffer, ConnectionDataBlockedFrame_fromBuffer,
    ConnectionMaxStreamIdFrame_fromBuffer, ConnectionStreamIdBlockedFrame_fromBuffer,
    StreamMoneyFrame_fromBuffer, StreamMaxMoneyFrame_fromBuffer,
    StreamMoneyBlockedFrame_fromBuffer, StreamCloseFrame_fromBuffer,
    StreamDataFrame_fromBuffer, StreamMaxDataFrame_fromBuffer,
    StreamDataBlockedFrame_fromBuffer, new_StreamMoneyFrame, new_StreamMaxMoneyFrame,
    new_StreamMoneyBlockedFrame, assert_positive_integer.
  cbv zeta.
  intros H; repeat (destruct H as [H|H]); nonneg_chain H;
    match type of H with
    | Some (?g, _) = Some (f, _) =>
      let E := fresh "E" in
      assert (E : g = f) by congruence; rewrite <- E;
      unfold Frame_nonneg; cbn [Frame_fields]; repeat constructor; assumption
    end.
Qed.

Lemma parseFrame_nonneg (r : Reader) (f : Frame) (r' : Reader) :
  parseFrame r = Some (Some f, r') -> Frame_nonneg f.
Proof.
  unfold parseFrame.
  destruct (peekUInt8BigNum r) as [type|]; cbn [obind]; [|discriminate].
  cbv zeta.
  destruct (FrameType_of_value type) as [[]|]; intros H;
    try (nonneg_chain H; discriminate H);
    match type of H with
    | obind ?m _ = Some _ =>
      let E := fresh "E" in
      destruct m as [[f0 r0]|] eqn:E; cbn [obind] in H; [|discriminate H];
      assert (f0 = f) by congruence; subst f0;
      apply (@fromBuffer_nonneg r f r0); tauto
    end.
Qed.

Lemma parseFrames_nonneg (n : nat) (r : Reader) (acc fs : list Frame) (r' : Reader) :
  Forall Frame_nonneg acc ->
  Packet.parseFrames n r acc = Some (fs, r') ->
  Forall Frame_nonneg fs /\ (List.length fs <= List.length acc + n)%nat.
Proof.
  revert r acc. induction n as [|n IH]; intros r acc Hacc; cbn [Packet.parseFrames].
  - intros H. assert (acc = fs) by congruence. subst fs. split; [exact Hacc | lia].
  - destruct (parseFrame r) as [[[f|] r1]|] eqn:E; cbn [obind]; [| |discriminate].
    + intros H. apply IH in H.
      * rewrite length_app in H. cbn [List.length] in H. split; [apply H | lia].
      * apply Forall_app. split; [exact Hacc|]. constructor; [|constructor].
        apply (@parseFrame_nonneg r f r1 E).
    + intros H. apply IH in H; [|exact Hacc]. split; [apply H | lia].
Qed.

(** X23. Whatever bytes it is given, the parser returns no negative number
    and no more frames than the header counts: in every packet that
    [_deserializeUnencrypted] returns, the sequence, the amount and every
    integer field of every frame are at least 0, and the packet type is a
    byte.  So the assertions that the constructors of the money frames make
    on their amounts cannot fail while parsing. *)
Theorem parsed_numbers_nonnegative (buffer : Buffer) (p : Packet.t) :
  Packet._deserializeUnencrypted buffer = Some p ->
  0 <= Packet.sequence p /\
  0 <= Packet.ilpPacketType p <= 255 /\
  0 <= Packet.prepareAmount p /\
  Forall (fun f => Forall (fun v => 0 <= v) (Frame_fields f)) (Packet.frames p).
Proof.
  unfold Packet._deserializeUnencrypted. cbv zeta.
  destruct (readUInt8BigNum buffer) as [[version r0]|]; cbn [obind]; [|discriminate].
  destruct (negb (version =? VERSION)); [discriminate|].
  destruct (readUInt8BigNum r0) as [[type r1]|] eqn:Et; cbn [obind]; [|discriminate].
  destruct (readVarUIntBigNum r1) as [[sequence r2]|] eqn:Es; cbn [obind]; [|discriminate].
  destruct (readVarUIntBigNum r2) as [[amount r3]|] eqn:Ea; cbn [obind]; [|discriminate].
  destruct (readVarUIntBigNum r3) as [[numFrames r4]|] eqn:En; cbn [obind]; [|discriminate].
  destruct (Packet.parseFrames (Z.to_nat numFrames) r4 []) as [[fs r5]|] eqn:Ef;
    cbn [obind]; [|discriminate].
  intros H. assert (E : Packet.mk sequence type amount fs = p) by congruence. subst p.
  cbn [Packet.sequence Packet.ilpPacketType Packet.prepareAmount Packet.frames].
  apply readVarUIntBigNum_nonneg in Es, Ea.
  destruct (@parseFrames_nonneg _ _ _ _ _ (Forall_nil _) Ef) as (Hfs & _).
  split; [exact Es|]. split; [|split; [exact Ea | exact Hfs]].
  destruct r0 as [|b r0]; [discriminate Et|]. cbn [readUInt8BigNum] in Et.
  assert (Z_of_byte b = type) by congruence. subst type.
  pose proof (Z_of_byte_range b). lia.
Qed.

Lemma parsed_numbers_nonnegative_witness :
  0 <= Packet.sequence (Packet.mk 5 12 0 [StreamMaxDataFrame 9 7]) /\
  0 <= Packet.ilpPacketType (Packet.mk 5 12 0 [StreamMaxDataFrame 9 7]) <= 255 /\
  0 <= Packet.prepareAmount (Packet.mk 5 12 0 [StreamMaxDataFrame 9 7]) /\
  Forall (fun f => Forall (fun v => 0 <= v) (Frame_fields f))
         (Packet.frames (Packet.mk 5 12 0 [StreamMaxDataFrame 9 7])).
Proof.
  apply (@parsed_numbers_nonnegative foreign_packet_bytes). vm_compute. reflexivity.
Defined.

End ParserFacts.

(** ** protocol.ts: padding to a size that is too small *)

Module PaddingExtra.
Import PaddingFacts.

Lemma slice_zero_bytes_negative (r : Z) :
  -32 < r < 0 -> slice ZERO_BYTES 0 r = repeat x00 (Z.to_nat (32 + r)).
Proof.
  intros Hr. unfold slice, clamp_index, ZERO_BYTES. rewrite len_repeat.
  replace (0 <? 0) with false by reflexivity.
  replace (r <? 0) with true by (symmetry; apply Z.ltb_lt; lia).
  rewrite Z.min_l, Z.max_l by lia. cbn [Z.to_nat skipn]. rewrite Nat.sub_0_r.
  change (Z.of_nat 32) with 32.
  set (k := Z.to_nat (32 + r)).
  assert (E : repeat x00 32 = repeat x00 k ++ repeat x00 (32 - k))
    by (rewrite <- repeat_app; f_equal; lia).
  rewrite E, firstn_app, repeat_length, Nat.sub_diag, firstn_O, app_nil_r.
  rewrite <- (repeat_length x00 k) at 1. apply firstn_all.
Qed.

(** For a negative [paddingSize] the loop adds no block, and the slice
    [ZERO_BYTES.slice(0, paddingSize % 32)] counts its negative end from the
    end of the 32 bytes. *)
Lemma padding_args_negative (serialized : Buffer) (paddingSize : Z) :
  paddingSize < 0 ->
  List.concat (([serialized] ++ repeat ZERO_BYTES (Z.to_nat (paddingSize / 32)))
                 ++ [slice ZERO_BYTES 0 (Z.rem paddingSize 32)])
  = serialized ++ repeat x00 (Z.to_nat (paddingSize mod 32)).
Proof.
  intros Hp.
  assert (Hq : paddingSize / 32 < 0) by (apply Z.div_lt_upper_bound; lia).
  replace (Z.to_nat (paddingSize / 32)) with 0%nat by lia.
  cbn [repeat app List.concat]. rewrite app_nil_r.
  pose proof (Z.rem_bound_pos_neg paddingSize 32 ltac:(lia) ltac:(lia)) as Hr.
  pose proof (Z.mod_pos_bound paddingSize 32 ltac:(lia)) as Hm.
  pose proof (Z.div_mod paddingSize 32 ltac:(lia)) as Hd.
  pose proof (Z.quot_rem' paddingSize 32) as Hqr.
  destruct (Z.eq_dec (Z.rem paddingSize 32) 0) as [E|E].
  - assert (Em : paddingSize mod 32 = 0) by lia.
    rewrite E, Em. reflexivity.
  - rewrite slice_zero_bytes_negative by lia.
    do 2 f_equal. lia.
Qed.

(** X9. [padPacketToSize] below the size of the packet does not mean no
    padding.  When the size asked for is smaller than the serialized length
    plus 28, [serializeAndEncrypt] still adds zero bytes, as many as
    [paddingSize] modulo 32 with the sign of the divisor (27 when five
    bytes are missing), so the result is longer than the unpadded packet
    whenever the shortfall is no multiple of 32; it decrypts and
    deserializes to the packet all the same. *)
Theorem padding_to_smaller_size {NC : NodeCrypto} (p : Packet.t)
        (sharedSecret serialized : Buffer) (padPacketToSize : Z) :
  Packet_valid p ->
  Packet._serialize p = Some serialized ->
  padPacketToSize < len serialized + 28 ->
  exists encrypted : Buffer,
    Packet.serializeAndEncrypt p sharedSecret (Some padPacketToSize) = Some encrypted /\
    len encrypted
    = len serialized + 28 + (padPacketToSize - 28 - len serialized) mod 32 /\
    Packet.decryptAndDeserialize sharedSecret encrypted = Some p.
Proof.
  intros Hv Hs Hpad.
  destruct (@PacketFacts.serialize_deserialize p Hv) as (b & Hb & Hd).
  assert (b = serialized) by congruence. subst b.
  unfold Packet.serializeAndEncrypt. rewrite Hs. cbn [obind].
  unfold ENCRYPTION_OVERHEAD.
  set (paddingSize := padPacketToSize - 28 - len serialized).
  assert (Hps : paddingSize < 0) by (unfold paddingSize; lia).
  set (args := ([serialized] ++ repeat ZERO_BYTES (Z.to_nat (paddingSize / 32)))
                 ++ [slice ZERO_BYTES 0 (Z.rem paddingSize 32)]).
  pose proof (@padding_args_negative serialized paddingSize Hps) as Hargs.
  fold args in Hargs.
  destruct (@CryptoExtra.sync_seal_open NC sharedSecret args) as (e & He & Hlen & Hdec).
  pose proof (Z.mod_pos_bound paddingSize 32 ltac:(lia)) as Hm.
  exists e. split; [exact He|]. split.
  - rewrite Hlen, Hargs, len_app, len_repeat. lia.
  - unfold Packet.decryptAndDeserialize. rewrite Hdec. cbn [obind].
    rewrite Hargs. apply Hd.
Qed.

Lemma padding_to_smaller_size_witness :
  exists serialized encrypted : Buffer,
    Packet._serialize example_packet = Some serialized /\
    Packet.serializeAndEncrypt (NC := toy_crypto) example_packet (repeat x00 32)
                               (Some (len serialized + 23))
    = Some encrypted /\
    len encrypted = len serialized + 28 + 27 /\
    Packet.decryptAndDeserialize (NC := toy_crypto) (repeat x00 32) encrypted
    = Some example_packet.
Proof.
  destruct (@PacketFacts.serialize_deserialize example_packet example_packet_valid)
    as (b & Hb & _).
  destruct (@padding_to_smaller_size toy_crypto example_packet (repeat x00 32) b
              (len b + 23) example_packet_valid Hb ltac:(lia)) as (e & He & Hlen & Hdec).
  exists b, e. split; [exact Hb|]. split; [exact He|]. split; [|exact Hdec].
  rewrite Hlen. replace (len b + 23 - 28 - len b) with (-5) by lia. reflexivity.
Defined.

End PaddingExtra.

(** ** util/receipt.ts *)

Module ReceiptExtra.
Import Oer OerFacts Receipt ReceiptSpec ReceiptFacts.

Section WithCrypto.
Context {NC : NodeCrypto}.

(** A receipt is returned only for options that pass every check. *)
Lemma createReceipt_Ok_inv (opts : ReceiptOpts) (receipt : Buffer) :
  createReceipt opts = Ok receipt ->
  len (opts_nonce opts) = 16 /\ len (opts_secret opts) = 32 /\
  0 <= opts_streamId opts <= 255 /\ 0 <= opts_totalReceived opts < 2 ^ 64.
Proof.
  intros Hc. unfold createReceipt in Hc.
  destruct (len (opts_nonce opts) =? 16) eqn:E1; [|discriminate Hc].
  destruct (len (opts_secret opts) =? 32) eqn:E2; [|discriminate Hc].
  cbn [negb] in Hc. apply Z.eqb_eq in E1, E2.
  unfold writeUInt8 at 1 in Hc.
  rewrite writeUInt_eq in Hc by (unfold RECEIPT_VERSION; simpl; lia).
  cbn [oer rbind] in Hc. unfold writeOctetString at 1 in Hc.
  rewrite E1 in Hc. cbn [Z.eqb Pos.eqb oer rbind] in Hc.
  unfold writeUInt8, writeUInt in Hc.
  destruct ((0 <=? opts_streamId opts) && (opts_streamId opts <? 256 ^ Z.of_nat 1)) eqn:E3;
    [|discriminate Hc].
  cbn [oer rbind] in Hc. unfold longFromValue in Hc.
  destruct ((0 <=? opts_totalReceived opts) && (opts_totalReceived opts <? 2 ^ 64)) eqn:E4;
    [|discriminate Hc].
  apply andb_true_iff in E3, E4. destruct E3 as [E3 E3'], E4 as [E4 E4'].
  apply Z.leb_le in E3, E4. apply Z.ltb_lt in E3', E4'.
  change (256 ^ Z.of_nat 1) with 256 in E3'. repeat split; lia.
Qed.

(** X10. What [createReceipt] rejects, and in which order.  The length of
    the nonce is checked first and the length of the secret second, each
    with its own message, whatever the other options are; with both lengths
    right, a stream id that is not from 0 to 255 makes the writer throw,
    whatever the total is.  No receipt is returned unless these three checks
    pass, and one is returned when the total is from 0 to 2^64 - 1 as
    well. *)
Theorem createReceipt_checks_in_order (opts : ReceiptOpts) :
  (len (opts_nonce opts) <> 16 ->
   createReceipt opts = Throw (Error "receipt nonce must be 16 bytes")) /\
  (len (opts_nonce opts) = 16 -> len (opts_secret opts) <> 32 ->
   createReceipt opts = Throw (Error "receipt secret must be 32 bytes")) /\
  (len (opts_nonce opts) = 16 -> len (opts_secret opts) = 32 ->
   ~ 0 <= opts_streamId opts <= 255 ->
   createReceipt opts = Throw OerError) /\
  (forall receipt : Buffer,
      createReceipt opts = Ok receipt ->
      len (opts_nonce opts) = 16 /\ len (opts_secret opts) = 32 /\
      0 <= opts_streamId opts <= 255) /\
  (len (opts_nonce opts) = 16 -> len (opts_secret opts) = 32 ->
   0 <= opts_streamId opts <= 255 -> 0 <= opts_totalReceived opts < 2 ^ 64 ->
   exists receipt : Buffer, createReceipt opts = Ok receipt).
Proof.
  split; [|split; [|split; [|split]]].
  - intros Hn. unfold createReceipt.
    replace (len (opts_nonce opts) =? 16) with false by (symmetry; apply Z.eqb_neq, Hn).
    reflexivity.
  - intros Hn Hs. unfold createReceipt. rewrite Hn.
    replace (len (opts_secret opts) =? 32) with false by (symmetry; apply Z.eqb_neq, Hs).
    reflexivity.
  - intros Hn Hs Hid. unfold createReceipt. rewrite Hn, Hs. cbn [Z.eqb Pos.eqb negb].
    unfold writeUInt8 at 1.
    rewrite writeUInt_eq by (unfold RECEIPT_VERSION; simpl; lia).
    cbn [oer rbind]. unfold writeOctetString at 1. rewrite Hn.
    cbn [Z.eqb Pos.eqb oer rbind]. unfold writeUInt8, writeUInt.
    replace ((0 <=? opts_streamId opts) && (opts_streamId opts <? 256 ^ Z.of_nat 1))
      with false; [reflexivity|].
    symmetry. apply andb_false_iff. change (256 ^ Z.of_nat 1) with 256.
    destruct (Z_lt_le_dec (opts_streamId opts) 0).
    + left. apply Z.leb_gt. lia.
    + right. apply Z.ltb_ge. lia.
  - intros receipt H.
    destruct (@createReceipt_Ok_inv opts receipt H) as (Hn & Hs & Hid & _).
    repeat split; try assumption; lia.
  - intros Hn Hs Hid Ht. eexists.
    apply (@createReceipt_value NC opts Hn Hs Hid Ht).
Qed.

(** X11. A receipt determines what it is a receipt for: two calls of
    [createReceipt], with totals from 0 to 2^64 - 1, that return the same
    bytes were made with the same nonce, the same stream id and the same
    total. *)
Theorem receipt_determines_fields (opts1 opts2 : ReceiptOpts) (receipt : Buffer) :
  0 <= opts_totalReceived opts1 < 2 ^ 64 ->
  0 <= opts_totalReceived opts2 < 2 ^ 64 ->
  createReceipt opts1 = Ok receipt ->
  createReceipt opts2 = Ok receipt ->
  opts_nonce opts1 = opts_nonce opts2 /\
  opts_streamId opts1 = opts_streamId opts2 /\
  opts_totalReceived opts1 = opts_totalReceived opts2.
Proof.
  intros Ht1 Ht2 H1 H2.
  destruct (@createReceipt_Ok_inv opts1 receipt H1) as (Hn1 & Hs1 & Hid1 & _).
  destruct (@createReceipt_Ok_inv opts2 receipt H2) as (Hn2 & Hs2 & Hid2 & _).
  pose proof (@createReceipt_value NC opts1 Hn1 Hs1 Hid1 Ht1) as V1.
  pose proof (@createReceipt_value NC opts2 Hn2 Hs2 Hid2 Ht2) as V2.
  cbv zeta in V1, V2.
  pose proof (@decodeReceipt_value (opts_nonce opts1)
                (hmac_sha256 (opts_secret opts1)
                   (receipt_message (opts_nonce opts1) (opts_streamId opts1)
                                    (opts_totalReceived opts1)))
                (opts_streamId opts1) (opts_totalReceived opts1) Hn1
                (hmac_sha256_length _ _) Hid1 Ht1) as D1.
  pose proof (@decodeReceipt_value (opts_nonce opts2)
                (hmac_sha256 (opts_secret opts2)
                   (receipt_message (opts_nonce opts2) (opts_streamId opts2)
                                    (opts_totalReceived opts2)))
                (opts_streamId opts2) (opts_totalReceived opts2) Hn2
                (hmac_sha256_length _ _) Hid2 Ht2) as D2.
  assert (E1 : receipt = receipt_message (opts_nonce opts1) (opts_streamId opts1)
                           (opts_totalReceived opts1)
                         ++ hmac_sha256 (opts_secret opts1)
                              (receipt_message (opts_nonce opts1) (opts_streamId opts1)
                                               (opts_totalReceived opts1)))
    by congruence.
  assert (E2 : receipt = receipt_message (opts_nonce opts2) (opts_streamId opts2)
                           (opts_totalReceived opts2)
                         ++ hmac_sha256 (opts_secret opts2)
                              (receipt_message (opts_nonce opts2) (opts_streamId opts2)
                                               (opts_totalReceived opts2)))
    by congruence.
  rewrite <- E1 in D1. rewrite <- E2 in D2.
  assert (E : mkReceipt RECEIPT_VERSION (opts_nonce opts1) (opts_streamId opts1)
                        (opts_totalReceived opts1)
              = mkReceipt RECEIPT_VERSION (opts_nonce opts2) (opts_streamId opts2)
                          (opts_totalReceived opts2)) by congruence.
  repeat split; congruence.
Qed.

End WithCrypto.

Lemma explicit_58 (receipt : Buffer) :
  len receipt = 58 ->
  exists v nonce s total mac,
    receipt = v :: nonce ++ s :: total ++ mac /\
    List.length nonce = 16%nat /\ List.length total = 8%nat /\ List.length mac = 32%nat.
Proof.
  intros Hlen.
  assert (Hl : List.length receipt = 58%nat) by (unfold len in Hlen; lia).
  destruct receipt as [|v r]; [discriminate Hl|].
  exists v, (firstn 16 r), (nth 16 r x00), (firstn 8 (skipn 17 r)), (skipn 25 r).
  cbn [List.length] in Hl.
  assert (Hr : List.length r = 57%nat) by lia.
  rewrite !length_firstn, !length_skipn, Hr.
  split; [|split; [|split]]; try reflexivity.
  f_equal.
  rewrite <- (firstn_skipn 16 r) at 1. f_equal.
  assert (H17 : skipn 16 r = nth 16 r x00 :: skipn 17 r).
  { clear Hlen Hl. do 17 (destruct r as [|? r]; [discriminate Hr|]). reflexivity. }
  rewrite H17. f_equal.
  rewrite <- (firstn_skipn 8 (skipn 17 r)) at 1. f_equal.
  rewrite skipn_skipn. reflexivity.
Qed.

(** X12. [decodeReceipt] checks the length and nothing else.  It returns a
    receipt for every buffer of 58 bytes: the first byte as the version,
    whatever it is, the next 16 as the nonce, the next one as the stream id
    and the next eight as the total; the last 32 bytes are not looked at, so
    the result is the same with any other 32 bytes in their place. *)
Theorem decodeReceipt_does_not_verify (receipt : Buffer) :
  len receipt = 58 ->
  decodeReceipt receipt
  = Ok (mkReceipt (Z_of_byte (nth 0 receipt x00))
                  (firstn 16 (skipn 1 receipt))
                  (Z_of_byte (nth 17 receipt x00))
                  (be_decode (firstn 8 (skipn 18 receipt)))) /\
  forall other : Buffer,
    len other = 32 ->
    decodeReceipt (firstn 26 receipt ++ other) = decodeReceipt receipt.
Proof.
  intros Hlen.
  assert (Hgen : forall v nonce s total mac,
             List.length nonce = 16%nat -> List.length total = 8%nat ->
             List.length mac = 32%nat ->
             decodeReceipt (v :: nonce ++ s :: total ++ mac)
             = Ok (mkReceipt (Z_of_byte v) nonce (Z_of_byte s) (be_decode total))).
  { intros v nonce s total mac Hn Ht Hm. unfold decodeReceipt.
    replace (len (v :: nonce ++ s :: total ++ mac) =? 58) with true.
    2:{ symmetry. apply Z.eqb_eq. unfold len. cbn [List.length].
        rewrite length_app. cbn [List.length]. rewrite length_app. lia. }
    cbn [negb readUInt8Number readUInt8BigNum oer rbind].
    unfold readOctetString. rewrite <- Hn, read_app. cbn [oer rbind].
    unfold readUInt8. cbn [readUInt8BigNum oer rbind].
    unfold readUInt64Long, readUInt. cbv iota.
    rewrite <- Ht, read_app. reflexivity. }
  destruct (@explicit_58 receipt Hlen) as (v & nonce & s & total & mac & -> & Hn & Ht & Hm).
  split.
  - rewrite (Hgen v nonce s total mac Hn Ht Hm).
    set (l := nonce ++ s :: total ++ mac).
    change (nth 0 (v :: l) x00) with v.
    change (skipn 1 (v :: l)) with l.
    change (nth 17 (v :: l) x00) with (nth 16 l x00).
    change (skipn 18 (v :: l)) with (skipn 17 l).
    subst l.
    rewrite firstn_app, Hn, Nat.sub_diag, firstn_O, app_nil_r.
    rewrite <- Hn at 1. rewrite firstn_all.
    replace (nth 16 (nonce ++ s :: total ++ mac) x00) with s.
    2:{ replace 16%nat with (List.length nonce + 0)%nat by lia.
        rewrite app_nth2_plus. reflexivity. }
    replace (skipn 17 (nonce ++ s :: total ++ mac)) with (total ++ mac).
    2:{ change 17%nat with (1 + 16)%nat. rewrite <- skipn_skipn.
        rewrite <- Hn, skipn_app, skipn_all, Nat.sub_diag. reflexivity. }
    rewrite firstn_app, Ht, Nat.sub_diag, firstn_O, app_nil_r.
    rewrite <- Ht at 1. rewrite firstn_all. reflexivity.
  - intros other Ho.
    assert (Hol : List.length other = 32%nat) by (unfold len in Ho; lia).
    replace (firstn 26 (v :: nonce ++ s :: total ++ mac)) with (v :: nonce ++ s :: total).
    2:{ change 26%nat with (S 25). rewrite firstn_cons. f_equal.
        rewrite firstn_app, Hn. rewrite firstn_all2 by lia. f_equal.
        change (25 - 16)%nat with (S 8). rewrite firstn_cons. f_equal.
        rewrite firstn_app, Ht. rewrite firstn_all2 by lia.
        rewrite Nat.sub_diag, firstn_O, app_nil_r. reflexivity. }
    cbn [app]. rewrite <- app_assoc. cbn [app].
    rewrite (Hgen v nonce s total other Hn Ht Hol), (Hgen v nonce s total mac Hn Ht Hm).
    reflexivity.
Qed.

Lemma createReceipt_checks_in_order_witness :
  createReceipt (NC := toy_crypto) (mkOpts (repeat x00 15) 256 (-1) (repeat x00 31))
  = Throw (Error "receipt nonce must be 16 bytes") /\
  createReceipt (NC := toy_crypto) (mkOpts (repeat x00 16) 256 (-1) (repeat x00 31))
  = Throw (Error "receipt secret must be 32 bytes") /\
  createReceipt (NC := toy_crypto) (mkOpts (repeat x00 16) 256 (-1) (repeat x00 32))
  = Throw OerError /\
  exists receipt : Buffer,
    createReceipt (NC := toy_crypto) (mkOpts (repeat x00 16) 255 (2 ^ 64 - 1) (repeat x00 32))
    = Ok receipt.
Proof.
  split; [|split; [|split]].
  - apply (@createReceipt_checks_in_order toy_crypto
             (mkOpts (repeat x00 15) 256 (-1) (repeat x00 31))).
    vm_compute. discriminate.
  - apply (@createReceipt_checks_in_order toy_crypto
             (mkOpts (repeat x00 16) 256 (-1) (repeat x00 31))).
    + reflexivity.
    + vm_compute. discriminate.
  - apply (@createReceipt_checks_in_order toy_crypto
             (mkOpts (repeat x00 16) 256 (-1) (repeat x00 32))).
    + reflexivity.
    + reflexivity.
    + cbn [opts_streamId]. lia.
  - apply (@createReceipt_checks_in_order toy_crypto
             (mkOpts (repeat x00 16) 255 (2 ^ 64 - 1) (repeat x00 32)));
      cbn [opts_nonce opts_secret opts_streamId opts_totalReceived];
      try reflexivity; lia.
Defined.

Lemma receipt_determines_fields_witness :
  opts_nonce (mkOpts (repeat x01 16) 7 500 (repeat x00 32))
  = opts_nonce (mkOpts (repeat x01 16) 7 500 (repeat x00 32)) /\
  opts_streamId (mkOpts (repeat x01 16) 7 500 (repeat x00 32)) = 7 /\
  opts_totalReceived (mkOpts (repeat x01 16) 7 500 (repeat x00 32)) = 500.
Proof.
  apply (@receipt_determines_fields toy_crypto
           (mkOpts (repeat x01 16) 7 500 (repeat x00 32))
           (mkOpts (repeat x01 16) 7 500 (repeat x00 32))
           (match createReceipt (NC := toy_crypto)
                    (mkOpts (repeat x01 16) 7 500 (repeat x00 32)) with
            | Ok r => r
            | Throw _ => []
            end));
    first [ cbn [opts_totalReceived]; lia | vm_compute; reflexivity ].
Defined.

Lemma decodeReceipt_does_not_verify_witness :
  decodeReceipt (repeat "007"%byte 58)
  = Ok (mkReceipt 7 (repeat "007"%byte 16) 7 (be_decode (repeat "007"%byte 8))) /\
  forall other : Buffer,
    len other = 32 ->
    decodeReceipt (firstn 26 (repeat "007"%byte 58) ++ other)
    = decodeReceipt (repeat "007"%byte 58).
Proof.
  apply (@decodeReceipt_does_not_verify (repeat "007"%byte 58)). reflexivity.
Defined.

End ReceiptExtra.

(** ** The offset sorter *)

Module SorterExtra.
Import OffsetSorter SorterSpec SorterFacts TilingFacts DuplicateFacts.

Lemma push_loop_position (e : OffsetDataEntry) (l : list OffsetDataEntry) :
  StronglySorted le_offset l ->
  exists A B,
    l = A ++ B /\ push_loop e l = A ++ e :: B /\
    Forall (fun x => offset x <= offset e) A /\
    Forall (fun x => offset e < offset x) B.
Proof.
  induction 1 as [|n rest Hs IH Hall]; cbn [push_loop].
  - exists [], []. repeat split; constructor.
  - destruct (offset n >? offset e) eqn:E.
    + apply Z.gtb_lt in E. exists [], (n :: rest).
      repeat split; constructor; [exact E|].
      eapply Forall_impl; [|exact Hall]. unfold le_offset. intros x Hx. lia.
    + apply gtb_false in E. destruct IH as (A & B & HA & HB & FA & FB).
      exists (n :: A), B. cbn [app]. rewrite <- HA, HB.
      repeat split; [constructor; assumption | exact FB].
Qed.

(** X13. [push] puts the new entry behind every queued entry whose offset
    is not larger and in front of every entry whose offset is larger; the
    entries that were queued keep their order and none is lost, replaced or
    merged, also when the offsets are equal or the data overlap. *)
Theorem push_position (s : t) (data_ : Buffer) (offset_ : Z) :
  reachable s ->
  exists before after : list OffsetDataEntry,
    head s = before ++ after /\
    head (push data_ offset_ s) = before ++ mkEntry data_ offset_ :: after /\
    Forall (fun e => offset e <= offset_) before /\
    Forall (fun e => offset_ < offset e) after.
Proof.
  intros Hr. rewrite push_head.
  apply (@push_loop_position (mkEntry data_ offset_) (head s)).
  apply reachable_sorted, Hr.
Qed.

Lemma push_position_witness :
  exists before after : list OffsetDataEntry,
    [mkEntry ["a"%byte] 0; mkEntry ["b"%byte] 1; mkEntry ["d"%byte] 3] = before ++ after /\
    head (push ["B"%byte] 1
            (push_all [(3, ["d"%byte]); (0, ["a"%byte]); (1, ["b"%byte])] new))
    = before ++ mkEntry ["B"%byte] 1 :: after /\
    Forall (fun e => offset e <= 1) before /\
    Forall (fun e => 1 < offset e) after.
Proof.
  apply (@push_position
           (push_all [(3, ["d"%byte]); (0, ["a"%byte]); (1, ["b"%byte])] new)
           ["B"%byte] 1).
  apply push_all_reachable, reach_new.
Defined.

Lemma byteLength_loop_spec (l : list OffsetDataEntry) (length : Z) :
  byteLength_loop l length = length + queued_bytes l.
Proof.
  revert length. induction l as [|e l IH]; intros length;
    cbn [byteLength_loop]; unfold queued_bytes in *; cbn [map List.concat].
  - change (len []) with 0. lia.
  - rewrite IH, len_app. lia.
Qed.

Lemma queued_bytes_perm (l l' : list OffsetDataEntry) :
  Permutation l l' -> queued_bytes l = queued_bytes l'.
Proof.
  unfold queued_bytes.
  induction 1 as [|x l l' _ IH|x y l|l l' l'' _ IH1 _ IH2]; cbn [map List.concat].
  - reflexivity.
  - rewrite !len_app, IH. reflexivity.
  - rewrite !len_app. lia.
  - congruence.
Qed.

Lemma queued_bytes_app (l l' : list OffsetDataEntry) :
  queued_bytes (l ++ l') = queued_bytes l + queued_bytes l'.
Proof.
  unfold queued_bytes. rewrite map_app, concat_app, len_app. reflexivity.
Qed.

(** X14. [byteLength] counts every queued byte, whether [read] can reach
    it or not: after any pushes it has grown by the total length of the
    pushed data, whatever their offsets, gaps and overlaps; a call of [read]
    that returns a chunk takes the length of the chunk off, and one that
    returns [undefined] changes nothing. *)
Theorem byteLength_counts_all (chunks : list (Z * Buffer)) (s : t) :
  byteLength (push_all chunks s)
  = byteLength s + len (List.concat (map snd chunks)) /\
  (forall chunk, fst (read s) = Some chunk ->
                 byteLength (snd (read s)) = byteLength s - len chunk) /\
  (fst (read s) = None -> byteLength (snd (read s)) = byteLength s).
Proof.
  split; [|split].
  - unfold byteLength. rewrite !byteLength_loop_spec.
    destruct (push_all_head chunks s) as (Hp & _ & _).
    rewrite (queued_bytes_perm Hp), queued_bytes_app.
    unfold queued_bytes at 1. rewrite map_map.
    replace (map (fun x => data (entry_of x)) chunks) with (map snd chunks)
      by (apply map_ext; intros [o d]; reflexivity).
    lia.
  - unfold read, byteLength. destruct (head s) as [|h next] eqn:E;
      cbn [fst snd]; [discriminate|].
    destruct (readOffset s =? offset h); cbn [fst snd head]; [|discriminate].
    intros chunk Hc. assert (data h = chunk) by congruence. subst chunk.
    rewrite !byteLength_loop_spec.
    change (h :: next) with ([h] ++ next). rewrite queued_bytes_app.
    unfold queued_bytes at 2. cbn [map List.concat]. rewrite app_nil_r. lia.
  - unfold read. destruct (head s) as [|h next]; [reflexivity|].
    destruct (readOffset s =? offset h); cbn [fst snd]; [discriminate | reflexivity].
Qed.

(** Chunks at 0 and at 100 with nothing in between: eight bytes are counted,
    three can be read. *)
Lemma byteLength_counts_all_witness :
  byteLength (push_all [(100, buffer_of_string "hello"); (0, buffer_of_string "abc")] new)
  = 8 /\
  returned 2 (push_all [(100, buffer_of_string "hello"); (0, buffer_of_string "abc")] new)
  = [Some (buffer_of_string "abc"); None].
Proof.
  split; [|reflexivity].
  destruct (@byteLength_counts_all
              [(100, buffer_of_string "hello"); (0, buffer_of_string "abc")] new)
    as (H & _).
  rewrite H. reflexivity.
Defined.

(** X15. On every sorter that calls of the methods have led to by pushes
    whose offsets and ends are safe integers, the read offset is not
    negative and not beyond [maxOffset], [maxOffset] is a safe integer, and
    every queued entry starts at a safe integer and does not end beyond
    [maxOffset].  So a sorter whose end offset is negative, as it is until
    [setEndOffset] is called, never says that it is at the end. *)
Theorem maxOffset_bounds (s : t) :
  safely_reachable s ->
  0 <= readOffset s <= maxOffset s /\
  maxOffset s <= MAX_SAFE_INTEGER /\
  Forall (fun e => safe_integer (offset e) /\ offset e + len (data e) <= maxOffset s)
         (head s) /\
  (endOffset s < 0 -> isEnd s = false).
Proof.
  intros Hr.
  assert (H : 0 <= readOffset s <= maxOffset s /\
              maxOffset s <= MAX_SAFE_INTEGER /\
              Forall (fun e => safe_integer (offset e) /\
                               offset e + len (data e) <= maxOffset s) (head s)).
  { induction Hr as [|d o s _ IH Ho He|s _ IH|o s _ IH].
    - cbn. unfold MAX_SAFE_INTEGER. split; [lia|]. split; [lia | constructor].
    - destruct IH as (IH1 & IH2 & IH3). rewrite push_head.
      cbn [push readOffset maxOffset]. unfold safe_integer in He.
      split; [lia|]. split; [lia|].
      eapply Permutation_Forall; [apply push_loop_perm|].
      constructor; [cbn [offset data]; split; [exact Ho | lia]|].
      eapply Forall_impl; [|exact IH3]. cbn beta. intros e (Hs & Hend).
      split; [exact Hs | lia].
    - destruct IH as (IH1 & IH2 & IH3). unfold read.
      destruct (head s) as [|h next] eqn:E; cbn [snd];
        [rewrite E; split; [lia|]; split; [exact IH2 | constructor]|].
      destruct (readOffset s =? offset h) eqn:Eo; cbn [snd].
      + apply Z.eqb_eq in Eo. cbn [readOffset maxOffset head].
        inversion IH3 as [|? ? (Hh & Hend) Hnext]; subst.
        pose proof (len_nonneg (data h)).
        split; [lia|]. split; [exact IH2 | exact Hnext].
      + rewrite E. split; [lia|]. split; [exact IH2 | exact IH3].
    - exact IH. }
  destruct H as (H1 & H2 & H3).
  split; [exact H1|]. split; [exact H2|]. split; [exact H3|].
  intros He. unfold isEnd. apply Z.eqb_neq. lia.
Qed.

Lemma maxOffset_bounds_witness :
  let s := snd (read (push (buffer_of_string "abc") 0
                        (push (buffer_of_string "hello") 100 new))) in
  0 <= readOffset s <= maxOffset s /\
  maxOffset s <= MAX_SAFE_INTEGER /\
  Forall (fun e => safe_integer (offset e) /\ offset e + len (data e) <= maxOffset s)
         (head s) /\
  (endOffset s < 0 -> isEnd s = false).
Proof.
  intros s. apply (@maxOffset_bounds s).
  apply safe_read, safe_push; [apply safe_push; [apply safe_new| |]| |];
    unfold safe_integer, MAX_SAFE_INTEGER;
    try change (len (buffer_of_string "abc")) with 3;
    try change (len (buffer_of_string "hello")) with 5; lia.
Defined.

Lemma read_n_S_snd (n : nat) (s : t) :
  snd (read_n (S n) s) = snd (read_n n (snd (read s))).
Proof.
  cbn [read_n]. destruct (read s) as [v s1]. cbn [snd].
  destruct (read_n n s1). reflexivity.
Qed.

(** The state after [n] reads on a queue that holds consecutive pieces from
    the read offset on. *)
Lemma read_n_tiling (n : nat) (pieces : list Buffer) (s : t) :
  head s = map entry_of (chunks_from (readOffset s) pieces) ->
  readOffset (snd (read_n n s)) = readOffset s + len (List.concat (firstn n pieces)) /\
  endOffset (snd (read_n n s)) = endOffset s.
Proof.
  revert pieces s. induction n as [|n IH]; intros pieces s Hh.
  - cbn [read_n snd firstn List.concat]. change (len []) with 0. split; [lia | reflexivity].
  - rewrite read_n_S_snd. unfold read. rewrite Hh.
    destruct pieces as [|p ps]; cbn [chunks_from map snd].
    + rewrite firstn_nil. specialize (IH [] s Hh). rewrite firstn_nil in IH. exact IH.
    + cbn [entry_of offset data fst snd]. rewrite Z.eqb_refl. cbn [snd].
      set (s1 := mk _ _ _ _).
      destruct (IH ps s1 eq_refl) as (IH1 & IH2). rewrite IH1, IH2.
      subst s1. cbn [readOffset endOffset firstn List.concat]. rewrite len_app.
      split; [lia | reflexivity].
Qed.

Lemma nonempty_len (pieces : list Buffer) :
  Forall (fun p => p <> []) pieces -> pieces <> [] -> 0 < len (List.concat pieces).
Proof.
  intros Hne Hp. destruct pieces as [|p ps]; [congruence|].
  inversion Hne as [|? ? Hp0 _]; subst. cbn [List.concat]. rewrite len_app.
  pose proof (len_nonneg (List.concat ps)).
  destruct p as [|x p]; [congruence|]. unfold len at 1. cbn [List.length]. lia.
Qed.

(** X16. With the end offset set to the length of a run of bytes whose
    pieces, none of them empty, are pushed in any order, [isEnd] answers
    [true] after as many reads as there are pieces, and [false] after any
    smaller number of reads. *)
Theorem isEnd_after_last_piece (pieces : list Buffer) (pushed : list (Z * Buffer)) (n : nat) :
  Forall (fun p => p <> []) pieces ->
  Permutation pushed (chunks_from 0 pieces) ->
  let s := setEndOffset (len (List.concat pieces)) (push_all pushed new) in
  isEnd (snd (read_n n s)) = (List.length pieces <=? n)%nat.
Proof.
  intros Hne Hp s.
  destruct (@push_all_tiling pieces pushed Hne Hp) as (Hh & Hr).
  assert (Hs : head s = map entry_of (chunks_from (readOffset s) pieces)).
  { unfold s. cbn [setEndOffset head readOffset]. rewrite Hh, Hr. reflexivity. }
  destruct (@read_n_tiling n pieces s Hs) as (H1 & H2).
  unfold isEnd. rewrite H1, H2.
  unfold s at 1 2. cbn [setEndOffset readOffset endOffset]. rewrite Hr.
  rewrite <- (firstn_skipn n pieces) at 2. rewrite concat_app, len_app.
  destruct (List.length pieces <=? n)%nat eqn:E.
  - apply Nat.leb_le in E. rewrite skipn_all2 by exact E.
    cbn [List.concat]. change (len []) with 0. apply Z.eqb_eq. lia.
  - apply Nat.leb_gt in E. apply Z.eqb_neq.
    assert (0 < len (List.concat (skipn n pieces))); [|lia].
    apply nonempty_len.
    + rewrite <- (firstn_skipn n pieces) in Hne. apply Forall_app in Hne. apply Hne.
    + intros H. apply (f_equal (@List.length Buffer)) in H.
      rewrite length_skipn in H. cbn [List.length] in H. lia.
Qed.

Lemma isEnd_after_last_piece_witness :
  let s := setEndOffset 6
             (push_all [(3, buffer_of_string "bar"); (0, buffer_of_string "foo")] new) in
  isEnd (snd (read_n 1 s)) = false /\ isEnd (snd (read_n 2 s)) = true.
Proof.
  intros s. split.
  - apply (@isEnd_after_last_piece [buffer_of_string "foo"; buffer_of_string "bar"]
             [(3, buffer_of_string "bar"); (0, buffer_of_string "foo")] 1).
    + repeat constructor; discriminate.
    + apply perm_swap.
  - apply (@isEnd_after_last_piece [buffer_of_string "foo"; buffer_of_string "bar"]
             [(3, buffer_of_string "bar"); (0, buffer_of_string "foo")] 2).
    + repeat constructor; discriminate.
    + apply perm_swap.
Defined.

Lemma drain_nth (l : list OffsetDataEntry) (r : Z) (k : nat) (x : Buffer) :
  nth_error (drain r l) k = Some x ->
  In (mkEntry x (r + len (List.concat (firstn k (drain r l))))) l.
Proof.
  revert r k. induction l as [|e l IH]; intros r k; cbn [drain].
  - destruct k; discriminate.
  - destruct (r =? offset e) eqn:E; [|destruct k; discriminate].
    apply Z.eqb_eq in E. destruct k as [|k]; cbn [nth_error firstn List.concat].
    + intros H. left. assert (data e = x) by congruence. subst x.
      change (len []) with 0. rewrite Z.add_0_r, E. destruct e; reflexivity.
    + intros H. right. apply IH in H. rewrite len_app.
      replace (r + (len (data e) + len (List.concat (firstn k (drain (offset e + len (data e)) l)))))
        with (offset e + len (data e)
              + len (List.concat (firstn k (drain (offset e + len (data e)) l)))) by lia.
      exact H.
Qed.

(** X17. [read] never returns bytes that were not pushed, and never at
    another place.  After any pushes on a new sorter, with gaps, overlaps
    or repetitions, whenever a call of [read] returns a chunk, all earlier
    calls returned chunks too, and the chunk was pushed with the offset
    that is the total length of these earlier chunks. *)
Theorem read_returns_pushed_in_place (pushed : list (Z * Buffer)) (n k : nat) (x : Buffer) :
  nth_error (returned n (push_all pushed new)) k = Some (Some x) ->
  exists earlier : list Buffer,
    firstn k (returned n (push_all pushed new)) = map Some earlier /\
    In (len (List.concat earlier), x) pushed.
Proof.
  intros H. apply returned_nth in H. destruct H as (Hk & Hx).
  destruct (push_all_head pushed new) as (Hp & _ & Hr).
  set (s := push_all pushed new) in *.
  change (readOffset new) with 0 in Hr.
  set (D := drain (readOffset s) (head s)) in *.
  assert (HkD : (k < List.length D)%nat)
    by (apply nth_error_Some; congruence).
  exists (firstn k D). split.
  - rewrite read_n_drain. cbv zeta. fold D.
    rewrite firstn_app, length_map, length_firstn.
    replace (k - Nat.min n (List.length D))%nat with 0%nat by lia.
    rewrite firstn_O, app_nil_r, firstn_map, firstn_firstn.
    replace (Nat.min k n) with k by lia. reflexivity.
  - apply drain_nth in Hx. fold D in Hx. rewrite Hr, Z.add_0_l in Hx.
    eapply Permutation_in in Hx; [|exact Hp].
    cbn [head new] in Hx. rewrite app_nil_r in Hx.
    apply in_map_iff in Hx. destruct Hx as ([o d] & He & Hin).
    unfold entry_of in He. cbn [fst snd] in He.
    assert (d = x /\ o = len (List.concat (firstn k D))) by (split; congruence).
    destruct H as [-> ->]. exact Hin.
Qed.

(** Three chunks and a gap before the last: the second read returns the
    chunk pushed at offset 3. *)
Lemma read_returns_pushed_in_place_witness :
  exists earlier : list Buffer,
    firstn 1 (returned 4 (push_all [(3, buffer_of_string "xy"); (0, buffer_of_string "abc");
                                   (9, buffer_of_string "z")]
                                  new))
    = map Some earlier /\
    In (len (List.concat earlier), buffer_of_string "xy")
       [(3, buffer_of_string "xy"); (0, buffer_of_string "abc"); (9, buffer_of_string "z")].
Proof.
  apply (@read_returns_pushed_in_place
           [(3, buffer_of_string "xy"); (0, buffer_of_string "abc");
            (9, buffer_of_string "z")] 4 1
           (buffer_of_string "xy")).
  reflexivity.
Defined.

(** X18. A queued entry that starts before the read offset, as the second
    copy of a chunk or a chunk that overlaps one already read does, blocks
    the sorter for good: whatever is pushed afterwards, every call of [read]
    returns [undefined]. *)
Theorem stale_entry_blocks (s : t) (later : list (Z * Buffer)) (n : nat) :
  reachable s ->
  (exists e, In e (head s) /\ offset e < readOffset s) ->
  returned n (push_all later s) = repeat None n.
Proof.
  intros Hr (e & Hin & Hlt).
  destruct (push_all_head later s) as (Hp & Hs & Hro).
  specialize (Hs (reachable_sorted Hr)).
  assert (Hin' : In e (head (push_all later s))).
  { eapply Permutation_in; [apply Permutation_sym, Hp|].
    apply in_or_app. right. exact Hin. }
  rewrite read_n_drain. cbv zeta. rewrite Hro.
  destruct (head (push_all later s)) as [|h rest]; [inversion Hin'|].
  assert (Hh : offset h <= offset e).
  { destruct Hin' as [->|Hin']; [lia|].
    apply StronglySorted_inv in Hs. destruct Hs as (_ & Hall).
    rewrite Forall_forall in Hall. apply (Hall e Hin'). }
  cbn [drain].
  replace (readOffset s =? offset h) with false by (symmetry; apply Z.eqb_neq; lia).
  rewrite firstn_nil. cbn [map app List.length]. rewrite Nat.sub_0_r. reflexivity.
Qed.

Lemma stale_entry_blocks_witness :
  returned 3
    (push_all [(1, buffer_of_string "b"); (2, buffer_of_string "c")]
       (snd (read (push_all [(0, buffer_of_string "a"); (0, buffer_of_string "a")] new))))
  = [None; None; None].
Proof.
  apply (@stale_entry_blocks
           (snd (read (push_all [(0, buffer_of_string "a"); (0, buffer_of_string "a")] new)))
           [(1, buffer_of_string "b"); (2, buffer_of_string "c")] 3).
  - apply reach_read, push_all_reachable, reach_new.
  - exists (mkEntry (buffer_of_string "a") 0). split.
    + left. reflexivity.
    + reflexivity.
Defined.

End SorterExtra.

(** ** index.ts: the token in the address and the way back *)

Module ServerExtra.
Import Server ServerFacts TokenSpec Base64Facts.

(** X19. [base64url] of [n] bytes is a text of ceil(4n/3) characters taken
    from A-Z, a-z, 0-9, [-] and [_]: no padding, no [+], no [/], and none of
    the dot and the tilde that separate the token in an address.  For the
    18 bytes of a token it has 24 characters, and it passes the test that
    [generateAddressAndSecret] makes on a connection tag. *)
Theorem base64url_alphabet (buffer : Buffer) :
  String.length (base64url buffer) = ((4 * List.length buffer + 2) / 3)%nat /\
  (forall c, In c (list_ascii_of_string (base64url buffer)) ->
             url_char c /\ c <> "."%char /\ c <> "~"%char /\ c <> "="%char) /\
  (len buffer = TOKEN_LENGTH -> String.length (base64url buffer) = 24%nat) /\
  (buffer <> [] -> CONNECTION_ID_REGEX_test (base64url buffer) = true).
Proof.
  split; [apply base64url_length|]. split; [|split].
  - intros c Hc. apply base64url_chars in Hc. split; [exact Hc|].
    unfold url_char in Hc.
    repeat split; intros ->; vm_compute in Hc;
      repeat (destruct Hc as [Hc|Hc]; [discriminate Hc|]); exact Hc.
  - intros Hl. rewrite base64url_length.
    replace (List.length buffer) with 18%nat
      by (unfold len, TOKEN_LENGTH in Hl; lia).
    reflexivity.
  - intros Hne. apply CONNECTION_ID_REGEX_test_spec. split.
    + intros E. apply (f_equal String.length) in E. rewrite base64url_length in E.
      destruct buffer as [|x rest]; [congruence|].
      cbn [List.length String.length] in E.
      assert (H : (1 <= (4 * S (List.length rest) + 2) / 3)%nat)
        by (apply Nat.div_le_lower_bound; lia).
      lia.
    + intros c Hc. apply base64url_chars in Hc. apply url_char_tag_char, Hc.
Qed.

Lemma base64url_alphabet_witness :
  String.length (base64url (map byte_of_Z [0xfb; 0xff; 0xbe; 0x01; 0x02])) = 7%nat /\
  base64url (map byte_of_Z [0xfb; 0xff; 0xbe; 0x01; 0x02]) = "-_--AQI"%string /\
  CONNECTION_ID_REGEX_test (base64url (map byte_of_Z [0xfb; 0xff; 0xbe; 0x01; 0x02])) = true /\
  String.length (base64url (repeat x00 18)) = 24%nat.
Proof.
  destruct (@base64url_alphabet (map byte_of_Z [0xfb; 0xff; 0xbe; 0x01; 0x02]))
    as (H1 & _ & _ & H4).
  destruct (@base64url_alphabet (repeat x00 18)) as (_ & _ & H3 & _).
  split; [exact H1|]. split; [reflexivity|]. split.
  - apply H4. discriminate.
  - apply H3. reflexivity.
Defined.

(** *** The way back: [handleData] *)

Lemma append_assoc (a b c : string) : ((a ++ b) ++ c = a ++ b ++ c)%string.
Proof.
  induction a as [|x a IH]; cbn [append]; [reflexivity | rewrite IH; reflexivity].
Qed.

Lemma chars_append (a b : string) :
  list_ascii_of_string (a ++ b) = list_ascii_of_string a ++ list_ascii_of_string b.
Proof.
  induction a as [|x a IH]; cbn [append list_ascii_of_string app];
    [reflexivity | rewrite IH; reflexivity].
Qed.

Lemma strip_prefix_append (pat rest : string) :
  Routing.strip_prefix pat (pat ++ rest) = Some rest.
Proof.
  induction pat as [|a pat IH]; cbn [append Routing.strip_prefix]; [reflexivity|].
  rewrite Ascii.eqb_refl. exact IH.
Qed.

Lemma replace_first_prefix (pat s rest : string) :
  Routing.strip_prefix pat s = Some rest -> Routing.replace_first pat s = rest.
Proof.
  intros H. destruct s; cbn [Routing.replace_first]; rewrite H; reflexivity.
Qed.

Lemma split_nonempty (sep : ascii) (s : string) : Routing.split sep s <> [].
Proof.
  destruct s as [|c s]; cbn [Routing.split]; [discriminate|].
  destruct (Ascii.eqb c sep); [discriminate|].
  destruct (Routing.split sep s); discriminate.
Qed.

(** A text without the separator is the first part of what [split] returns,
    whether the text ends there or a separator follows. *)
Lemma split_first (sep : ascii) (s : string) :
  (forall c, In c (list_ascii_of_string s) -> c <> sep) ->
  Routing.split sep s = [s] /\
  forall rest, Routing.split sep (s ++ String sep rest) = s :: Routing.split sep rest.
Proof.
  induction s as [|c s IH]; intros Hs.
  - split; [reflexivity|]. intros rest. cbn [append Routing.split].
    rewrite Ascii.eqb_refl. reflexivity.
  - assert (Hc : Ascii.eqb c sep = false)
      by (apply Ascii.eqb_neq, Hs; left; reflexivity).
    destruct IH as (IH1 & IH2); [intros x Hx; apply Hs; right; exact Hx|].
    split.
    + cbn [Routing.split]. rewrite Hc, IH1. reflexivity.
    + intros rest. cbn [append Routing.split]. rewrite Hc, IH2. reflexivity.
Qed.

Lemma occurs_false (pat s : string) :
  occurs pat s = false -> Routing.replace_first pat s = s.
Proof.
  induction s as [|c s IH]; cbn [occurs Routing.replace_first].
  - destruct (Routing.strip_prefix pat EmptyString); [discriminate | reflexivity].
  - destruct (Routing.strip_prefix pat (String c s)); [discriminate|].
    intros H. rewrite (IH H). reflexivity.
Qed.

Lemma strip_prefix_spec (pat s rest : string) :
  Routing.strip_prefix pat s = Some rest <-> s = (pat ++ rest)%string.
Proof.
  split.
  - revert s. induction pat as [|a pat IH]; intros s; cbn [Routing.strip_prefix append].
    + intros H. congruence.
    + destruct s as [|b s]; [discriminate|].
      destruct (Ascii.eqb a b) eqn:E; [|discriminate].
      apply Ascii.eqb_eq in E. subst b. intros H. rewrite (IH s H). reflexivity.
  - intros ->. apply strip_prefix_append.
Qed.

(** [occurs] says what its name says. *)
Lemma occurs_spec (pat s : string) :
  occurs pat s = true <-> exists pre post, s = (pre ++ pat ++ post)%string.
Proof.
  split.
  - induction s as [|c s IH]; cbn [occurs].
    + destruct (Routing.strip_prefix pat EmptyString) as [rest|] eqn:E; [|discriminate].
      intros _. apply strip_prefix_spec in E. exists EmptyString, rest. exact E.
    + destruct (Routing.strip_prefix pat (String c s)) as [rest|] eqn:E.
      * intros _. apply strip_prefix_spec in E. exists EmptyString, rest. exact E.
      * intros H. destruct (IH H) as (pre & post & ->).
        exists (String c pre), post. reflexivity.
  - intros (pre & post & ->). induction pre as [|c pre IH]; cbn [append].
    + pose proof (strip_prefix_append pat post) as H.
      destruct (pat ++ post)%string; cbn [occurs]; rewrite H; reflexivity.
    + cbn [occurs]. destruct (Routing.strip_prefix pat _); [reflexivity | exact IH].
Qed.

Section WithCrypto.
Context {NC : NodeCrypto}.

(** X20. The address that [generateAddressAndSecret] returns leads back to
    the secret.  Whatever the server's account and whether or not a tag was
    given, [handleData] takes from the destination account, and from every
    address below it, a connection id that is the token, tag included, and
    the shared secret that was returned is the one derived from the server
    secret and that connection id. *)
Theorem address_leads_back (server : Server.t) (connectionTag : option string)
        (generated : AddressAndSecret) :
  generateAddressAndSecret server connectionTag = Ok generated ->
  exists connectionId : string,
    destinationAccount generated = (serverAccount server ++ "." ++ connectionId)%string /\
    Routing.connectionId server (destinationAccount generated) = Some connectionId /\
    (forall rest : string,
        Routing.connectionId server (destinationAccount generated ++ "." ++ rest)
        = Some connectionId) /\
    sharedSecret generated
    = CryptoAsync.generateSharedSecretFromToken (serverSecret server)
                                                (buffer_of_string connectionId).
Proof.
  unfold generateAddressAndSecret.
  destruct (connected server); cbn [negb]; [|discriminate].
  set (id := base64url CryptoAsync.generateToken).
  assert (Hid : id <> EmptyString /\
                forall c, In c (list_ascii_of_string id) -> tag_char c).
  { apply CONNECTION_ID_REGEX_test_spec.
    apply (@base64url_regex CryptoAsync.generateToken).
    intros E.
    assert (Hl : len (randomBytes TOKEN_LENGTH) = TOKEN_LENGTH)
      by (apply randomBytes_length; unfold TOKEN_LENGTH; lia).
    unfold CryptoAsync.generateToken in E. rewrite E in Hl.
    unfold TOKEN_LENGTH in Hl. change (len []) with 0 in Hl. lia. }
  destruct Hid as (Hne & Hchars).
  assert (Hback : forall token : string,
             token <> EmptyString ->
             (forall c, In c (list_ascii_of_string token) -> c <> "."%char) ->
             Routing.connectionId server (serverAccount server ++ "." ++ token)
             = Some token /\
             forall rest,
               Routing.connectionId server
                 ((serverAccount server ++ "." ++ token) ++ "." ++ rest) = Some token).
  { intros token Ht Hdot.
    destruct (@split_first "."%char token Hdot) as (S1 & S2).
    unfold Routing.connectionId, Routing.localAddressParts. split.
    - rewrite <- append_assoc.
      rewrite (@replace_first_prefix _ _ token (strip_prefix_append _ _)), S1.
      destruct token; [congruence | reflexivity].
    - intros rest. rewrite <- (append_assoc (serverAccount server)), append_assoc.
      rewrite (@replace_first_prefix _ _ (token ++ "." ++ rest)
                 (strip_prefix_append _ _)).
      change ("." ++ rest)%string with (String "."%char rest). rewrite S2.
      destruct token; [congruence | reflexivity]. }
  assert (Hplain : forall generated0,
             Ok (mkAddressAndSecret (serverAccount server ++ "." ++ id)
                   (CryptoAsync.generateSharedSecretFromToken (serverSecret server)
                                                              (buffer_of_string id)))
             = Ok generated0 ->
             exists connectionId : string,
               destinationAccount generated0
               = (serverAccount server ++ "." ++ connectionId)%string /\
               Routing.connectionId server (destinationAccount generated0)
               = Some connectionId /\
               (forall rest : string,
                   Routing.connectionId server (destinationAccount generated0 ++ "." ++ rest)
                   = Some connectionId) /\
               sharedSecret generated0
               = CryptoAsync.generateSharedSecretFromToken (serverSecret server)
                                                           (buffer_of_string connectionId)).
  { intros g Hg. assert (E : mkAddressAndSecret (serverAccount server ++ "." ++ id)
                   (CryptoAsync.generateSharedSecretFromToken (serverSecret server)
                                                              (buffer_of_string id)) = g)
      by congruence.
    subst g. cbn [destinationAccount sharedSecret].
    destruct (Hback id Hne) as (B1 & B2);
      [intros c Hc; apply tag_char_not_dot, Hchars, Hc|].
    exists id. split; [reflexivity|]. split; [exact B1|]. split; [exact B2 | reflexivity]. }
  destruct connectionTag as [[|a tag]|]; cbn [rbind]; try apply Hplain.
  destruct (CONNECTION_ID_REGEX_test (String a tag)) eqn:Etag; cbn [negb rbind];
    [|discriminate].
  apply CONNECTION_ID_REGEX_test_spec in Etag. destruct Etag as (_ & Htag).
  intros Hg.
  set (token := (id ++ "~" ++ String a tag)%string) in *.
  assert (E : mkAddressAndSecret (serverAccount server ++ "." ++ token)
                (CryptoAsync.generateSharedSecretFromToken (serverSecret server)
                                                           (buffer_of_string token))
              = generated) by congruence.
  subst generated. cbn [destinationAccount sharedSecret].
  destruct (Hback token) as (B1 & B2).
  - unfold token. destruct id; [congruence | discriminate].
  - intros c Hc. unfold token in Hc. rewrite chars_append in Hc.
    apply in_app_or in Hc. destruct Hc as [Hc|Hc].
    + apply tag_char_not_dot, Hchars, Hc.
    + cbn [append list_ascii_of_string] in Hc. destruct Hc as [<-|Hc]; [discriminate|].
      apply tag_char_not_dot, Htag, Hc.
  - exists token. split; [reflexivity|]. split; [exact B1|]. split; [exact B2 | reflexivity].
Qed.

End WithCrypto.

Lemma address_leads_back_witness :
  exists connectionId : string,
    connectionId = (base64url (randomBytes (NodeCrypto := toy_crypto) 18) ++ "~tag_1")%string /\
    Routing.connectionId (Server.mk (repeat x00 32) "test.bob" true)
      ("test.bob." ++ connectionId ++ ".extra.segments")%string
    = Some connectionId.
Proof.
  destruct (@address_leads_back toy_crypto (Server.mk (repeat x00 32) "test.bob" true)
              (Some "tag_1"%string)
              (mkAddressAndSecret
                 ("test.bob." ++ base64url (randomBytes (NodeCrypto := toy_crypto) 18)
                              ++ "~tag_1")
                 (CryptoAsync.generateSharedSecretFromToken (NC := toy_crypto)
                    (repeat x00 32)
                    (buffer_of_string
                       (base64url (randomBytes (NodeCrypto := toy_crypto) 18) ++ "~tag_1")))))
    as (id & H1 & _ & H3 & _).
  - vm_compute. reflexivity.
  - exists id. cbn [destinationAccount] in H1, H3. split.
    + vm_compute in H1 |- *. congruence.
    + specialize (H3 "extra.segments"%string).
      assert (E : id = (base64url (randomBytes (NodeCrypto := toy_crypto) 18) ++ "~tag_1")%string)
        by (vm_compute in H1 |- *; congruence).
      rewrite E in H3 |- *. vm_compute in H3 |- *. exact H3.
Defined.

(** X21. [handleData] does not check that the destination is below the
    server's account.  The account and its dot are removed where they first
    occur; when they do not occur the destination is split as it is, and
    its first segment is taken for the connection id.  Below the account,
    the segments are those of what follows the account's dot, and when the
    first of them is empty no connection is looked up. *)
Theorem destination_not_checked (server : Server.t) (destination : string) :
  (occurs (serverAccount server ++ ".") destination = false ->
   Routing.localAddressParts server destination = Routing.split "." destination) /\
  (forall rest : string,
      Routing.localAddressParts server (serverAccount server ++ "." ++ rest)
      = Routing.split "." rest) /\
  Routing.connectionId server (serverAccount server ++ ".") = None /\
  (forall rest : string,
      Routing.connectionId server (serverAccount server ++ ".." ++ rest) = None).
Proof.
  assert (Hbelow : forall rest : string,
             Routing.localAddressParts server (serverAccount server ++ "." ++ rest)
             = Routing.split "." rest).
  { intros rest. unfold Routing.localAddressParts. rewrite <- append_assoc.
    rewrite (@replace_first_prefix _ _ rest (strip_prefix_append _ _)). reflexivity. }
  split; [|split; [|split]].
  - intros H. unfold Routing.localAddressParts. rewrite (@occurs_false _ _ H). reflexivity.
  - exact Hbelow.
  - unfold Routing.connectionId.
    replace (serverAccount server ++ ".")%string
      with (serverAccount server ++ "." ++ EmptyString)%string by reflexivity.
    rewrite Hbelow. reflexivity.
  - intros rest. unfold Routing.connectionId.
    change (".." ++ rest)%string with ("." ++ String "."%char rest)%string.
    rewrite Hbelow. reflexivity.
Qed.

Lemma destination_not_checked_witness :
  Routing.localAddressParts (Server.mk (repeat x00 32) "test.bob" true) "test.alice.abc"
  = ["test"; "alice"; "abc"]%string /\
  Routing.connectionId (Server.mk (repeat x00 32) "test.bob" true) "test.alice.abc"
  = Some "test"%string.
Proof.
  destruct (@destination_not_checked (Server.mk (repeat x00 32) "test.bob" true)
              "test.alice.abc") as (H & _).
  unfold Routing.connectionId. rewrite H by reflexivity. split; reflexivity.
Defined.

End ServerExtra.

(** ** ildcp.ts *)

Module IldcpExtra.
Import Oer OerFacts FrameFacts Ildcp.

Lemma toString_ascii_seven_bit (b : Buffer) :
  Forall (fun x => Z_of_byte x < 128) b -> toString_ascii b = string_of_buffer b.
Proof.
  intros H. unfold toString_ascii. f_equal.
  induction H as [|x b Hx _ IH]; cbn [map]; [reflexivity|].
  rewrite IH. f_equal.
  change 127 with (Z.ones 7). rewrite Z.land_ones by lia.
  pose proof (Z_of_byte_range x).
  rewrite Z.mod_small by lia. apply byte_of_Z_of_byte.
Qed.

(** X22. [deserializeIldcpResponse] reads what an IL-DCP server writes: for
    data made of the address as a variable-length octet string, the asset
    scale as one byte and the asset code as a variable-length octet string,
    followed by anything, and the fulfillment of 32 zero bytes, it returns
    the address, the scale and the code (a code of seven-bit bytes, which
    decoding as UTF-8 leaves as they are).  The address is decoded as ASCII,
    which unsets the highest bit of every byte: an address of seven-bit
    bytes comes back as it is.  With any other fulfillment it throws,
    whatever the data. *)
Theorem ildcp_response (address code : Buffer) (scale : Z) (data trailing : Buffer) :
  buffer_ok address -> uint8 scale -> buffer_ok code ->
  Forall (fun x => Z_of_byte x < 128) code ->
  (let? w := writeVarOctetString address [] in
   let? w := writeUInt8 scale w in
   writeVarOctetString code w) = Some data ->
  deserializeIldcpResponse PEER_PROTOCOL_FULFILLMENT (data ++ trailing)
  = Ok (mkResponse (toString_ascii address) scale (string_of_buffer code)) /\
  (Forall (fun x => Z_of_byte x < 128) address ->
   deserializeIldcpResponse PEER_PROTOCOL_FULFILLMENT (data ++ trailing)
   = Ok (mkResponse (string_of_buffer address) scale (string_of_buffer code))) /\
  (forall fulfillment anyData : Buffer,
      fulfillment <> PEER_PROTOCOL_FULFILLMENT ->
      deserializeIldcpResponse fulfillment anyData
      = Throw (Error "IL-DCP response does not contain the expected fulfillment.")).
Proof.
  intros Ha Hs Hc _ Hd.
  destruct (@varoctets_ok address Ha) as (ba & _ & Wa & Ra).
  destruct (writeUInt8_ok (v := scale)) as (bs & _ & Ws & Rs); [unfold uint8 in Hs; lia|].
  destruct (@varoctets_ok code Hc) as (bc & _ & Wc & Rc).
  rewrite Wa in Hd. cbn [obind] in Hd. rewrite Ws in Hd. cbn [obind] in Hd.
  rewrite Wc in Hd. cbn [app] in Hd.
  assert (E : data = ba ++ bs ++ bc) by (rewrite app_assoc; congruence).
  subst data. clear Hd.
  assert (Hok : deserializeIldcpResponse PEER_PROTOCOL_FULFILLMENT
                  ((ba ++ bs ++ bc) ++ trailing)
                = Ok (mkResponse (toString_ascii address) scale (string_of_buffer code))).
  { unfold deserializeIldcpResponse. rewrite bytes_eqb_refl. cbn [negb]. cbv zeta.
    rewrite <- !app_assoc, Ra. cbn [oer rbind].
    unfold readUInt8Number. rewrite Rs. cbn [oer rbind].
    rewrite Rc. reflexivity. }
  split; [exact Hok|]. split.
  - intros H7. rewrite Hok, (@toString_ascii_seven_bit address H7). reflexivity.
  - intros fulfillment anyData Hf. unfold deserializeIldcpResponse.
    destruct (bytes_eqb PEER_PROTOCOL_FULFILLMENT fulfillment) eqn:E; [|reflexivity].
    apply bytes_eqb_eq in E. congruence.
Qed.

Lemma ildcp_response_witness :
  deserializeIldcpResponse (repeat x00 32)
    (map byte_of_Z [8; 116; 101; 115; 116; 46; 98; 111; 98; 9; 3; 88; 89; 90] ++ [xff])
  = Ok (mkResponse "test.bob" 9 "XYZ").
Proof.
  apply (@ildcp_response (buffer_of_string "test.bob") (buffer_of_string "XYZ") 9
           (map byte_of_Z [8; 116; 101; 115; 116; 46; 98; 111; 98; 9; 3; 88; 89; 90])
           [xff]).
  - unfold buffer_ok, MAX_LENGTH. vm_compute. discriminate.
  - unfold uint8. lia.
  - unfold buffer_ok, MAX_LENGTH. vm_compute. discriminate.
  - repeat constructor.
  - vm_compute. reflexivity.
  - repeat constructor.
Defined.

End IldcpExtra.
